(** * gremlins.js: the orchestration core, embedded and verified

    The development follows the TypeScript sources:
    - [src/strategies/distribution.ts]: [getUniformDistribution], [pickGremlin];
    - [src/utils/inject.ts]: [inject];
    - [src/utils/executeInSeries.ts], the three strategies and
      [src/gremlinsHorde.ts]: a run-to-completion machine with a task queue;
    - [src/species/clicker.ts], the toucher gremlin and
      [src/mogwais/gizmo.ts]: a gremlin or a mogwai and the page it acts on.

    JavaScript numbers are IEEE 754 binary64 values; the weights and the
    randomizer draws of the distribution strategy are therefore primitive
    floats. *)

From Stdlib Require Import ZArith Floats Uint63.
From stdpp Require Import base option list gmap strings.

Set Warnings "-inexact-float,-register-all,-clear-no-such-hyp,-abstract-large-number".
Open Scope float_scope.
Open Scope nat_scope.

(** ** The distribution strategy's sampling *)

Module Distribution.

(** What [pickGremlin] can return: an element of the gremlin array, the
    fallback closure [() => undefined], or the value of an array read past
    the end. *)
Inductive Picked (G : Type) : Type :=
| Gremlin (g : G)
| NoOp
| Undefined.
Arguments Gremlin {G} g.
Arguments NoOp {G}.
Arguments Undefined {G}.

(** [length] of a JavaScript array as a number. *)
Definition number_of_nat (n : nat) : float :=
  PrimFloat.of_uint63 (Uint63.of_Z (Z.of_nat n)).

(** [getUniformDistribution]: empty for no gremlin, else [1 / length]
    pushed [length] times. *)
Definition getUniformDistribution {G} (gremlins : list G) : list float :=
  let length := List.length gremlins in
  match length with
  | O => []
  | _ => let value := (1 / number_of_nat length)%float in
         repeat value length
  end.

(** [distribution[i]]: reading past the end of a JavaScript array gives
    [undefined], and [chance += undefined] makes [chance] NaN. *)
Definition weight_at (distribution : list float) (i : nat) : float :=
  match distribution !! i with
  | Some w => w
  | None => nan
  end.

(** [gremlins[i]] *)
Definition gremlin_at {G} (gremlins : list G) (i : nat) : Picked G :=
  match gremlins !! i with
  | Some g => Gremlin g
  | None => Undefined
  end.

Section Pick.
Context {G : Type}.
Variable gremlins : list G.
Variable distribution : list float.
Variable random : float.

  (** The loop [for (i = 0, count = gremlins.length; i < count; i++)] of
      [pickGremlin], with [todo = count - i] iterations left. *)
Fixpoint pick_loop (todo i : nat) (chance : float) : Picked G :=
    match todo with
    | O => NoOp
    | S todo' =>
        let chance' := (chance + weight_at distribution i)%float in
        if (random <=? chance')%float then gremlin_at gremlins i
        else pick_loop todo' (S i) chance'
    end.

  (** [pickGremlin(gremlins, distribution)], the draw
      [config.randomizer.floating({ min: 0, max: 1 })] being [random]. *)
Definition pickGremlin : Picked G :=
    pick_loop (length gremlins) 0 0%float.

  (** The same loop, for the indexes at which it reads [distribution[i]],
      in order. *)
Fixpoint read_loop (todo i : nat) (chance : float) : list nat :=
    match todo with
    | O => []
    | S todo' =>
        let chance' := (chance + weight_at distribution i)%float in
        i :: (if (random <=? chance')%float then []
              else read_loop todo' (S i) chance')
    end.

Definition reads : list nat :=
    read_loop (length gremlins) 0 0%float.

End Pick.

End Distribution.

(** ** The service injector, [src/utils/inject.ts] *)

Module Inject.

Section Injector.
(** [V]: the services; [W]: whatever the accessors of the targets read and
    write. *)
Context {V W : Type}.

(** A function found under a service's name is called with no argument or
    with the service; only the truthiness of what it returns matters. *)
Definition Accessor : Type := option V -> W -> bool * W.

(** What [objects[i][name]] can be. *)
Inductive Member : Type :=
| Function (f : Accessor)
| Other.                     (* [typeof] is not ["function"] *)

(** A target: its members by name. *)
Definition Target : Type := gmap string Member.

Inductive Event : Type :=
| Probe (i : nat) (name : string) (truthy : bool)  (* [objects[i][name]()] and what it answered *)
| Install (i : nat) (name : string) (v : V).       (* [objects[i][name](services[name])] *)

(** The body of the inner loop, for target [i] and one service. *)
Definition inject_service (i : nat) (o : Target) (name : string) (v : V)
    (st : W * list Event) : W * list Event :=
  let '(w, evs) := st in
  match o !! name with
  | Some (Function f) =>
      let '(truthy, w) := f None w in
      if truthy then (w, evs ++ [Probe i name true])
      else
        let '(_, w) := f (Some v) w in
        (w, evs ++ [Probe i name false; Install i name v])
  | _ => st
  end.

(** [for (const name in services)]: the services in the order of the
    enumeration. *)
Fixpoint inject_target (i : nat) (o : Target) (services : list (string * V))
    (st : W * list Event) : W * list Event :=
  match services with
  | [] => st
  | (name, v) :: rest => inject_target i o rest (inject_service i o name v st)
  end.

(** [for (let i = 0, count = objects.length; i < count; i++)] *)
Fixpoint inject_from (i : nat) (services : list (string * V)) (objects : list Target)
    (st : W * list Event) : W * list Event :=
  match objects with
  | [] => st
  | o :: rest => inject_from (S i) services rest (inject_target i o services st)
  end.

(** [inject(services, objects)] *)
Definition inject (services : list (string * V)) (objects : list Target) (w : W)
  : W * list Event :=
  inject_from 0 services objects (w, []).

(** Which accessor an event is about. *)
Definition subject (e : Event) : nat * string :=
  match e with
  | Probe i name _ => (i, name)
  | Install i name _ => (i, name)
  end.

(** Every [Install] comes directly after the [Probe] of the same accessor
    that answered falsy; [prev] is the event before the list. *)
Fixpoint guarded (prev : option Event) (evs : list Event) : Prop :=
  match evs with
  | [] => True
  | Install i name v :: rest =>
      prev = Some (Probe i name false) /\ guarded (Some (Install i name v)) rest
  | e :: rest => guarded (Some e) rest
  end.

End Injector.

Arguments Accessor : clear implicits.
Arguments Member : clear implicits.
Arguments Target : clear implicits.
Arguments Event : clear implicits.

End Inject.

(** ** The run-to-completion machine

    JavaScript runs one task at a time: the call stack of the current task
    is emptied before the event loop takes the next function that was handed
    to [setTimeout].  No function of the orchestration core uses the value
    another one returns, so a call stack is here the list of the calls and
    statements still to be executed, innermost first.  Arrays are objects
    with an identity: they live in a store and are named by their location,
    so that two names of one array see each other's [push] and [shift]. *)

Module Engine.
Import Distribution.

(** Locations of the store. *)
Abbreviation loc := nat.

(** What the body of a function written by the user of the library does
    with the orchestration.  Such a function can only reach the continuation
    through the parameters it declares. *)
Inductive Action : Type :=
| Resume        (* calls its last declared parameter, e.g. [done()] *)
| ResumeLater.  (* hands its last declared parameter to [setTimeout] *)

(** A function written by the user: a gremlin, a mogwai, a before or after
    callback, a strategy of their own, a [done].  [u_length] is its
    [Function.length], the number of parameters it declares. *)
Inductive User : Type :=
| mkUser (name : string) (length : nat) (body : list Action) (cleanUp : option User).

Definition u_name (u : User) : string := let 'mkUser n _ _ _ := u in n.
Definition u_length (u : User) : nat := let 'mkUser _ l _ _ := u in l.
Definition u_body (u : User) : list Action := let 'mkUser _ _ b _ := u in b.
Definition u_cleanUp (u : User) : option User := let 'mkUser _ _ _ c := u in c.

(** Values.  Besides the data, one constructor per function expression of
    the sources, carrying the variables the closure captures. *)
Inductive Val : Type :=
| VUndefined                      (* [undefined] and [null] *)
| VParams (nb : option nat)       (* a params record; [None]: no [nb] field *)
| VArray (l : loc)
| VFun (u : User)
| VNoop                           (* [() => undefined] of pickGremlin *)
(* executeInSeries.ts: [() => iterator(callbacksCopy, args)] *)
| VNext (length : nat) (callbacksCopy args : loc) (done : Val)
(* the strategy function a factory returned, its [stop] and its [callDone] *)
| VStrategy (s : loc)
| VStop (s : loc)
| VCallDone (s : loc)
(* allTogether.ts: [() => setTimeout(() => executeNextWave(++i), config.delay)]
   and the function it hands to setTimeout; [i] is the variable at [c] *)
| VWaveDone (s : loc) (gremlins : Val) (nb : nat) (c : loc)
| VWaveTimer (s : loc) (gremlins : Val) (nb : nat) (c : loc)
(* bySpecies.ts: [executeNextGremlin], the continuation of [executeNext]
   and the function it hands to setTimeout *)
| VNextGremlin (s : loc) (gremlinsCopy : loc) (nb : nat)
| VSpeciesDone (s : loc) (gremlinsCopy : loc) (nb : nat) (gremlin : Val) (c : loc)
| VSpeciesTimer (s : loc) (gremlinsCopy : loc) (nb : nat) (gremlin : Val) (c : loc)
(* distribution.ts: the continuation of [executeNext] and the function it
   hands to setTimeout *)
| VDistDone (s : loc) (gremlinsCopy : loc) (distribution : list float) (nb : nat) (c : loc)
| VDistTimer (s : loc) (gremlinsCopy : loc) (distribution : list float) (nb : nat) (c : loc)
(* gremlinsHorde.ts, unleash: the three nested [function() { ... }] *)
| VAttack (params : Val) (afterCallbacks : loc) (done : Val)
| VTeardown (afterCallbacks : loc) (done : Val)
| VFinish (done : Val).

(** [typeof v === "function"] *)
Definition is_function (v : Val) : bool :=
  match v with
  | VUndefined | VParams _ | VArray _ => false
  | _ => true
  end.

(** [!v] *)
Definition falsy (v : Val) : bool :=
  match v with
  | VUndefined => true
  | _ => false
  end.

(** [f.length] of a function value: the three strategies declare
    [(gremlins, params, done)], every other closure of the sources declares
    no parameter. *)
Definition fn_length (v : Val) : nat :=
  match v with
  | VFun u => u_length u
  | VStrategy _ => 3
  | _ => 0
  end.

(** [typeof v.cleanUp === "function"]: only functions of the user carry a
    [cleanUp]. *)
Definition cleanUp_of (v : Val) : option Val :=
  match v with
  | VFun u => VFun <$> u_cleanUp u
  | _ => None
  end.

(** The last declared parameter of a user function, among the actual
    arguments [vs]. *)
Definition trailing (u : User) (vs : list Val) : Val :=
  match u_length u with
  | O => VUndefined
  | S n => default VUndefined (vs !! n)
  end.

Inductive Kind : Type := AllTogether | BySpecies | Distributed.

(** The variables of one strategy instance: its [config] and the two
    [let] of the factory. *)
Record Strategy : Type := mkStrategy {
  kind : Kind;
  delay : nat;
  nb : nat;
  distribution : list float;
  stopped : bool;            (* [undefined] before the first run is falsy *)
  doneCallback : Val
}.

(** The default [config] of the three factories. *)
Definition allTogether : Strategy := mkStrategy AllTogether 10 100 [] false VUndefined.
Definition bySpecies : Strategy := mkStrategy BySpecies 10 200 [] false VUndefined.
Definition distributionStrategy : Strategy := mkStrategy Distributed 10 1000 [] false VUndefined.

(** The horde: its five registries are arrays of the store. *)
Record Horde : Type := mkHorde {
  _gremlins : loc;
  _mogwais : loc;
  _strategies : loc;
  _beforeCallbacks : loc;
  _afterCallbacks : loc
}.

(** What a run lets one observe. *)
Inductive Event : Type :=
| ECall (name : string) (args : list Val)  (* a user function is entered *)
| EInject (targets : list Val)             (* [inject(services, targets)] *)
| EStep (s : loc) (i : nat)                (* strategy [s] hands wave or step [i] to the sequencer *)
| EStop (s : loc)                          (* [stop()] of strategy [s] is entered *)
| EThrow (msg : string).                   (* an exception nobody catches *)

(** The stack holds calls and the statements that follow a call. *)
Inductive Cmd : Type :=
| Call (f : Val) (args : list Val)         (* [f.apply(horde, args)] *)
| Act (u : User) (a : Action) (args : list Val)
| Iterate (length : nat) (callbacksCopy args : loc) (done : Val)
| SyncTest (callback : Val) (length : nat) (callbacksCopy args : loc) (done : Val)
| ClearDone (s : loc)                      (* [doneCallback = null] *)
| Unleash (params done : Val).

Record State : Type := mkState {
  stack : list Cmd;
  timers : list (nat * Val);     (* [setTimeout(f, delay)] not yet fired *)
  sched : list nat;              (* the event loop's next choices *)
  arrays : gmap loc (list Val);
  cells : gmap loc nat;          (* the counters [i] captured by closures *)
  strategies : gmap loc Strategy;
  next_loc : loc;
  draws : list float;            (* what the randomizer will answer *)
  horde : Horde;
  species : list User;           (* what the factories of [gremlins.species] return *)
  mogwais : list User;           (* what the factories of [gremlins.mogwais] return *)
  trace : list Event
}.

Definition with_stack (k : list Cmd) (st : State) : State :=
  mkState k (timers st) (sched st) (arrays st) (cells st) (strategies st)
    (next_loc st) (draws st) (horde st) (species st) (mogwais st) (trace st).
Definition with_timers (t : list (nat * Val)) (st : State) : State :=
  mkState (stack st) t (sched st) (arrays st) (cells st) (strategies st)
    (next_loc st) (draws st) (horde st) (species st) (mogwais st) (trace st).
Definition with_sched (s : list nat) (st : State) : State :=
  mkState (stack st) (timers st) s (arrays st) (cells st) (strategies st)
    (next_loc st) (draws st) (horde st) (species st) (mogwais st) (trace st).
Definition with_arrays (a : gmap loc (list Val)) (st : State) : State :=
  mkState (stack st) (timers st) (sched st) a (cells st) (strategies st)
    (next_loc st) (draws st) (horde st) (species st) (mogwais st) (trace st).
Definition with_cells (c : gmap loc nat) (st : State) : State :=
  mkState (stack st) (timers st) (sched st) (arrays st) c (strategies st)
    (next_loc st) (draws st) (horde st) (species st) (mogwais st) (trace st).
Definition with_strategies (s : gmap loc Strategy) (st : State) : State :=
  mkState (stack st) (timers st) (sched st) (arrays st) (cells st) s
    (next_loc st) (draws st) (horde st) (species st) (mogwais st) (trace st).
Definition with_next_loc (n : loc) (st : State) : State :=
  mkState (stack st) (timers st) (sched st) (arrays st) (cells st) (strategies st)
    n (draws st) (horde st) (species st) (mogwais st) (trace st).
Definition with_draws (d : list float) (st : State) : State :=
  mkState (stack st) (timers st) (sched st) (arrays st) (cells st) (strategies st)
    (next_loc st) d (horde st) (species st) (mogwais st) (trace st).
Definition with_trace (t : list Event) (st : State) : State :=
  mkState (stack st) (timers st) (sched st) (arrays st) (cells st) (strategies st)
    (next_loc st) (draws st) (horde st) (species st) (mogwais st) t.

(** *** Primitive operations *)

Definition push (c : Cmd) (st : State) : State := with_stack (c :: stack st) st.
Definition push_all (cs : list Cmd) (st : State) : State := with_stack (cs ++ stack st) st.
Definition emit (e : Event) (st : State) : State := with_trace (trace st ++ [e]) st.

(** An exception unwinds the whole stack of the task: the sources have no
    [try]. *)
Definition throw (msg : string) (st : State) : State :=
  with_stack [] (emit (EThrow msg) st).

(** [setTimeout(f, delay)] *)
Definition setTimeout (f : Val) (d : nat) (st : State) : State :=
  with_timers (timers st ++ [(d, f)]) st.

(** A new array, [[...]] or a literal. *)
Definition new_array (vs : list Val) (st : State) : loc * State :=
  let l := next_loc st in
  (l, with_next_loc (S l) (with_arrays (<[l := vs]> (arrays st)) st)).

Definition set_array (l : loc) (vs : list Val) (st : State) : State :=
  with_arrays (<[l := vs]> (arrays st)) st.

(** A new variable [i]. *)
Definition new_cell (i : nat) (st : State) : loc * State :=
  let l := next_loc st in
  (l, with_next_loc (S l) (with_cells (<[l := i]> (cells st)) st)).

(** A new strategy instance, as a factory returns it. *)
Definition new_strategy (s : Strategy) (st : State) : loc * State :=
  let l := next_loc st in
  (l, with_next_loc (S l) (with_strategies (<[l := s]> (strategies st)) st)).

(** The variables of the strategy instance [s]. *)
Definition config_of (s : loc) (st : State) : Strategy :=
  default allTogether (strategies st !! s).

Definition update_strategy (s : loc) (f : Strategy -> Strategy) (st : State) : State :=
  with_strategies (<[s := f (config_of s st)]> (strategies st)) st.

Definition set_stopped (b : bool) (x : Strategy) : Strategy :=
  mkStrategy (kind x) (delay x) (nb x) (distribution x) b (doneCallback x).
Definition set_doneCallback (d : Val) (x : Strategy) : Strategy :=
  mkStrategy (kind x) (delay x) (nb x) (distribution x) (stopped x) d.

(** *** executeInSeries.ts *)

(** [iterator(itCallbacks, subArgs)].  The test [!callback] guards the
    [undefined] that [shift] has in its type. *)
Definition iterator (length : nat) (itCallbacks subArgs : loc) (done : Val)
    (st : State) : State :=
  match arrays st !! itCallbacks with
  | Some [] => if is_function done then push (Call done []) st else st
  | Some (callback :: rest) =>
      let st := set_array itCallbacks rest st in
      if falsy callback then throw "Callback not found" st
      else
        match arrays st !! subArgs with
        | Some vs =>
            push_all [Call callback vs;
                      SyncTest callback length itCallbacks subArgs done] st
        | None => throw "TypeError" st
        end
  | None => throw "TypeError" st
  end.

(** [executeInSeries(callbacks, args, context, done)]; the context is
    always the horde. *)
Definition executeInSeries (callbacks : Val) (args : loc) (done : Val)
    (st : State) : State :=
  match callbacks, arrays st !! args with
  | VArray cl, Some vs =>
      match arrays st !! cl with
      | Some cbs =>
          let length := List.length vs in
          let '(callbacksCopy, st) := new_array cbs st in
          let st := set_array args (vs ++ [VNext length callbacksCopy args done]) st in
          push (Iterate length callbacksCopy args done) st
      | None => throw "TypeError" st
      end
  | _, _ => throw "TypeError" st
  end.

(** *** The strategies *)

(** [params && params.nb ? params.nb : config.nb] *)
Definition resolve_nb (params : Val) (config_nb : nat) : nat :=
  match params with
  | VParams (Some n) => if Nat.eqb n 0 then config_nb else n
  | _ => config_nb
  end.

(** [callDone()] *)
Definition callDone (s : loc) (st : State) : State :=
  let d := doneCallback (config_of s st) in
  if is_function d then push_all [Call d []; ClearDone s] st
  else push (ClearDone s) st.

(** [stop()] *)
Definition stop (s : loc) (st : State) : State :=
  let st := emit (EStop s) st in
  let st := update_strategy s (set_stopped true) st in
  setTimeout (VCallDone s) 4 st.

(** allTogether.ts, [executeNextWave(i)] *)
Definition executeNextWave (s : loc) (gremlins : Val) (nb i : nat)
    (st : State) : State :=
  if stopped (config_of s st) then st
  else if nb <=? i then callDone s st
  else
    let '(c, st) := new_cell i st in
    let '(args, st) := new_array [] st in
    executeInSeries gremlins args (VWaveDone s gremlins nb c) (emit (EStep s i) st).

(** allTogether.ts, [allTogetherStrategy(gremlins, params, done)] *)
Definition allTogetherStrategy (s : loc) (gremlins params done : Val)
    (st : State) : State :=
  let nb := resolve_nb params (nb (config_of s st)) in
  let st := update_strategy s (set_stopped false) st in
  let st := update_strategy s (set_doneCallback done) st in
  executeNextWave s gremlins nb 0 st.

(** bySpecies.ts, [executeNext(gremlin, i, callback)]; the callback is
    always [executeNextGremlin]. *)
Definition species_executeNext (s gremlinsCopy : loc) (nb : nat)
    (gremlin : Val) (i : nat) (st : State) : State :=
  if falsy gremlin || stopped (config_of s st) then st
  else if nb <=? i then push (Call (VNextGremlin s gremlinsCopy nb) []) st
  else
    let '(c, st) := new_cell i st in
    let '(one, st) := new_array [gremlin] st in
    let '(args, st) := new_array [] st in
    executeInSeries (VArray one) args (VSpeciesDone s gremlinsCopy nb gremlin c)
      (emit (EStep s i) st).

(** bySpecies.ts, [executeNextGremlin()] *)
Definition executeNextGremlin (s gremlinsCopy : loc) (nb : nat)
    (st : State) : State :=
  if stopped (config_of s st) then st
  else
    match arrays st !! gremlinsCopy with
    | Some [] => callDone s st
    | Some (g :: rest) =>
        species_executeNext s gremlinsCopy nb g 0 (set_array gremlinsCopy rest st)
    | None => throw "TypeError" st
    end.

(** bySpecies.ts, [bySpeciesStrategy(gremlins, params, done)] *)
Definition bySpeciesStrategy (s : loc) (gremlins params done : Val)
    (st : State) : State :=
  let nb := resolve_nb params (nb (config_of s st)) in
  match gremlins with
  | VArray gl =>
      match arrays st !! gl with
      | Some gs =>
          let '(gremlinsCopy, st) := new_array gs st in
          let st := update_strategy s (set_stopped false) st in
          let st := update_strategy s (set_doneCallback done) st in
          executeNextGremlin s gremlinsCopy nb st
      | None => throw "TypeError" st
      end
  | _ => throw "TypeError" st
  end.

(** distribution.ts, [pickGremlin(gremlins, distribution)]: one draw of the
    randomizer is consumed. *)
Definition val_of_picked (p : Picked Val) : Val :=
  match p with
  | Gremlin g => g
  | NoOp => VNoop
  | Undefined => VUndefined
  end.

Definition pick (gremlinsCopy : loc) (dist : list float) (st : State) : Val * State :=
  let random := default 0%float (head (draws st)) in
  let gs := default [] (arrays st !! gremlinsCopy) in
  (val_of_picked (pickGremlin gs dist random), with_draws (tail (draws st)) st).

(** distribution.ts, [executeNext(gremlin, i, callback)] *)
Definition dist_executeNext (s gremlinsCopy : loc) (dist : list float) (nb : nat)
    (gremlin : Val) (i : nat) (st : State) : State :=
  if stopped (config_of s st) then st
  else if nb <=? i then callDone s st
  else
    let '(c, st) := new_cell i st in
    let '(one, st) := new_array [gremlin] st in
    let '(args, st) := new_array [] st in
    executeInSeries (VArray one) args (VDistDone s gremlinsCopy dist nb c)
      (emit (EStep s i) st).

(** distribution.ts, [distributionStrategy(gremlins, params, done)] *)
Definition distributionRun (s : loc) (gremlins params done : Val)
    (st : State) : State :=
  let cfg := config_of s st in
  let nb := resolve_nb params (nb cfg) in
  match gremlins with
  | VArray gl =>
      match arrays st !! gl with
      | Some gs =>
          let '(gremlinsCopy, st) := new_array gs st in
          let dist :=
            match distribution cfg with
            | [] => getUniformDistribution gs
            | d => d
            end in
          if Nat.eqb nb 0 then push (Call done []) st
          else
            let st := update_strategy s (set_stopped false) st in
            let st := update_strategy s (set_doneCallback done) st in
            let '(g, st) := pick gremlinsCopy dist st in
            dist_executeNext s gremlinsCopy dist nb g 0 st
      | None => throw "TypeError" st
      end
  | _ => throw "TypeError" st
  end.

(** [++i] on the captured variable. *)
Definition incr (c : loc) (st : State) : nat * State :=
  let i := S (default 0 (cells st !! c)) in
  (i, with_cells (<[c := i]> (cells st)) st).

(** *** gremlinsHorde.ts *)

(** [array.push(v)] *)
Definition array_push (l : loc) (vs : list Val) (st : State) : State :=
  set_array l (default [] (arrays st !! l) ++ vs) st.

Definition read (l : loc) (st : State) : list Val := default [] (arrays st !! l).

(** [allGremlins()]: every factory of [gremlins.species] is called and
    what it returns is registered. *)
Definition allGremlins (st : State) : State :=
  array_push (_gremlins (horde st)) (VFun <$> species st) st.

(** [allMogwais()] *)
Definition allMogwais (st : State) : State :=
  array_push (_mogwais (horde st)) (VFun <$> mogwais st) st.

(** [strategy(strategy)] *)
Definition strategy (v : Val) (st : State) : State :=
  array_push (_strategies (horde st)) [v] st.

(** The three defaults at the head of [unleash]. *)
Definition defaults (st : State) : State :=
  (* if (this._gremlins.length === 0) this.allGremlins(); *)
  let st := match read (_gremlins (horde st)) st with
            | [] => allGremlins st
            | _ => st
            end in
  (* if (this._mogwais.length === 0) this.allMogwais(); *)
  let st := match read (_mogwais (horde st)) st with
            | [] => allMogwais st
            | _ => st
            end in
  (* if (this._strategies.length === 0)
       this.strategy(gremlins.strategies.distribution()); *)
  match read (_strategies (horde st)) st with
  | [] => strategy (VStrategy (new_strategy distributionStrategy st).1)
            (new_strategy distributionStrategy st).2
  | _ => st
  end.

(** The loop of [unleash] over [gremlinsAndMogwais]: the [cleanUp] of
    those that have one. *)
Definition cleanUps (gremlinsAndMogwais : list Val) : list Val :=
  omap cleanUp_of gremlinsAndMogwais.

(** What [unleash] hands to [inject]. *)
Definition allCallbacks (st : State) : list Val :=
  let h := horde st in
  (read (_gremlins h) st ++ read (_mogwais h) st) ++ read (_strategies h) st
    ++ read (_beforeCallbacks h) st ++ read (_afterCallbacks h) st.

(** [inject(services, objects)] reads [objects[i][name]] of every object
    for every service, which throws for an object that is [undefined] or
    [null].  It calls no accessor here: a [User] has no member but
    [cleanUp], the strategies of [allTogether] and [bySpecies] have no
    accessor for a service, and the randomizer of [distribution] is set,
    so that its accessor answers truthy. *)
Definition injects (objects : list Val) : bool :=
  forallb (fun v => negb (falsy v)) objects.

(** From the registries to the three phases, when [inject] has returned:
    [afterCallbacks] is the registry itself, [beforeCallbacks] is a new
    array.  No entry is [undefined] or [null] then, so that the read of
    [cleanUp] does not throw. *)
Definition phases (st : State) : loc * State :=
  let h := horde st in
  let gremlinsAndMogwais := read (_gremlins h) st ++ read (_mogwais h) st in
  (* const beforeCallbacks = [...this._beforeCallbacks, ...this._mogwais]; *)
  let before := new_array (read (_beforeCallbacks h) st ++ read (_mogwais h) st) st in
  (* const afterCallbacks = this._afterCallbacks; ... afterCallbacks.push(cleanUp) *)
  (before.1, array_push (_afterCallbacks h) (cleanUps gremlinsAndMogwais) before.2).

(** [unleash(params, done)] up to its call of the sequencer. *)
Definition unleash (params done : Val) (st : State) : State :=
  let filled := defaults st in
  let objects := allCallbacks filled in
  let injected := emit (EInject objects) filled in
  if injects objects then
    let ready := phases injected in
    let args := new_array [] ready.2 in
    executeInSeries (VArray ready.1) args.1
      (VAttack params (_afterCallbacks (horde st)) done) args.2
  else throw "TypeError" injected.

(** *** Calls *)

(** [arguments[n]] *)
Definition arg (vs : list Val) (n : nat) : Val := nth n vs VUndefined.

(** [f.apply(horde, vs)] *)
Definition call (f : Val) (vs : list Val) (st : State) : State :=
  match f with
  | VUndefined | VParams _ | VArray _ => throw "TypeError" st
  | VFun u => push_all (map (fun a => Act u a vs) (u_body u)) (emit (ECall (u_name u) vs) st)
  | VNoop => st
  | VNext length callbacksCopy args done => push (Iterate length callbacksCopy args done) st
  | VStrategy s =>
      match kind (config_of s st) with
      | AllTogether => allTogetherStrategy s (arg vs 0) (arg vs 1) (arg vs 2) st
      | BySpecies => bySpeciesStrategy s (arg vs 0) (arg vs 1) (arg vs 2) st
      | Distributed => distributionRun s (arg vs 0) (arg vs 1) (arg vs 2) st
      end
  | VStop s => stop s st
  | VCallDone s => callDone s st
  | VWaveDone s g nb c => setTimeout (VWaveTimer s g nb c) (delay (config_of s st)) st
  | VWaveTimer s g nb c => let '(i, st) := incr c st in executeNextWave s g nb i st
  | VNextGremlin s gc nb => executeNextGremlin s gc nb st
  | VSpeciesDone s gc nb g c => setTimeout (VSpeciesTimer s gc nb g c) (delay (config_of s st)) st
  | VSpeciesTimer s gc nb g c => let '(i, st) := incr c st in species_executeNext s gc nb g i st
  | VDistDone s gc d nb c => setTimeout (VDistTimer s gc d nb c) (delay (config_of s st)) st
  | VDistTimer s gc d nb c =>
      let '(g, st) := pick gc d st in
      let '(i, st) := incr c st in
      dist_executeNext s gc d nb g i st
  | VAttack params afterCallbacks done =>
      let h := horde st in
      let '(args, st) := new_array [VArray (_gremlins h); params] st in
      executeInSeries (VArray (_strategies h)) args (VTeardown afterCallbacks done) st
  | VTeardown afterCallbacks done =>
      let '(args, st) := new_array [] st in
      executeInSeries (VArray afterCallbacks) args (VFinish done) st
  | VFinish done => if is_function done then push (Call done []) st else st
  end.

(** One statement of the stack. *)
Definition exec (c : Cmd) (st : State) : State :=
  match c with
  | Call f vs => call f vs st
  | Act u Resume vs => push (Call (trailing u vs) []) st
  | Act u ResumeLater vs => setTimeout (trailing u vs) 0 st
  | Iterate length callbacksCopy args done => iterator length callbacksCopy args done st
  | SyncTest callback length callbacksCopy args done =>
      if Nat.eqb (fn_length callback) length
      then push (Iterate length callbacksCopy args done) st
      else st
  | ClearDone s => update_strategy s (set_doneCallback VUndefined) st
  | Unleash params done => unleash params done st
  end.

(** The event loop takes one of the pending timers: the one the schedule
    names, the oldest when the schedule is exhausted. *)
Definition dispatch (st : State) : State :=
  let k := match sched st with
           | [] => 0
           | n :: _ => n mod List.length (timers st)
           end in
  match timers st !! k with
  | Some (_, f) =>
      with_stack [Call f []] (with_timers (delete k (timers st)) (with_sched (tail (sched st)) st))
  | None => st
  end.

Definition step (st : State) : option State :=
  match stack st with
  | c :: k => Some (exec c (with_stack k st))
  | [] =>
      match timers st with
      | [] => None
      | _ => Some (dispatch st)
      end
  end.

Fixpoint run (fuel : nat) (st : State) : State :=
  match fuel with
  | O => st
  | S fuel' =>
      match step st with
      | Some st' => run fuel' st'
      | None => st
      end
  end.

(** Nothing left to do: the stack is empty and no timer is pending. *)
Definition final (st : State) : Prop := step st = None.

Definition reaches (st st' : State) : Prop := exists n, run n st = st'.

(** The state before anything runs: a horde with five empty registries at
    the locations 0 to 4. *)
Definition initial (sp mg : list User) (rnd : list float) (sch : list nat) : State :=
  mkState [] [] sch
    (list_to_map [(0, []); (1, []); (2, []); (3, []); (4, [])]) ∅ ∅ 5 rnd
    (mkHorde 0 1 2 3 4) sp mg [].

(** The part of a run inside one task: the stack is emptied, no timer is
    taken. *)
Fixpoint drain (fuel : nat) (st : State) : State :=
  match fuel with
  | O => st
  | S fuel' =>
      match stack st with
      | c :: k => drain fuel' (exec c (with_stack k st))
      | [] => st
      end
  end.

(** A function that declares no parameter and has no [cleanUp]. *)
Definition plain (name : string) : User := mkUser name 0 [] None.

(** Catalogs for the examples.  What the factories of the catalogs return
    is a parameter of the state, its [species] and [mogwais].  Here: a
    species that returns and one that declares [done] and calls it from a
    timer, and a mogwai with a [cleanUp]. *)
Definition example_species : list User :=
  [plain "quick"; mkUser "slow" 1 [ResumeLater] None].

Definition example_mogwais : list User :=
  [mkUser "watch" 0 [] (Some (plain "watch.cleanUp"))].

(** The waves or steps strategy [s] handed to the sequencer, in order. *)
Definition steps (s : loc) (t : list Event) : list nat :=
  omap (fun e => match e with
                 | EStep s' i => if Nat.eqb s' s then Some i else None
                 | _ => None
                 end) t.

(** The gremlins the distribution strategy picks with its next [j] draws. *)
Fixpoint drawn (gremlins : list Val) (dist : list float) (ds : list float) (j : nat)
  : list Val :=
  match j with
  | O => []
  | S j' =>
      val_of_picked (pickGremlin gremlins dist (default 0%float (head ds)))
        :: drawn gremlins dist (tail ds) j'
  end.

(** The names of the user functions among some values. *)
Definition names_of (vs : list Val) : list string :=
  omap (fun v => match v with VFun u => Some (u_name u) | _ => None end) vs.

(** [stop()] of strategy [s] is entered. *)
Definition is_stop (s : loc) (e : Event) : bool :=
  match e with
  | EStop s' => Nat.eqb s' s
  | _ => false
  end.

(** What follows the first [stop()] of strategy [s]. *)
Fixpoint after_stop (s : loc) (t : list Event) : list Event :=
  match t with
  | [] => []
  | e :: t' => if is_stop s e then t' else after_stop s t'
  end.

(** How often [stop()] of strategy [s] was entered. *)
Definition stops (s : loc) (t : list Event) : nat :=
  length (List.filter (is_stop s) t).

(** How often the function [name] was entered with no argument, as a
    completion callback is. *)
Definition is_done (name : string) (e : Event) : bool :=
  match e with
  | ECall n [] => bool_decide (n = name)
  | _ => false
  end.

Definition dones (name : string) (t : list Event) : nat :=
  length (List.filter (is_done name) t).

(** The names of the user functions entered, in order. *)
Definition calls (t : list Event) : list string :=
  omap (fun e => match e with ECall n _ => Some n | _ => None end) t.

End Engine.

(** ** The clicker gremlin, [src/species/clicker.ts] *)

Module Clicker.

Section Gremlin.
(** The elements of the document, the coordinates of a point, and
    [document.elementFromPoint], which answers [null] where there is no
    element. *)
Context {Element Coord : Type}.
Variable elementFromPoint : Coord -> Coord -> option Element.

(** The [config] of the factory.  [positionSelector] is called once per
    try: [positionSelector k] is what call number [k] of one run of the
    gremlin answers.  Of [showAction] and [logger] the gremlin tests
    whether there is a function to call. *)
Record Config : Type := mkConfig {
  clickTypes : list string;
  randomizer : option (list string -> string);   (* its [pick] *)
  positionSelector : nat -> Coord * Coord;
  showAction : bool;
  canClick : Element -> bool;
  maxNbTries : nat;
  logger : bool
}.

(** What the gremlin does to the page and to the log. *)
Inductive Effect : Type :=
| Dispatch (target : Element) (clickType : string) (posX posY : Coord)
| Show (posX posY : Coord) (clickType : string)
| Log (clickType : string) (posX posY : Coord).

Inductive Result : Type :=
| Throws (exception : string)
| Returns (value : option bool).    (* [None]: [undefined] *)

Record Outcome : Type := mkOutcome {
  result : Result;
  effects : list Effect;
  asked : nat                        (* calls of [positionSelector] *)
}.

(** The [do ... while] loop, entered with [nbTries] tries made. *)
Inductive Sought : Type :=
| Found (posX posY : Coord) (targetElement : Element) (nbTries : nat)
| GaveUp (nbTries : nat)
| Unfinished.

Fixpoint seek (config : Config) (fuel nbTries : nat) : Sought :=
  match fuel with
  | O => Unfinished
  | S fuel' =>
      let position := positionSelector config nbTries in
      let posX := position.1 in
      let posY := position.2 in
      let targetElement := elementFromPoint posX posY in
      let nbTries := S nbTries in
      if maxNbTries config <? nbTries then GaveUp nbTries
      else
        match targetElement with
        | Some el =>
            if canClick config el then Found posX posY el nbTries
            else seek config fuel' nbTries
        | None => seek config fuel' nbTries
        end
  end.

(** [clickerGremlin()]; the loop is left after [maxNbTries + 1] tries at
    the latest. *)
Definition clickerGremlin (config : Config) : option Outcome :=
  match randomizer config with
  | None => Some (mkOutcome (Throws "RandomizerRequiredException") [] 0)
  | Some pick =>
      match seek config (S (maxNbTries config)) 0 with
      | Unfinished => None
      | GaveUp nbTries => Some (mkOutcome (Returns (Some false)) [] nbTries)
      | Found posX posY targetElement nbTries =>
          let clickType := pick (clickTypes config) in
          Some (mkOutcome (Returns None)
                  ([Dispatch targetElement clickType posX posY]
                     ++ (if showAction config then [Show posX posY clickType] else [])
                     ++ (if logger config then [Log clickType posX posY] else []))
                  nbTries)
      end
  end.

(** The point of try number [k] holds an element that can be clicked. *)
Definition clickable (config : Config) (k : nat) : option Element :=
  let position := positionSelector config k in
  match elementFromPoint position.1 position.2 with
  | Some el => if canClick config el then Some el else None
  | None => None
  end.

End Gremlin.

Arguments Config : clear implicits.
Arguments Effect : clear implicits.
Arguments Outcome : clear implicits.
Arguments Sought : clear implicits.

End Clicker.

(** ** The gizmo mogwai, [src/mogwais/gizmo.ts] *)

Module Gizmo.

(** What [window.onerror] and [console.error] can hold: nothing, a function
    of the page or of the browser, or a function the mogwai made in its run
    number [run] (each run of [gizmoMogwai] makes two, around the counter
    [nbErrors] of this run). *)
Inductive Handler : Type :=
| Nothing                          (* [null] or [undefined] *)
| Native (name : string)
| OnErrorOf (run : nat)            (* [function(message, url, linenumber) { ... }] *)
| ConsoleErrorOf (run : nat)       (* [(...args) => { ... }] *)
| Bound (h : Handler).             (* [h.bind(console)] *)

Inductive Event : Type :=
| Stop                             (* [horde.stop()] *)
| WarnLater                        (* [window.setTimeout(function() { config.logger.warn(...) }, 4)] *)
| Entered (name : string)          (* a function of the page or of the browser is called *)
| TypeError.                       (* a call of what is no function *)

(** [config], the two variables of the factory, the counters of the runs,
    and the two properties of the page the mogwai writes to. *)
Record World : Type := mkWorld {
  maxErrors : nat;
  logger : bool;                   (* [config.logger] is truthy *)
  realOnError : Handler;
  realLoggerError : Handler;
  nbErrors : list nat;             (* [nbErrors] of run 0, 1, ... *)
  onerror : Handler;               (* [window.onerror] *)
  console_error : Handler;         (* [console.error] *)
  events : list Event
}.

Definition emit (e : Event) (w : World) : World :=
  mkWorld (maxErrors w) (logger w) (realOnError w) (realLoggerError w) (nbErrors w)
    (onerror w) (console_error w) (events w ++ [e]).

(** [incrementNbErrors()] of run [run] *)
Definition incrementNbErrors (run : nat) (w : World) : World :=
  let n := S (default 0 (nbErrors w !! run)) in
  let w := mkWorld (maxErrors w) (logger w) (realOnError w) (realLoggerError w)
             (<[run := n]> (nbErrors w)) (onerror w) (console_error w) (events w) in
  if maxErrors w <=? n then
    let w := emit Stop w in
    if logger w then emit WarnLater w else w
  else w.

(** A call of [h]; the functions of the mogwai call what the variables of
    the factory hold when they are called.  [fuel] bounds the depth of the
    calls. *)
Fixpoint call (fuel : nat) (h : Handler) (w : World) : option World :=
  match fuel with
  | O => None
  | S fuel' =>
      match h with
      | Nothing => Some (emit TypeError w)
      | Native name => Some (emit (Entered name) w)
      | OnErrorOf run =>
          let w := incrementNbErrors run w in
          (* [return realOnError ? realOnError(message, url, linenumber) : false] *)
          match realOnError w with
          | Nothing => Some w
          | h' => call fuel' h' w
          end
      | ConsoleErrorOf run =>
          let w := incrementNbErrors run w in
          (* [realLoggerError.call(console, ...args)] *)
          call fuel' (realLoggerError w) w
      | Bound h' => call fuel' h' w
      end
  end.

(** [gizmoMogwai()] *)
Definition gizmoMogwai (w : World) : World :=
  let run := length (nbErrors w) in
  mkWorld (maxErrors w) (logger w)
    (onerror w)                     (* [realOnError = window.onerror] *)
    (console_error w)               (* [realLoggerError = console.error] *)
    (nbErrors w ++ [0])             (* [let nbErrors = 0] *)
    (OnErrorOf run) (ConsoleErrorOf run) (events w).

(** [gizmoMogwai.cleanUp()]; [bind] of what is no function throws. *)
Definition cleanUp (w : World) : World :=
  (* [window.onerror = realOnError] *)
  let w := mkWorld (maxErrors w) (logger w) (realOnError w) (realLoggerError w) (nbErrors w)
             (realOnError w) (console_error w) (events w) in
  (* [console.error = realLoggerError.bind(console)] *)
  match realLoggerError w with
  | Nothing => emit TypeError w
  | h => mkWorld (maxErrors w) (logger w) (realOnError w) (realLoggerError w) (nbErrors w)
           (onerror w) (Bound h) (events w)
  end.

(** An error of the page: the browser calls [window.onerror] when it holds
    a function, or the page calls [console.error]. *)
Inductive Report : Type := Uncaught | Logged.

Definition report (fuel : nat) (r : Report) (w : World) : option World :=
  match r with
  | Uncaught =>
      match onerror w with
      | Nothing => Some w
      | h => call fuel h w
      end
  | Logged => call fuel (console_error w) w
  end.

Fixpoint reports (fuel : nat) (rs : list Report) (w : World) : option World :=
  match rs with
  | [] => Some w
  | r :: rest =>
      match report fuel r w with
      | Some w' => reports fuel rest w'
      | None => None
      end
  end.

(** How often the horde was asked to stop. *)
Definition stops (w : World) : nat :=
  length (List.filter (fun e => match e with Stop => true | _ => false end) (events w)).

(** The functions of the page and of the browser that were called, in
    order. *)
Definition entered (w : World) : list string :=
  omap (fun e => match e with Entered name => Some name | _ => None end) (events w).

End Gizmo.

(** ** The toucher gremlin, [toucher()] *)

Module Toucher.

(** The numbers that count (a duration in milliseconds, the loops of a
    gesture, the points of a touch) are integers; [num] is the number a
    computation on coordinates sees. *)
Definition num (z : Z) : float :=
  match z with
  | Z0 => 0%float
  | Zpos _ => PrimFloat.of_uint63 (Uint63.of_Z z)
  | Zneg p => (- PrimFloat.of_uint63 (Uint63.of_Z (Zpos p)))%float
  end.

(** A number used as a condition *)
Definition truthy (n : float) : bool :=
  negb (PrimFloat.eqb n 0) && negb (PrimFloat.is_nan n).

Record Touch : Type := mkTouch { x : float; y : float }.

(** A property that is left out of a [Gesture] is [None]. *)
Record Gesture : Type := mkGesture {
  distanceX : option float;
  distanceY : option float;
  duration : Z;
  radius : option float;
  rotation : option float;
  scale : option float
}.

(** [Math.ceil(duration / interval)] with [interval = 10], and the number
    it is in a computation: [-0] for a duration between [-10] and [0]. *)
Definition interval : Z := 10.

Definition ceil_loops (duration : Z) : Z := (duration + (interval - 1)) / interval.

Definition num_loops (duration : Z) : float :=
  if ((- interval <? duration) && (duration <? 0))%Z then (-0)%float
  else num (ceil_loops duration).

Section Page.
(** The elements of the document, [Math.cos], [Math.sin], [Math.round],
    [Math.PI], [document.elementFromPoint], and [clientWidth] and
    [clientHeight] of [document.documentElement]. *)
Context {Element : Type}.
Variables cos sin round : float -> float.
Variable PI : float.
Variable elementFromPoint : float -> float -> option Element.
Variables clientWidth clientHeight : Z.
(** What [Object.prototype] holds under a name: [None] if nothing,
    otherwise whether a call of it returns. *)
Variable inherited : string -> option bool.

(** [getTouches([cx, cy], points, radius = 100, maybeDegrees)] *)
Definition getTouches (center : float * float) (points : Z) (radius : option float)
    (maybeDegrees : option float) : list Touch :=
  let cx := center.1 in
  let cy := center.2 in
  let radius := default 100%float radius in
  if (points =? 1)%Z then [mkTouch cx cy]
  else
    let degrees :=
      match maybeDegrees with
      | Some d => if truthy d then (d * PI / 180)%float else 0%float
      | None => 0%float
      end in
    let slice := (2 * PI / num points)%float in
    (fun i : nat =>
       let angle := (slice * num (Z.of_nat i) + degrees)%float in
       mkTouch (cx + radius * cos angle)%float (cy + radius * sin angle)%float)
      <$> seq 0 (Z.to_nat points).

(** The randomizer is an object that is given to the gremlin: call number
    [n] made to it answers [integer n min max] for
    [integer({ min, max })], and so on, or throws ([None]).  [natural] is
    also called with no [min]. *)
Record Randomizer : Type := mkRandomizer {
  integer : nat -> Z -> Z -> option Z;
  natural : nat -> option Z -> Z -> option Z;
  floating : nat -> Z -> Z -> option float;
  pick : nat -> list string -> option string
}.

(** [config.positionSelector]: [defaultPositionSelector] of the factory,
    or a function of the page; call number [k] that one run of the gremlin
    makes to it answers [f k], and it is taken to return and not to call
    the randomizer of the gremlin. *)
Inductive Selector : Type :=
| DefaultPositionSelector
| OfThePage (f : nat -> float * float).

(** [config].  Of [showAction] and [logger] the gremlin tests whether
    there is a function to call. *)
Record Config : Type := mkConfig {
  touchTypes : list string;
  positionSelector : Selector;
  showAction : bool;
  canTouch : Element -> bool;
  logger : bool;
  maxNbTries : nat;
  maxTouches : Z;
  randomizer : option Randomizer
}.

Inductive Kind : Type := touchstart | touchend | touchmove.

(** An entry of the [touchlist] of an event *)
Record TouchItem : Type := mkTouchItem {
  pageX : float; pageY : float;
  clientX : float; clientY : float;
  screenX : float; screenY : float;
  target : Element;
  identifier : nat
}.

Inductive Exception : Type :=
| RandomizerRequiredException
| InvalidTouchType (touchType : string)
| NotAFunction                     (* [config.showAction] is called and is no function *)
| OfTheRandomizer.                 (* a call to the randomizer throws *)

Inductive Event : Type :=
| Dispatch (type : Kind) (element : Element) (touches targetTouches changedTouches : list TouchItem)
| ShowAction (touches : list Touch)
| Log (touchType : string) (posX posY : float) (details : Gesture)
| Done
| Inherited (touchType : string)   (* a member of [Object.prototype] is called *)
| Throw (exception : Exception).

(** The functions given as [done] to a touch type: [logGremlin] of a run
    of the gremlin ([done] says whether the gremlin was given a callback),
    and the function [doubletap] gives to its first [tap]. *)
Inductive Callback : Type :=
| LogGremlin (touchType : string) (posX posY : float) (done : bool)
| TapAgain (position : float * float) (element : Element) (done : Callback).

(** The functions given to [setTimeout] *)
Inductive Task : Type :=
| TapEnd (touches : list Touch) (element : Element) (gesture : Gesture) (done : Callback)
| SecondTap (position : float * float) (element : Element) (done : Callback)
| GestureLoop (element : Element) (startPos : float * float) (startTouches : list Touch)
    (gesture : Gesture) (done : Callback) (loop : Z).

(** What was dispatched and logged, the calls made to the randomizer, the
    clock and the timers, each with the time it is due. *)
Record World : Type := mkWorld {
  events : list Event;
  drawn : nat;
  now : Z;
  timers : list (Z * Task)
}.

Inductive Res : Type :=
| Returned (w : World)
| Thrown (w : World).

Definition outcome (r : Res) : World :=
  match r with Returned w | Thrown w => w end.

Definition andThen (r : Res) (f : World -> Res) : Res :=
  match r with Returned w => f w | Thrown w => Thrown w end.

Definition emit (e : Event) (w : World) : World :=
  mkWorld (events w ++ [e]) (drawn w) (now w) (timers w).

(** A delay below zero counts as zero. *)
Definition setTimeout (task : Task) (delay : Z) (w : World) : World :=
  mkWorld (events w) (drawn w) (now w) (timers w ++ [((now w + Z.max 0 delay)%Z, task)]).

Variable config : Config.

(** What a call that can throw gives *)
Inductive Got (A : Type) : Type :=
| Value (a : A) (w : World)
| Raised (w : World).
Arguments Value {A} a w.
Arguments Raised {A} w.

Definition bind {A : Type} (g : Got A) (next : A -> World -> Res) : Res :=
  match g with
  | Value a w => next a w
  | Raised w => Thrown w
  end.

(** [config.randomizer ? config.randomizer.f(...) : otherwise] *)
Definition draw {A : Type} (f : Randomizer -> nat -> option A) (otherwise : A) (w : World) : Got A :=
  match randomizer config with
  | Some r =>
      let w' := mkWorld (events w) (S (drawn w)) (now w) (timers w) in
      match f r (drawn w) with
      | Some a => Value a w'
      | None => Raised (emit (Throw OfTheRandomizer) w')
      end
  | None => Value otherwise w
  end.

Definition touchlist (touches : list Touch) (element : Element) : list TouchItem :=
  imap (fun i touch =>
          let x := round (x touch) in
          let y := round (y touch) in
          mkTouchItem x y x y x y element i) touches.

(** [triggerTouch(touches, element, type)] *)
Definition triggerTouch (touches : list Touch) (element : Element) (type : Kind) (w : World) : Res :=
  let touchlist := touchlist touches element in
  let shown := match type with touchend => [] | _ => touchlist end in
  let w := emit (Dispatch type element shown shown touchlist) w in
  if showAction config then Returned (emit (ShowAction touches) w)
  else Thrown (emit (Throw NotAFunction) w).

(** [logGremlin(touches, details)] *)
Definition logGremlin (touchType : string) (posX posY : float) (done : bool)
    (touches : list Touch) (details : Gesture) (w : World) : World :=
  let w := if showAction config then emit (ShowAction touches) w else w in
  let w := if logger config then emit (Log touchType posX posY details) w else w in
  if done then emit Done w else w.

(** A call [done(touches, gesture)] *)
Definition invoke (done : Callback) (touches : list Touch) (gesture : Gesture) (w : World) : World :=
  match done with
  | LogGremlin touchType posX posY done => logGremlin touchType posX posY done touches gesture w
  | TapAgain position element done => setTimeout (SecondTap position element done) 30 w
  end.

(** One call of [gestureLoop()], the variable [loop] holding [loop];
    [done(touches)] of [triggerGesture] is [done(touches, gesture)] of the
    touch type. *)
Definition gestureLoop (element : Element) (startPos : float * float) (startTouches : list Touch)
    (gesture : Gesture) (done : Callback) (loop : Z) (w : World) : Res :=
  let loops := ceil_loops (duration gesture) in
  let nloops := num_loops (duration gesture) in
  let radius := default 0%float (radius gesture) in
  let scale := default 0%float (scale gesture) in
  let distanceX := default 0%float (distanceX gesture) in
  let distanceY := default 0%float (distanceY gesture) in
  let rotation := rotation gesture in
  let radius :=
    if negb (PrimFloat.eqb scale 1) then (radius - radius * (1 - scale) * ((1 / nloops) * num loop))%float
    else radius in
  let posX := (startPos.1 + (distanceX / nloops) * num loop)%float in
  let posY := (startPos.2 + (distanceY / nloops) * num loop)%float in
  let rotation :=
    match rotation with
    | Some rotation => Some ((rotation / nloops) * num loop)%float
    | None => None
    end in
  let touches := getTouches (posX, posY) (Z.of_nat (length startTouches)) (Some radius) rotation in
  let again (w : World) :=
    Returned (setTimeout (GestureLoop element startPos startTouches gesture done (loop + 1)) interval w) in
  if (loop =? 1)%Z then andThen (triggerTouch touches element touchstart w) again
  else if (loop =? loops)%Z then
    andThen (triggerTouch touches element touchend w)
      (fun w => Returned (invoke done touches gesture w))
  else andThen (triggerTouch touches element touchmove w) again.

(** [triggerGesture(element, startPos, startTouches, gesture, done)] *)
Definition triggerGesture (element : Element) (startPos : float * float) (startTouches : list Touch)
    (gesture : Gesture) (done : Callback) (w : World) : Res :=
  gestureLoop element startPos startTouches gesture done 1 w.

(** The touch types *)
Definition tap (position : float * float) (element : Element) (done : Callback) (w : World) : Res :=
  let touches := getTouches position 1 None None in
  bind (draw (fun r n => integer r n 20 700) 0%Z w) (fun d w =>
  let gesture := mkGesture None None d None None None in
  andThen (triggerTouch touches element touchstart w)
    (fun w => Returned (setTimeout (TapEnd touches element gesture done) (duration gesture) w))).

Definition doubletap (position : float * float) (element : Element) (done : Callback) (w : World) : Res :=
  tap position element (TapAgain position element done) w.

Definition gesture (position : float * float) (element : Element) (done : Callback) (w : World) : Res :=
  bind (draw (fun r n => integer r n (-100) 200) 0%Z w) (fun dx w =>
  bind (draw (fun r n => integer r n (-100) 200) 0%Z w) (fun dy w =>
  bind (draw (fun r n => integer r n 20 500) 0%Z w) (fun d w =>
  let gesture := mkGesture (Some (num dx)) (Some (num dy)) d None None None in
  let touches := getTouches position 1 (radius gesture) None in
  triggerGesture element position touches gesture done w))).

Definition multitouch (position : float * float) (element : Element) (done : Callback) (w : World) : Res :=
  bind (draw (fun r n => integer r n 2 (maxTouches config)) 0%Z w) (fun points w =>
  bind (draw (fun r n => floating r n 0 2) 0%float w) (fun s w =>
  bind (draw (fun r n => natural r n (Some (-100)%Z) 100) 0%Z w) (fun rot w =>
  bind (draw (fun r n => integer r n 50 200) 0%Z w) (fun rad w =>
  bind (draw (fun r n => integer r n (-20) 20) 0%Z w) (fun dx w =>
  bind (draw (fun r n => integer r n (-20) 20) 0%Z w) (fun dy w =>
  bind (draw (fun r n => integer r n 100 1500) 0%Z w) (fun d w =>
  let gesture :=
    mkGesture (Some (num dx)) (Some (num dy)) d (Some (num rad)) (Some (num rot)) (Some s) in
  let touches := getTouches position points (radius gesture) None in
  triggerGesture element position touches gesture done w))))))).

(** [defaultPositionSelector()] *)
Definition defaultPositionSelector (w : World) : Got (float * float) :=
  match randomizer config with
  | None => Value (0%float, 0%float) w
  | Some _ =>
      match draw (fun r n => natural r n None (clientWidth - 1)) 0%Z w with
      | Value x w =>
          match draw (fun r n => natural r n None (clientHeight - 1)) 0%Z w with
          | Value y w => Value (num x, num y) w
          | Raised w => Raised w
          end
      | Raised w => Raised w
      end
  end.

(** [config.positionSelector()], called for the [k]th time in this run *)
Definition select (k : nat) (w : World) : Got (float * float) :=
  match positionSelector config with
  | DefaultPositionSelector => defaultPositionSelector w
  | OfThePage f => Value (f k) w
  end.

(** The [do ... while] loop of the gremlin, entered with [nbTries] tries
    made; [found] is what follows the loop, and [fuel] bounds its turns. *)
Fixpoint seek (found : float -> float -> Element -> World -> Res) (fuel nbTries : nat)
    (w : World) : option Res :=
  match fuel with
  | O => None
  | S fuel' =>
      match select nbTries w with
      | Raised w => Some (Thrown w)
      | Value position w =>
          let posX := position.1 in
          let posY := position.2 in
          let targetElement := elementFromPoint posX posY in
          let nbTries := S nbTries in
          if maxNbTries config <? nbTries then Some (Returned w)
          else
            match targetElement with
            | Some el =>
                if canTouch config el then Some (found posX posY el w)
                else seek found fuel' nbTries w
            | None => seek found fuel' nbTries w
            end
      end
  end.

(** What follows the loop in [toucherGremlin(done)]: a touch type is
    picked with the randomizer [r], which the gremlin has found to be
    there, and run. *)
Definition touch (r : Randomizer) (done : bool) (posX posY : float) (targetElement : Element)
    (w : World) : Res :=
  let w' := mkWorld (events w) (S (drawn w)) (now w) (timers w) in
  match pick r (drawn w) (touchTypes config) with
  | None => Thrown (emit (Throw OfTheRandomizer) w')
  | Some touchType =>
      let w := w' in
      let logGremlin := LogGremlin touchType posX posY done in
      if String.eqb touchType "tap" then tap (posX, posY) targetElement logGremlin w
      else if String.eqb touchType "doubletap" then
        doubletap (posX, posY) targetElement logGremlin w
      else if String.eqb touchType "gesture" then gesture (posX, posY) targetElement logGremlin w
      else if String.eqb touchType "multitouch" then
        multitouch (posX, posY) targetElement logGremlin w
      else
        match inherited touchType with
        | Some true => Returned (emit (Inherited touchType) w)
        | Some false => Thrown (emit (Inherited touchType) w)
        | None => Thrown (emit (Throw (InvalidTouchType touchType)) w)
        end
  end.

(** [toucherGremlin(done)]; [done] says whether a callback is given.  The
    loop is left after [maxNbTries + 1] tries at the latest. *)
Definition toucherGremlin (done : bool) (w : World) : option Res :=
  match randomizer config with
  | None => Some (Thrown (emit (Throw RandomizerRequiredException) w))
  | Some r => seek (touch r done) (S (maxNbTries config)) 0 w
  end.

(** The timers: the one that is due first runs first, and of two due at
    the same time the one set first. *)
Fixpoint pop (ts : list (Z * Task)) : option ((Z * Task) * list (Z * Task)) :=
  match ts with
  | [] => None
  | t :: ts' =>
      match pop ts' with
      | None => Some (t, [])
      | Some (u, rest) => if (t.1 <=? u.1)%Z then Some (t, ts') else Some (u, t :: rest)
      end
  end.

Definition fire (task : Task) (w : World) : Res :=
  match task with
  | TapEnd touches element gesture done =>
      andThen (triggerTouch touches element touchend w)
        (fun w => Returned (invoke done touches gesture w))
  | SecondTap position element done => tap position element done w
  | GestureLoop element startPos startTouches gesture done loop =>
      gestureLoop element startPos startTouches gesture done loop w
  end.

(** [fuel] timers run; an exception thrown by one is lost. *)
Fixpoint run (fuel : nat) (w : World) : World :=
  match fuel with
  | O => w
  | S fuel' =>
      match pop (timers w) with
      | None => w
      | Some ((due, task), rest) =>
          run fuel' (outcome (fire task (mkWorld (events w) (drawn w) due rest)))
      end
  end.

(** The draws [n] calls of [config.positionSelector] make *)
Definition asked (n : nat) : nat :=
  match positionSelector config with
  | DefaultPositionSelector =>
      match randomizer config with Some _ => 2 * n | None => 0 end
  | OfThePage _ => 0
  end.

(** The point of try number [k] of a run that starts in [w], when the
    selector returns. *)
Definition position (w : World) (k : nat) : option (float * float) :=
  match positionSelector config with
  | OfThePage f => Some (f k)
  | DefaultPositionSelector =>
      match randomizer config with
      | None => Some (0%float, 0%float)
      | Some r =>
          match natural r (drawn w + 2 * k) None (clientWidth - 1),
                natural r (S (drawn w + 2 * k)) None (clientHeight - 1) with
          | Some x, Some y => Some (num x, num y)
          | _, _ => None
          end
      end
  end.

(** Try number [k] of a run that starts in [w]: [None] when the selector
    throws, else the element at its point that can be touched, if there
    is one. *)
Definition tried (w : World) (k : nat) : option (option Element) :=
  match position w k with
  | Some p =>
      Some (match elementFromPoint p.1 p.2 with
            | Some el => if canTouch config el then Some el else None
            | None => None
            end)
  | None => None
  end.

End Page.

Arguments Config : clear implicits.
Arguments Event : clear implicits.
Arguments TouchItem : clear implicits.
Arguments Callback : clear implicits.
Arguments Task : clear implicits.
Arguments World : clear implicits.
Arguments Res : clear implicits.
Arguments Got : clear implicits.
Arguments Value {Element A} a w.
Arguments Raised {Element A} w.

End Toucher.

(** ** Properties of the sampling *)

Module DistributionFacts.
Import Distribution.

(** [chance] is NaN from the first [distribution[i]] that is [undefined]
    on: a sum with NaN is NaN, and no draw is [<=] NaN. *)
Lemma add_nan_l (x y : float) :
  Prim2SF x = S754_nan -> Prim2SF (x + y)%float = S754_nan.
Proof. intros H. rewrite FloatAxioms.add_spec, H. reflexivity. Qed.

Lemma add_nan_r (x y : float) :
  Prim2SF y = S754_nan -> Prim2SF (x + y)%float = S754_nan.
Proof.
  intros H. rewrite FloatAxioms.add_spec, H. by destruct (Prim2SF x).
Qed.

Lemma leb_nan_r (x y : float) : Prim2SF y = S754_nan -> (x <=? y)%float = false.
Proof.
  intros H. rewrite FloatAxioms.leb_spec, H. unfold SFleb. by destruct (Prim2SF x).
Qed.

Section PickFacts.
Context {G : Type}.
Variable gremlins : list G.
Variable distribution : list float.
Variable random : float.

Lemma pick_loop_in_range (todo i : nat) (chance : float) :
    i + todo = length gremlins ->
    pick_loop gremlins distribution random todo i chance = NoOp \/
    exists j g, i <= j < length gremlins /\ gremlins !! j = Some g /\
      pick_loop gremlins distribution random todo i chance = Gremlin g.
  Proof.
    revert i chance. induction todo as [|todo IH]; intros i chance Hlen; simpl.
    - by left.
    - destruct (random <=? chance + weight_at distribution i)%float.
      + right. unfold gremlin_at.
        destruct (lookup_lt_is_Some_2 gremlins i) as [g Hg]; [lia|].
        exists i, g. rewrite Hg. split; [lia|done].
      + destruct (IH (S i) (chance + weight_at distribution i)%float) as [H|(j & g & Hj & Hg & H)];
          [lia|by left|].
        right. exists j, g. split; [lia|done].
  Qed.
End PickFacts.

(** What [pickGremlin] yields comes from inside the gremlin array. *)
Lemma pickGremlin_in_range {G} (gremlins : list G) (distribution : list float) (random : float) :
  pickGremlin gremlins distribution random = NoOp \/
  exists i g, i < length gremlins /\ gremlins !! i = Some g /\
    pickGremlin gremlins distribution random = Gremlin g.
Proof.
  unfold pickGremlin.
  destruct (pick_loop_in_range gremlins distribution random (length gremlins) 0 0%float)
    as [H|(j & g & Hj & Hg & H)]; [lia|by left|].
  right. exists j, g. split; [lia|done].
Qed.

Section Reached.
Context {G : Type}.
Variable gremlins : list G.
Variable distribution : list float.
Variable random : float.



End Reached.



(** C7: two gremlins, the uniform default, draws 0.1, 0.6, 0.9. *)
Theorem pick_uniform_two {G} (A B : G) :
  getUniformDistribution [A; B] = [0.5%float; 0.5%float] /\
  map (pickGremlin [A; B] (getUniformDistribution [A; B]))
      [0.1%float; 0.6%float; 0.9%float]
  = [Gremlin A; Gremlin B; Gremlin B].
Proof. split; reflexivity. Qed.

End DistributionFacts.

(** ** Properties of the injector *)

Module InjectFacts.
Import Inject.

Section InjectorFacts.
Context {V W : Type}.
Implicit Types (evs : list (Event V)) (o : Target V W) (w : W).

(** No accessor is both found configured and written to. *)
Definition consistent evs : Prop :=
  forall i name v, Probe i name true ∈ evs -> Install i name v ∉ evs.

(** What holds of the events while the loops are at target [i], the
    services [seen] being done for it; [all] is the whole array. *)
Record progress (all : list (Target V W)) (i : nat) (seen : list string) evs : Prop := {
  pr_guarded : guarded None evs;
  pr_member : forall e, e ∈ evs ->
      exists o f, all !! (subject e).1 = Some o /\ o !! (subject e).2 = Some (Function f);
  pr_visited : forall e, e ∈ evs ->
      (subject e).1 < i \/ ((subject e).1 = i /\ (subject e).2 ∈ seen);
  pr_consistent : consistent evs
}.

Lemma guarded_probe prev evs i name b :
  guarded prev evs -> guarded prev (evs ++ [Probe i name b]).
Proof.
  revert prev. induction evs as [|e evs IH]; intros prev H; cbn in *; [done|].
  destruct e; [by apply IH|]. destruct H as [H1 H2]. split; [done|by apply IH].
Qed.

Lemma guarded_install prev evs i name (v : V) :
  guarded prev evs -> guarded prev (evs ++ [Probe i name false; Install i name v]).
Proof.
  revert prev. induction evs as [|e evs IH]; intros prev H; cbn in *; [done|].
  destruct e; [by apply IH|]. destruct H as [H1 H2]. split; [done|by apply IH].
Qed.

Lemma progress_service all i seen o name (v : V) w evs :
  all !! i = Some o -> name ∉ seen ->
  progress all i seen evs ->
  progress all i (name :: seen) (inject_service i o name v (w, evs)).2.
Proof.
  intros Ho Hn [Hg Hm Hv Hc]. unfold inject_service.
  assert (Hfresh : forall e, e ∈ evs -> subject e <> (i, name)).
  { intros e He Heq. destruct (Hv e He) as [H|[H1 H2]]; rewrite Heq in *; cbn in *; [lia|done]. }
  assert (Hweak : forall e, e ∈ evs ->
             (subject e).1 < i \/ ((subject e).1 = i /\ (subject e).2 ∈ name :: seen)).
  { intros e He. destruct (Hv e He) as [H|[H1 H2]]; [by left|right]. split; [done|set_solver]. }
  destruct (o !! name) as [[f|]|] eqn:Hf; cbn.
  - destruct (f None w) as [[|] w1]; [|destruct (f (Some v) w1) as [r w2]]; cbn.
    + split.
      * by apply guarded_probe.
      * intros e He. apply elem_of_app in He as [He|He]; [by apply Hm|].
        apply list_elem_of_singleton in He as ->. exists o, f. by split.
      * intros e He. apply elem_of_app in He as [He|He]; [by apply Hweak|].
        apply list_elem_of_singleton in He as ->.
        right. cbn. split; [done|set_solver].
      * intros j nm u Hp Hi.
        apply elem_of_app in Hp as [Hp|Hp]; apply elem_of_app in Hi as [Hi|Hi].
        -- by apply (Hc j nm u).
        -- by apply list_elem_of_singleton in Hi.
        -- apply list_elem_of_singleton in Hp. injection Hp as -> ->.
           by apply (Hfresh _ Hi).
        -- by apply list_elem_of_singleton in Hi.
    + split.
      * by apply guarded_install.
      * intros e He. apply elem_of_app in He as [He|He]; [by apply Hm|].
        exists o, f. set_solver.
      * intros e He. apply elem_of_app in He as [He|He]; [by apply Hweak|].
        right. set_solver.
      * intros j nm u Hp Hi.
        apply elem_of_app in Hp as [Hp|Hp]; apply elem_of_app in Hi as [Hi|Hi].
        -- by apply (Hc j nm u).
        -- assert (j = i /\ nm = name) as [-> ->] by set_solver.
           by apply (Hfresh _ Hp).
        -- set_solver.
        -- set_solver.
  - by split.
  - by split.
Qed.

Lemma progress_target all i o (services : list (string * V)) :
  all !! i = Some o ->
  forall seen w evs,
    NoDup (services.*1) -> (forall name, name ∈ services.*1 -> name ∉ seen) ->
    progress all i seen evs ->
    progress all (S i) [] (inject_target i o services (w, evs)).2.
Proof.
  intros Ho. induction services as [|[name v] rest IH]; intros seen w evs Hnd Hdis Hp;
    cbn [inject_target].
  - destruct Hp as [Hg Hm Hv Hc]. split; try done.
    intros e He. left. destruct (Hv e He) as [H|[H _]]; lia.
  - cbn in Hnd. apply NoDup_cons in Hnd as [Hnotin Hnd].
    destruct (inject_service i o name v (w, evs)) as [w1 evs1] eqn:E.
    apply (IH (name :: seen)); [done| |].
    + intros nm Hnm. cbn in Hdis. set_solver.
    + replace evs1 with (inject_service i o name v (w, evs)).2 by (by rewrite E).
      apply progress_service; [done| |done]. apply Hdis. set_solver.
Qed.

Lemma progress_from (services : list (string * V)) (post : list (Target V W)) :
  NoDup (services.*1) ->
  forall pre w evs,
    progress (pre ++ post) (length pre) [] evs ->
    progress (pre ++ post) (length pre + length post) []
      (inject_from (length pre) services post (w, evs)).2.
Proof.
  intros Hnd. induction post as [|o post IH]; intros pre w evs Hp; cbn [inject_from length].
  - by rewrite Nat.add_0_r.
  - destruct (inject_target (length pre) o services (w, evs)) as [w1 evs1] eqn:E.
    specialize (IH (pre ++ [o]) w1 evs1).
    rewrite <- app_assoc, length_app in IH. cbn in IH.
    rewrite Nat.add_1_r in IH. rewrite <- Nat.add_succ_comm. apply IH.
    replace evs1 with (inject_target (length pre) o services (w, evs)).2 by (by rewrite E).
    apply (progress_target _ _ _ _ (list_lookup_middle _ _ _ _ eq_refl) []); [done| |done].
    set_solver.
Qed.

Lemma progress_inject (services : list (string * V)) (objects : list (Target V W)) w :
  NoDup (services.*1) ->
  progress objects (length objects) [] (inject services objects w).2.
Proof.
  intros Hnd. apply (progress_from services objects Hnd [] w []).
  split; cbn; try done; intros e He; set_solver.
Qed.

End InjectorFacts.

(** What the claim asks of the calls of a pass over [objects]: a setter
    call comes only directly after the no-argument call of the same
    accessor answered falsy; an accessor whose no-argument call reports a
    value is not written to; a target without a function under a service's
    name gets no call for it. *)
Definition sound {V W : Type} (objects : list (Target V W)) (evs : list (Event V)) : Prop :=
  guarded None evs /\
  (forall i name v, Probe i name true ∈ evs -> Install i name v ∉ evs) /\
  (forall i o name, objects !! i = Some o ->
     (forall f, o !! name <> Some (Function f)) ->
     forall e, e ∈ evs -> subject e <> (i, name)).

Lemma progress_sound {V W : Type} (objects : list (Target V W)) (evs : list (Event V)) :
  progress objects (length objects) [] evs -> sound objects evs.
Proof.
  intros [Hg Hm _ Hc]. split; [done|]. split; [done|].
  intros i o name Ho Hno e He Heq.
  destruct (Hm e He) as (o' & f & Ho' & Hf).
  rewrite Heq in Ho', Hf. cbn in Ho', Hf.
  rewrite Ho in Ho'. injection Ho' as <-. by apply (Hno f).
Qed.

(** C6: the calls of a pass of [inject] are sound, and so are those of a
    second pass with the same services over the same targets, whatever the
    accessors do: the second pass writes to no accessor that now reports a
    value. *)
Theorem inject_idempotent {V W : Type} (services : list (string * V))
    (objects : list (Target V W)) (w : W) :
  NoDup (services.*1) ->
  let first := inject services objects w in
  let second := inject services objects first.1 in
  sound objects first.2 /\ sound objects second.2.
Proof.
  intros Hnd first second.
  split; apply progress_sound; by apply progress_inject.
Qed.

(** Modelled from the spec: the accessors that [configurable] gives a
    gremlin ([utils/configurable.ts] is not among the sources): called with
    no argument the accessor reads its slot, called with a value it writes
    it.  Here a slot holds a number and 0 is the falsy one. *)
Definition slot (key : nat * string) : Accessor nat (gmap (nat * string) nat) :=
  fun arg w =>
    match arg with
    | None => (bool_decide (default 0 (w !! key) <> 0), w)
    | Some v => (true, <[key := v]> w)
    end.

Definition demo_services : list (string * nat) := [("logger", 1); ("randomizer", 2)].

(** A gremlin with both accessors, a callback with none, a mogwai with a
    logger only. *)
Definition demo_targets : list (Target nat (gmap (nat * string) nat)) :=
  [ {[ "logger" := Function (slot (0, "logger"));
       "randomizer" := Function (slot (0, "randomizer")) ]};
    ∅;
    {[ "logger" := Function (slot (2, "logger")); "randomizer" := Other ]} ].

(** The first pass installs, the second only reads. *)
Example inject_twice :
  (inject demo_services demo_targets ∅).2
  = [Probe 0 "logger" false; Install 0 "logger" 1;
     Probe 0 "randomizer" false; Install 0 "randomizer" 2;
     Probe 2 "logger" false; Install 2 "logger" 1] /\
  (inject demo_services demo_targets (inject demo_services demo_targets ∅).1).2
  = [Probe 0 "logger" true; Probe 0 "randomizer" true; Probe 2 "logger" true].
Proof. split; vm_compute; reflexivity. Qed.

Lemma inject_idempotent_witness :
  let first := inject demo_services demo_targets ∅ in
  let second := inject demo_services demo_targets first.1 in
  sound demo_targets first.2 /\ sound demo_targets second.2.
Proof.
  apply (inject_idempotent demo_services demo_targets ∅).
  apply (bool_decide_unpack _). vm_compute. exact I.
Defined.

End InjectFacts.

(** ** Runs of the machine *)

Module EngineFacts.
Import Engine.

(** Unfold the record updates of a state given by its fields. *)
Ltac crunch :=
  unfold push_all, push, emit, throw, setTimeout, array_push, read, set_array,
    new_array, new_cell, new_strategy, update_strategy, config_of, incr, with_stack,
    with_timers, with_sched, with_arrays, with_cells, with_strategies,
    with_next_loc, with_draws, with_trace;
  cbn.

Lemma run_final (n : nat) (st : State) : final st -> run n st = st.
Proof. intros H. destruct n as [|n]; simpl; [done|]. by rewrite H. Qed.

Lemma run_add (n m : nat) (st : State) : run (n + m) st = run m (run n st).
Proof.
  revert st. induction n as [|n IH]; intros st; simpl; [done|].
  destruct (step st) as [st'|] eqn:E; [apply IH|].
  symmetry. by apply run_final.
Qed.

Lemma reaches_refl (st : State) : reaches st st.
Proof. by exists 0. Qed.

Lemma reaches_trans (a b c : State) : reaches a b -> reaches b c -> reaches a c.
Proof.
  intros [n Hn] [m Hm]. exists (n + m). by rewrite run_add, Hn.
Qed.

Lemma reaches_step (a b c : State) : step a = Some b -> reaches b c -> reaches a c.
Proof.
  intros Hs [n Hn]. exists (S n). simpl. by rewrite Hs.
Qed.

(** Once a final state is reached, more fuel changes nothing. *)
Lemma reaches_final (a b : State) :
  reaches a b -> final b -> exists n, forall m, n <= m -> run m a = b.
Proof.
  intros [n Hn] Hf. exists n. intros m Hm.
  replace m with (n + (m - n)) by lia.
  rewrite run_add, Hn. by apply run_final.
Qed.

(** Frames that do nothing when control comes back to them: the arity
    test behind a callback that is not synchronous. *)
Definition inert_cmd (c : Cmd) : Prop :=
  match c with
  | SyncTest callback length _ _ _ => fn_length callback <> length
  | _ => False
  end.

Definition inert (k : list Cmd) : Prop := Forall inert_cmd k.

Lemma inert_unwinds (k : list Cmd) t s a c g n d h sp mg tr :
  inert k ->
  reaches (mkState k t s a c g n d h sp mg tr) (mkState [] t s a c g n d h sp mg tr).
Proof.
  induction 1 as [|x k Hx Hk IH]; [apply reaches_refl|].
  eapply reaches_step; [|exact IH].
  destruct x; try done. cbn in *.
  by apply Nat.eqb_neq in Hx as ->.
Qed.

(** With one timer pending the schedule has no choice. *)
Lemma step_single_timer t0 f s a c g n d h sp mg tr :
  step (mkState [] [(t0, f)] s a c g n d h sp mg tr)
  = Some (mkState [Call f []] [] (tail s) a c g n d h sp mg tr).
Proof.
  unfold step, dispatch. cbn [stack timers sched length].
  destruct s as [|x s]; [reflexivity|].
  rewrite Nat.mod_1_r. reflexivity.
Qed.

(** A callback the sequencer is specified for: it declares as many
    parameters as there are arguments and never sees the continuation, or it
    declares one more and calls it once, at once or from a later task. *)
Definition synchronous (length : nat) (u : User) : Prop :=
  u_length u = length /\ u_body u = [].
Definition asynchronous (length : nat) (u : User) : Prop :=
  u_length u = S length /\ (u_body u = [Resume] \/ u_body u = [ResumeLater]).
Definition well_behaved (length : nat) (v : Val) : Prop :=
  (exists u, v = VFun u /\ (synchronous length u \/ asynchronous length u))
  \/ (v = VNoop /\ length = 0).

(** The events of one pass of the sequencer over [cbs]. *)
Definition invocations (cbs : list Val) (vs : list Val) : list Event :=
  omap (fun cb => match cb with VFun u => Some (ECall (u_name u) vs) | _ => None end) cbs.

Lemma trailing_next (u : User) (vs : list Val) (next : Val) :
  u_length u = S (length vs) -> trailing u (vs ++ [next]) = next.
Proof.
  intros H. unfold trailing. rewrite H.
  by rewrite lookup_app_r, Nat.sub_diag.
Qed.

(** The heart of the sequencer: from [iterator(callbacksCopy, args)] to the
    call of [done], through every callback of the copy. *)
Lemma iterator_runs (len : nat) (copy al : loc) (done : Val) (vs : list Val) (cbs : list Val) :
  copy <> al -> is_function done = true ->
  Forall (well_behaved len) cbs -> len = length vs ->
  forall k s a c g n d h sp mg tr,
    inert k ->
    a !! copy = Some cbs ->
    a !! al = Some (vs ++ [VNext len copy al done]) ->
    exists k' s',
      inert k' /\
      reaches (mkState (Iterate len copy al done :: k) [] s a c g n d h sp mg tr)
              (mkState (Call done [] :: k') [] s' (<[copy := []]> a) c g n d h sp mg
                 (tr ++ invocations cbs (vs ++ [VNext len copy al done]))).
Proof.
  intros Hne Hdone Hwb Hlen.
  induction Hwb as [|cb cbs [(u & -> & Hu)|[-> Hz]] Hwb IH];
    intros k s a c g n d h sp mg tr Hk Hcopy Hal.
  - exists k, s. split; [done|].
    eapply reaches_step.
    { cbn. unfold iterator. cbn. rewrite Hcopy, Hdone. reflexivity. }
    cbn. rewrite insert_id by done. rewrite app_nil_r. apply reaches_refl.
  - set (next := VNext len copy al done) in *.
    assert (Hal' : <[copy := cbs]> a !! al = Some (vs ++ [next]))
      by (by rewrite lookup_insert_ne).
    assert (Hcopy' : <[copy := cbs]> a !! copy = Some cbs)
      by (by rewrite lookup_insert_eq).
    destruct Hu as [[Hl Hb]|[Hl Hb]].
    + (* synchronous *)
      destruct (IH k s (<[copy := cbs]> a) c g n d h sp mg
                  (tr ++ [ECall (u_name u) (vs ++ [next])]) Hk Hcopy' Hal')
        as (k' & s' & Hk' & Hr).
      exists k', s'. split; [done|].
      eapply reaches_step.
      { cbn. unfold iterator. cbn. rewrite Hcopy. cbn. rewrite Hal'. reflexivity. }
      eapply reaches_step.
      { cbn. rewrite Hb. reflexivity. }
      eapply reaches_step.
      { cbn. rewrite Hl, Nat.eqb_refl. reflexivity. }
      cbn. rewrite insert_insert_eq in Hr. cbn. rewrite <- app_assoc in Hr. exact Hr.
    + (* asynchronous *)
      assert (Hin : inert_cmd (SyncTest (VFun u) len copy al done)).
      { cbn. rewrite Hl. lia. }
      destruct Hb as [Hb|Hb].
      * destruct (IH (SyncTest (VFun u) len copy al done :: k) s (<[copy := cbs]> a)
                    c g n d h sp mg (tr ++ [ECall (u_name u) (vs ++ [next])]))
          as (k' & s' & Hk' & Hr); [by constructor|done|done|].
        exists k', s'. split; [done|].
        eapply reaches_step.
        { cbn. unfold iterator. cbn. rewrite Hcopy. cbn. rewrite Hal'. reflexivity. }
        eapply reaches_step.
        { cbn. rewrite Hb. reflexivity. }
        eapply reaches_step.
        { cbn. rewrite trailing_next by (by rewrite Hl, Hlen). reflexivity. }
        eapply reaches_step.
        { cbn. reflexivity. }
        cbn. rewrite insert_insert_eq in Hr. rewrite <- app_assoc in Hr. exact Hr.
      * destruct (IH [] (tail s) (<[copy := cbs]> a)
                    c g n d h sp mg (tr ++ [ECall (u_name u) (vs ++ [next])]))
          as (k' & s' & Hk' & Hr); [by constructor|done|done|].
        exists k', s'. split; [done|].
        eapply reaches_step.
        { cbn. unfold iterator. cbn. rewrite Hcopy. cbn. rewrite Hal'. reflexivity. }
        eapply reaches_step.
        { cbn. rewrite Hb. reflexivity. }
        eapply reaches_step.
        { cbn. rewrite trailing_next by (by rewrite Hl, Hlen). reflexivity. }
        eapply reaches_trans.
        { apply (inert_unwinds (SyncTest (VFun u) len copy al done :: k)). by constructor. }
        eapply reaches_step; [apply step_single_timer|].
        eapply reaches_step.
        { cbn. reflexivity. }
        cbn. rewrite insert_insert_eq in Hr. rewrite <- app_assoc in Hr. exact Hr.
  - (* the no-op of pickGremlin *)
    set (next := VNext len copy al done) in *.
    destruct (IH k s (<[copy := cbs]> a) c g n d h sp mg tr Hk) as (k' & s' & Hk' & Hr).
    { by rewrite lookup_insert_eq. }
    { by rewrite lookup_insert_ne. }
    exists k', s'. split; [done|].
    eapply reaches_step.
    { cbn. unfold iterator. cbn. rewrite Hcopy. cbn.
      rewrite lookup_insert_ne by done. rewrite Hal. reflexivity. }
    eapply reaches_step.
    { cbn. reflexivity. }
    eapply reaches_step.
    { cbn. rewrite Hz. reflexivity. }
    cbn. rewrite insert_insert_eq in Hr. exact Hr.
Qed.

Definition behaved (length : nat) (u : User) : Prop :=
  synchronous length u \/ asynchronous length u.

Lemma behaved_well (length : nat) (us : list User) :
  Forall (behaved length) us -> Forall (well_behaved length) (VFun <$> us).
Proof.
  induction 1 as [|u us Hu _ IH]; cbn; constructor; [|done].
  left. by exists u.
Qed.

Lemma invocations_users (us : list User) (vs : list Val) :
  invocations (VFun <$> us) vs = map (fun u => ECall (u_name u) vs) us.
Proof. induction us as [|u us IH]; cbn; [done|]. by f_equal. Qed.

Lemma sequencer_arrays_other (a : gmap loc (list Val)) (n al cl : loc) (x y z : list Val) :
  cl <> al -> cl <> n ->
  <[n := x]> (<[al := y]> (<[n := z]> a)) !! cl = a !! cl.
Proof. intros H1 H2. by rewrite !lookup_insert_ne. Qed.

(** What [executeInSeries] hands to every callback after the arguments. *)
Definition continuation (st : State) (al : loc) (vs : list Val) (done : Val) : Val :=
  VNext (length vs) (next_loc st) al done.

(** A whole pass, from the call of [executeInSeries] in an idle state to
    the state where nothing is left to run. *)
Lemma sequencer_run s a c g n d h sp mg tr (cl al : loc) (us : list User)
    (vs : list Val) (dn : User) :
  a !! cl = Some (VFun <$> us) -> a !! al = Some vs -> al < n ->
  Forall (behaved (length vs)) us -> u_body dn = [] ->
  let next := VNext (length vs) n al (VFun dn) in
  exists s',
    reaches (executeInSeries (VArray cl) al (VFun dn) (mkState [] [] s a c g n d h sp mg tr))
      (mkState [] [] s'
         (<[n := []]> (<[al := vs ++ [next]]> (<[n := VFun <$> us]> a)))
         c g (S n) d h sp mg
         (tr ++ map (fun u => ECall (u_name u) (vs ++ [next])) us ++ [ECall (u_name dn) []])).
Proof.
  intros Hcl Hal Hlt Hus Hdn next.
  assert (Hne : n <> al) by lia.
  destruct (iterator_runs (length vs) n al (VFun dn) vs (VFun <$> us) Hne eq_refl
              (behaved_well _ _ Hus) eq_refl [] s
              (<[al := vs ++ [next]]> (<[n := VFun <$> us]> a)) c g (S n) d h sp mg tr)
    as (k' & s' & Hk' & Hr).
  - constructor.
  - rewrite lookup_insert_ne by lia. by rewrite lookup_insert_eq.
  - by rewrite lookup_insert_eq.
  - exists s'. unfold executeInSeries. cbn. rewrite Hal, Hcl. cbn.
    eapply reaches_trans; [exact Hr|].
    eapply reaches_step.
    { cbn. rewrite Hdn. reflexivity. }
    crunch. rewrite invocations_users, <- app_assoc.
    apply inert_unwinds, Hk'.
Qed.

Lemma final_idle s a c g n d h sp mg tr :
  final (mkState [] [] s a c g n d h sp mg tr).
Proof. reflexivity. Qed.

Lemma calls_app (t1 t2 : list Event) : calls (t1 ++ t2) = calls t1 ++ calls t2.
Proof. apply omap_app. Qed.

Lemma calls_users (us : list User) (vs : list Val) :
  calls (map (fun u => ECall (u_name u) vs) us) = u_name <$> us.
Proof. induction us as [|u us IH]; cbn; [done|]. by f_equal. Qed.

(** C2: in an idle machine, [executeInSeries] over callbacks that are each
    synchronous or asynchronous enters every callback once, in the order of
    the list, then enters [done] once, and nothing is left to run; over the
    empty list [done] is entered before the call returns, and nothing else
    is. *)
Theorem executeInSeries_in_order (st : State) (cl al : loc) (us : list User)
    (vs : list Val) (dn : User) :
  stack st = [] -> timers st = [] ->
  arrays st !! cl = Some (VFun <$> us) -> arrays st !! al = Some vs ->
  al < next_loc st ->
  Forall (behaved (length vs)) us -> u_body dn = [] ->
  let start := executeInSeries (VArray cl) al (VFun dn) st in
  let next := continuation st al vs (VFun dn) in
  (exists n st',
      (forall m, n <= m -> run m start = st') /\ final st' /\
      trace st' = trace st ++ map (fun u => ECall (u_name u) (vs ++ [next])) us
                    ++ [ECall (u_name dn) []])
  /\ (us = [] ->
      stack (drain 2 start) = [] /\
      trace (drain 2 start) = trace st ++ [ECall (u_name dn) []]).
Proof.
  destruct st as [k t s a c g n d h sp mg tr]. cbn.
  intros -> -> Hcl Hal Hlt Hus Hdn. split.
  - destruct (sequencer_run s a c g n d h sp mg tr cl al us vs dn) as (s' & Hr); try done.
    destruct (reaches_final _ _ Hr (final_idle _ _ _ _ _ _ _ _ _ _)) as (m & Hm).
    eexists m, _. split; [exact Hm|]. split; [apply final_idle|done].
  - intros ->. unfold executeInSeries. cbn. rewrite Hal, Hcl. cbn.
    unfold iterator. cbn. rewrite lookup_insert_ne by lia.
    rewrite lookup_insert_eq. cbn. by rewrite Hdn.
Qed.

(** C10: [executeInSeries] appends the continuation to the array of
    arguments it was given before any callback is entered; the array keeps
    this one more element to the end, and every callback, synchronous or
    not, is entered with the arguments followed by the continuation. *)
Theorem executeInSeries_extends_args (st : State) (cl al : loc) (us : list User)
    (vs : list Val) (dn : User) :
  stack st = [] -> timers st = [] ->
  arrays st !! cl = Some (VFun <$> us) -> arrays st !! al = Some vs ->
  al < next_loc st ->
  Forall (behaved (length vs)) us -> u_body dn = [] ->
  let start := executeInSeries (VArray cl) al (VFun dn) st in
  let next := continuation st al vs (VFun dn) in
  arrays start !! al = Some (vs ++ [next]) /\ trace start = trace st /\
  exists n st',
    (forall m, n <= m -> run m start = st') /\ final st' /\
    arrays st' !! al = Some (vs ++ [next]) /\
    trace st' = trace st ++ map (fun u => ECall (u_name u) (vs ++ [next])) us
                  ++ [ECall (u_name dn) []].
Proof.
  destruct st as [k t s a c g n d h sp mg tr]. cbn.
  intros -> -> Hcl Hal Hlt Hus Hdn.
  destruct (sequencer_run s a c g n d h sp mg tr cl al us vs dn) as (s' & Hr); try done.
  destruct (reaches_final _ _ Hr (final_idle _ _ _ _ _ _ _ _ _ _)) as (m & Hm).
  split; [|split].
  - unfold executeInSeries. cbn. rewrite Hal, Hcl. cbn. by rewrite lookup_insert_eq.
  - unfold executeInSeries. cbn. by rewrite Hal, Hcl.
  - eexists m, _. split; [exact Hm|]. split; [apply final_idle|]. cbn. split; [|done].
    rewrite lookup_insert_ne by lia. by rewrite lookup_insert_eq.
Qed.

(** C9: the array of callbacks given to [executeInSeries], when it is not
    also the array of arguments, holds the same callbacks when the call has
    pushed its work and when nothing is left to run: only the copy is
    consumed.  A later pass over the same array, with the same arguments in
    a new array, enters the same callbacks in the same order. *)
Theorem executeInSeries_keeps_callbacks (st : State) (cl al : loc) (us : list User)
    (vs : list Val) (dn : User) :
  stack st = [] -> timers st = [] ->
  arrays st !! cl = Some (VFun <$> us) -> arrays st !! al = Some vs ->
  cl <> al -> cl < next_loc st -> al < next_loc st ->
  Forall (behaved (length vs)) us -> u_body dn = [] ->
  let start := executeInSeries (VArray cl) al (VFun dn) st in
  arrays start !! cl = Some (VFun <$> us) /\
  exists n st',
    (forall m, n <= m -> run m start = st') /\ final st' /\
    arrays st' !! cl = Some (VFun <$> us) /\
    calls (trace st') = calls (trace st) ++ (u_name <$> us) ++ [u_name dn] /\
    let again := executeInSeries (VArray cl) (new_array vs st').1 (VFun dn)
                   (new_array vs st').2 in
    exists n2 st'',
      (forall m, n2 <= m -> run m again = st'') /\ final st'' /\
      arrays st'' !! cl = Some (VFun <$> us) /\
      calls (trace st'') = calls (trace st') ++ (u_name <$> us) ++ [u_name dn].
Proof.
  destruct st as [k t s a c g n d h sp mg tr]. cbn.
  intros -> -> Hcl Hal Hne Hlc Hla Hus Hdn.
  destruct (sequencer_run s a c g n d h sp mg tr cl al us vs dn) as (s' & Hr); try done.
  destruct (reaches_final _ _ Hr (final_idle _ _ _ _ _ _ _ _ _ _)) as (m & Hm).
  pose proof (sequencer_arrays_other a n al cl [] (vs ++ [VNext (length vs) n al (VFun dn)])
                (VFun <$> us) Hne ltac:(lia)) as Hcl'.
  rewrite Hcl in Hcl'.
  split.
  - unfold executeInSeries. cbn. rewrite Hal, Hcl. cbn.
    rewrite lookup_insert_ne by done. by rewrite lookup_insert_ne by lia.
  - eexists m, _. split; [exact Hm|]. split; [apply final_idle|].
    split; [exact Hcl'|]. split.
    { cbn [trace]. rewrite !calls_app, !calls_users. reflexivity. }
    destruct (sequencer_run s'
                (<[S n := vs]> (<[n := []]> (<[al := vs ++ [VNext (length vs) n al (VFun dn)]]>
                                               (<[n := VFun <$> us]> a))))
                c g (S (S n)) d h sp mg
                (tr ++ map (fun u => ECall (u_name u) (vs ++ [VNext (length vs) n al (VFun dn)])) us
                    ++ [ECall (u_name dn) []])
                cl (S n) us vs dn) as (s'' & Hr2); try done.
    { by rewrite lookup_insert_ne by lia. }
    { by rewrite lookup_insert_eq. }
    { lia. }
    destruct (reaches_final _ _ Hr2 (final_idle _ _ _ _ _ _ _ _ _ _)) as (m2 & Hm2).
    eexists m2, _. split; [exact Hm2|]. split; [apply final_idle|]. split.
    + cbn [arrays].
      rewrite sequencer_arrays_other by lia.
      rewrite lookup_insert_ne by lia. exact Hcl'.
    + cbn [trace]. rewrite !calls_app, !calls_users. reflexivity.
Qed.

(** A small instance: one synchronous callback, one that resumes at once,
    one that resumes from a later task, over no fixed argument. *)
Definition demo_users : list User :=
  [mkUser "a" 0 [] None; mkUser "b" 1 [Resume] None; mkUser "c" 1 [ResumeLater] None].
Definition demo_done : User := mkUser "done" 0 [] None.
Definition demo_state : State :=
  mkState [] [] [] (list_to_map [(0, VFun <$> demo_users); (1, [])]) ∅ ∅ 2 []
    (mkHorde 0 0 0 0 0) [] [] [].

Lemma demo_behaved : Forall (behaved 0) demo_users.
Proof.
  constructor; [left; by split|].
  constructor; [right; split; [done|by left]|].
  constructor; [right; split; [done|by right]|].
  constructor.
Defined.

Lemma executeInSeries_in_order_witness :
  let start := executeInSeries (VArray 0) 1 (VFun demo_done) demo_state in
  let next := continuation demo_state 1 [] (VFun demo_done) in
  (exists n st',
      (forall m, n <= m -> run m start = st') /\ final st' /\
      trace st' = trace demo_state
                    ++ map (fun u => ECall (u_name u) ([] ++ [next])) demo_users
                    ++ [ECall (u_name demo_done) []])
  /\ (demo_users = [] ->
      stack (drain 2 start) = [] /\
      trace (drain 2 start) = trace demo_state ++ [ECall (u_name demo_done) []]).
Proof.
  apply (executeInSeries_in_order demo_state 0 1 demo_users [] demo_done);
    [reflexivity|reflexivity|reflexivity|reflexivity|cbn; lia|exact demo_behaved|reflexivity].
Defined.

Lemma executeInSeries_extends_args_witness :
  let start := executeInSeries (VArray 0) 1 (VFun demo_done) demo_state in
  let next := continuation demo_state 1 [] (VFun demo_done) in
  arrays start !! 1 = Some ([] ++ [next]) /\ trace start = trace demo_state /\
  exists n st',
    (forall m, n <= m -> run m start = st') /\ final st' /\
    arrays st' !! 1 = Some ([] ++ [next]) /\
    trace st' = trace demo_state
                  ++ map (fun u => ECall (u_name u) ([] ++ [next])) demo_users
                  ++ [ECall (u_name demo_done) []].
Proof.
  apply (executeInSeries_extends_args demo_state 0 1 demo_users [] demo_done);
    [reflexivity|reflexivity|reflexivity|reflexivity|cbn; lia|exact demo_behaved|reflexivity].
Defined.

Lemma executeInSeries_keeps_callbacks_witness :
  let start := executeInSeries (VArray 0) 1 (VFun demo_done) demo_state in
  arrays start !! 0 = Some (VFun <$> demo_users) /\
  exists n st',
    (forall m, n <= m -> run m start = st') /\ final st' /\
    arrays st' !! 0 = Some (VFun <$> demo_users) /\
    calls (trace st') = calls (trace demo_state) ++ (u_name <$> demo_users) ++ [u_name demo_done] /\
    let again := executeInSeries (VArray 0) (new_array [] st').1 (VFun demo_done)
                   (new_array [] st').2 in
    exists n2 st'',
      (forall m, n2 <= m -> run m again = st'') /\ final st'' /\
      arrays st'' !! 0 = Some (VFun <$> demo_users) /\
      calls (trace st'') = calls (trace st') ++ (u_name <$> demo_users) ++ [u_name demo_done].
Proof.
  apply (executeInSeries_keeps_callbacks demo_state 0 1 demo_users [] demo_done);
    [reflexivity|reflexivity|reflexivity|reflexivity|cbn; lia|cbn; lia|cbn; lia
    |exact demo_behaved|reflexivity].
Defined.

End EngineFacts.

(** ** The strategies: how many repetitions *)

Module StrategyFacts.
Import Engine EngineFacts.

(** As [crunch], but the store is left alone: only the fields of the state
    and the small functions over values are computed. *)
Ltac expose :=
  cbv beta iota zeta delta
    [push_all push emit throw setTimeout array_push read set_array
     new_array new_cell new_strategy update_strategy config_of incr pick with_stack
     with_timers with_sched with_arrays with_cells with_strategies
     with_next_loc with_draws with_trace
     stack timers sched arrays cells strategies next_loc draws horde species
     mogwais trace fst snd default from_option id];
  cbn [app length kind delay nb distribution stopped doneCallback
       set_stopped set_doneCallback fn_length is_function falsy orb negb arg nth].

Lemma step_stack c k t sc ar ce sg nx d h sp mg tr :
  step (mkState (c :: k) t sc ar ce sg nx d h sp mg tr)
  = Some (exec c (mkState k t sc ar ce sg nx d h sp mg tr)).
Proof. reflexivity. Qed.

Lemma steps_app (s : loc) (t1 t2 : list Event) : steps s (t1 ++ t2) = steps s t1 ++ steps s t2.
Proof. apply omap_app. Qed.

Lemma steps_invocations (s : loc) (cbs vs : list Val) : steps s (invocations cbs vs) = [].
Proof.
  induction cbs as [|cb cbs IH]; [done|].
  destruct cb; exact IH.
Qed.

Lemma calls_invocations (us : list User) (vs : list Val) :
  calls (invocations (VFun <$> us) vs) = u_name <$> us.
Proof. by rewrite invocations_users, calls_users. Qed.

Lemma config_of_lookup s cfg k t sc ar ce sg nx d h sp mg tr :
  sg !! s = Some cfg -> config_of s (mkState k t sc ar ce sg nx d h sp mg tr) = cfg.
Proof. intros H. unfold config_of. cbn. by rewrite H. Qed.

(** [callDone()] when the callback is still there: it is entered, then
    forgotten. *)
Lemma callDone_runs s cfg (dn : User) k t sc ar ce sg nx d h sp mg tr :
  sg !! s = Some cfg -> doneCallback cfg = VFun dn -> u_body dn = [] ->
  reaches (callDone s (mkState k t sc ar ce sg nx d h sp mg tr))
    (mkState k t sc ar ce (<[s := set_doneCallback VUndefined cfg]> sg) nx d h sp mg
       (tr ++ [ECall (u_name dn) []])).
Proof.
  intros Hs Hd Hb. unfold callDone. crunch. rewrite Hs. cbn. rewrite Hd. crunch.
  eapply reaches_step. { cbn. rewrite Hb. reflexivity. }
  eapply reaches_step. { crunch. reflexivity. }
  crunch. rewrite Hs. cbn. apply reaches_refl.
Qed.

(** *** allTogether *)

(** [executeNextWave(i)] for a wave that takes place, up to the first call
    of [iterator]. *)
Lemma executeNextWave_wave (s gl : loc) cfg cbs n i k t sc ar ce sg (nx : loc) d h sp mg tr :
  sg !! s = Some cfg -> stopped cfg = false -> i < n ->
  ar !! gl = Some cbs -> gl < nx ->
  let done := VWaveDone s (VArray gl) n nx in
  executeNextWave s (VArray gl) n i (mkState k t sc ar ce sg nx d h sp mg tr)
  = mkState (Iterate 0 (S (S nx)) (S nx) done :: k) t sc
      (<[S nx := [VNext 0 (S (S nx)) (S nx) done]]>
         (<[S (S nx) := cbs]> (<[S nx := []]> ar)))
      (<[nx := i]> ce) sg (S (S (S nx))) d h sp mg (tr ++ [EStep s i]).
Proof.
  intros Hs Hst Hi Hgl Hlt done.
  unfold executeNextWave. expose. rewrite Hs. expose. rewrite Hst.
  destruct (n <=? i) eqn:E; [apply Nat.leb_le in E; lia|].
  unfold executeInSeries. expose.
  rewrite lookup_insert_eq. expose. rewrite lookup_insert_ne by lia. rewrite Hgl.
  expose. reflexivity.
Qed.


(** One statement of the stack. *)
Ltac advance :=
  eapply reaches_step; [apply step_stack|]; unfold exec, call; expose.

(** The waves from [i] on, to the end of the run. *)
Lemma waves_run (s gl : loc) (cfg : Strategy) (us : list User) (dn : User) (n : nat) :
  Forall (behaved 0) us -> u_body dn = [] ->
  stopped cfg = false -> doneCallback cfg = VFun dn ->
  forall j i, i + j = n ->
  forall k sc ar ce sg (nx : loc) d h sp mg tr,
    inert k -> sg !! s = Some cfg -> ar !! gl = Some (VFun <$> us) -> gl < nx ->
    exists st',
      reaches (executeNextWave s (VArray gl) n i (mkState k [] sc ar ce sg nx d h sp mg tr)) st' /\
      final st' /\
      calls (trace st') = calls tr ++ concat (replicate j (u_name <$> us)) ++ [u_name dn] /\
      steps s (trace st') = steps s tr ++ seq i j.
Proof.
  intros Hus Hdn Hst Hdc. induction j as [|j IH];
    intros i Hij k sc ar ce sg nx d h sp mg tr Hk Hs Hgl Hlt.
  - (* no wave left: callDone *)
    eexists. split; [|split; [|split]].
    + unfold executeNextWave. expose. rewrite Hs. expose. rewrite Hst.
      replace (n <=? i) with true by (symmetry; apply Nat.leb_le; lia).
      eapply reaches_trans; [by eapply callDone_runs|].
      apply inert_unwinds, Hk.
    + apply final_idle.
    + cbn [trace]. rewrite calls_app. reflexivity.
    + cbn [trace]. rewrite steps_app. cbn. by rewrite !app_nil_r.
  - (* one wave, the timer, and the rest *)
    set (done := VWaveDone s (VArray gl) n nx).
    set (next := VNext 0 (S (S nx)) (S nx) done).
    set (ar1 := <[S nx := [next]]> (<[S (S nx) := VFun <$> us]> (<[S nx := []]> ar))).
    destruct (iterator_runs 0 (S (S nx)) (S nx) done [] (VFun <$> us)
                ltac:(lia) eq_refl (behaved_well _ _ Hus) eq_refl
                k sc ar1 (<[nx := i]> ce) sg (S (S (S nx))) d h sp mg (tr ++ [EStep s i]) Hk)
      as (k' & sc' & Hk' & Hr).
    { unfold ar1. rewrite lookup_insert_ne by lia. by rewrite lookup_insert_eq. }
    { unfold ar1. by rewrite lookup_insert_eq. }
    destruct (IH (S i) ltac:(lia) [] (tail sc') (<[S (S nx) := []]> ar1)
                (<[nx := S i]> (<[nx := i]> ce)) sg (S (S (S nx))) d h sp mg
                ((tr ++ [EStep s i]) ++ invocations (VFun <$> us) ([] ++ [next])))
      as (st' & Hr' & Hf & Hc & Hsteps).
    { constructor. }
    { done. }
    { unfold ar1. rewrite !lookup_insert_ne by lia. done. }
    { lia. }
    exists st'. split; [|split; [done|split]].
    + rewrite (executeNextWave_wave s gl cfg (VFun <$> us)) by (done || lia).
      eapply reaches_trans; [exact Hr|].
      advance.
      eapply reaches_trans; [apply inert_unwinds, Hk'|].
      eapply reaches_step; [apply step_single_timer|].
      advance. rewrite lookup_insert_eq. expose. exact Hr'.
    + rewrite Hc, !calls_app, calls_invocations. cbn.
      rewrite app_nil_r, <- !app_assoc. reflexivity.
    + rewrite Hsteps, !steps_app, steps_invocations. cbn.
      rewrite Nat.eqb_refl, app_nil_r, <- !app_assoc. reflexivity.
Qed.

(** *** bySpecies *)

(** [executeNext(gremlin, i, callback)] for a repetition that takes place,
    up to the first call of [iterator]. *)
Lemma species_executeNext_step (s gc : loc) cfg n g i k t sc ar ce sg (nx : loc) d h sp mg tr :
  sg !! s = Some cfg -> stopped cfg = false -> i < n -> falsy g = false ->
  let done := VSpeciesDone s gc n g nx in
  species_executeNext s gc n g i (mkState k t sc ar ce sg nx d h sp mg tr)
  = mkState (Iterate 0 (S (S (S nx))) (S (S nx)) done :: k) t sc
      (<[S (S nx) := [VNext 0 (S (S (S nx))) (S (S nx)) done]]>
         (<[S (S (S nx)) := [g]]> (<[S (S nx) := []]> (<[S nx := [g]]> ar))))
      (<[nx := i]> ce) sg (S (S (S (S nx)))) d h sp mg (tr ++ [EStep s i]).
Proof.
  intros Hs Hst Hi Hg done.
  unfold species_executeNext. expose. rewrite Hs, Hg. expose. rewrite Hst.
  destruct (n <=? i) eqn:E; [apply Nat.leb_le in E; lia|].
  unfold executeInSeries. expose.
  rewrite lookup_insert_eq. expose. rewrite lookup_insert_ne by lia.
  rewrite lookup_insert_eq. reflexivity.
Qed.

(** One gremlin, from its repetition [i] on, to the call of
    [executeNextGremlin]. *)
Lemma species_reps (s gc : loc) (cfg : Strategy) (u : User) (n : nat) :
  behaved 0 u -> stopped cfg = false ->
  forall j i, i + j = n ->
  forall k sc ar ce sg (nx : loc) d h sp mg tr,
    inert k -> sg !! s = Some cfg ->
    exists k' sc' ar' ce' (nx' : loc) tr',
      inert k' /\
      reaches (species_executeNext s gc n (VFun u) i (mkState k [] sc ar ce sg nx d h sp mg tr))
        (mkState (Call (VNextGremlin s gc n) [] :: k') [] sc' ar' ce' sg nx' d h sp mg tr') /\
      (forall l : loc, l < nx -> ar' !! l = ar !! l) /\ nx <= nx' /\
      calls tr' = calls tr ++ replicate j (u_name u) /\
      steps s tr' = steps s tr ++ seq i j.
Proof.
  intros Hu Hst. induction j as [|j IH];
    intros i Hij k sc ar ce sg nx d h sp mg tr Hk Hs.
  - exists k, sc, ar, ce, nx, tr. split; [done|]. split; [|by rewrite !app_nil_r].
    unfold species_executeNext. expose. rewrite Hs. expose. rewrite Hst.
    replace (n <=? i) with true by (symmetry; apply Nat.leb_le; lia).
    apply reaches_refl.
  - set (done := VSpeciesDone s gc n (VFun u) nx).
    set (next := VNext 0 (S (S (S nx))) (S (S nx)) done).
    set (ar1 := <[S (S nx) := [next]]>
                  (<[S (S (S nx)) := [VFun u]]> (<[S (S nx) := []]> (<[S nx := [VFun u]]> ar)))).
    destruct (iterator_runs 0 (S (S (S nx))) (S (S nx)) done [] (VFun <$> [u])
                ltac:(lia) eq_refl (behaved_well _ _ (Forall_cons_2 _ _ _ Hu (Forall_nil_2 _))) eq_refl
                k sc ar1 (<[nx := i]> ce) sg (S (S (S (S nx)))) d h sp mg (tr ++ [EStep s i]) Hk)
      as (k1 & sc1 & Hk1 & Hr).
    { unfold ar1. rewrite lookup_insert_ne by lia. by rewrite lookup_insert_eq. }
    { unfold ar1. by rewrite lookup_insert_eq. }
    destruct (IH (S i) ltac:(lia) [] (tail sc1) (<[S (S (S nx)) := []]> ar1)
                (<[nx := S i]> (<[nx := i]> ce)) sg (S (S (S (S nx)))) d h sp mg
                ((tr ++ [EStep s i]) ++ invocations (VFun <$> [u]) ([] ++ [next])))
      as (k' & sc' & ar' & ce' & nx' & tr' & Hk' & Hr' & Har & Hnx & Hc & Hsteps);
      [constructor|done|].
    exists k', sc', ar', ce', nx', tr'. split; [done|]. split; [|split; [|split; [lia|split]]].
    + rewrite (species_executeNext_step s gc cfg) by (done || lia).
      eapply reaches_trans; [exact Hr|].
      advance.
      eapply reaches_trans; [apply inert_unwinds, Hk1|].
      eapply reaches_step; [apply step_single_timer|].
      advance. rewrite lookup_insert_eq. expose. exact Hr'.
    + intros l Hl. rewrite Har by lia. unfold ar1. by rewrite !lookup_insert_ne by lia.
    + rewrite Hc, !calls_app. cbn. rewrite <- !app_assoc. reflexivity.
    + rewrite Hsteps, !steps_app. cbn.
      rewrite Nat.eqb_refl, app_nil_r, <- !app_assoc. reflexivity.
Qed.

(** The gremlins still in the copy, one after the other, to the end of the
    run. *)
Lemma species_run (s gc : loc) (cfg : Strategy) (dn : User) (n : nat) :
  u_body dn = [] -> stopped cfg = false -> doneCallback cfg = VFun dn ->
  forall us, Forall (behaved 0) us ->
  forall k sc ar ce sg (nx : loc) d h sp mg tr,
    inert k -> sg !! s = Some cfg -> ar !! gc = Some (VFun <$> us) -> gc < nx ->
    exists st',
      reaches (executeNextGremlin s gc n (mkState k [] sc ar ce sg nx d h sp mg tr)) st' /\
      final st' /\
      calls (trace st') = calls tr ++ flat_map (fun u => replicate n (u_name u)) us
                            ++ [u_name dn] /\
      steps s (trace st') = steps s tr ++ concat (replicate (length us) (seq 0 n)).
Proof.
  intros Hdn Hst Hdc us Hus. induction Hus as [|u us Hu Hus IH];
    intros k sc ar ce sg nx d h sp mg tr Hk Hs Hgc Hlt.
  - eexists. split; [|split; [|split]].
    + unfold executeNextGremlin. expose. rewrite Hs. expose. rewrite Hst, Hgc.
      eapply reaches_trans; [by eapply callDone_runs|].
      apply inert_unwinds, Hk.
    + apply final_idle.
    + cbn [trace]. by rewrite calls_app.
    + cbn [trace]. rewrite steps_app. cbn. by rewrite !app_nil_r.
  - destruct (species_reps s gc cfg u n Hu Hst n 0 eq_refl k sc (<[gc := VFun <$> us]> ar)
                ce sg nx d h sp mg tr Hk Hs)
      as (k1 & sc1 & ar1 & ce1 & nx1 & tr1 & Hk1 & Hr1 & Har & Hnx & Hc1 & Hs1).
    destruct (IH k1 sc1 ar1 ce1 sg nx1 d h sp mg tr1 Hk1 Hs) as (st' & Hr' & Hf & Hc & Hsteps).
    { rewrite Har by done. by rewrite lookup_insert_eq. }
    { lia. }
    exists st'. split; [|split; [done|split]].
    + unfold executeNextGremlin. expose. rewrite Hs. expose. rewrite Hst, Hgc.
      cbn [fmap list_fmap]. expose.
      eapply reaches_trans; [exact Hr1|].
      advance. exact Hr'.
    + rewrite Hc, Hc1. cbn. rewrite <- !app_assoc. reflexivity.
    + rewrite Hsteps, Hs1. cbn. rewrite <- !app_assoc. reflexivity.
Qed.

(** *** distribution *)

Lemma calls_invocations_names (cbs vs : list Val) : calls (invocations cbs vs) = names_of cbs.
Proof.
  induction cbs as [|cb cbs IH]; [done|].
  destruct cb; try exact IH. cbn. f_equal. exact IH.
Qed.

Lemma names_of_cons (v : Val) (vs : list Val) : names_of (v :: vs) = names_of [v] ++ names_of vs.
Proof. by destruct v. Qed.

Lemma picked_well_behaved (us : list User) (dist : list float) (random : float) :
  Forall (behaved 0) us ->
  well_behaved 0 (val_of_picked (Distribution.pickGremlin (VFun <$> us) dist random)).
Proof.
  intros Hus.
  destruct (DistributionFacts.pickGremlin_in_range (VFun <$> us) dist random)
    as [-> | (i & g & _ & Hg & ->)]; [by right|].
  cbn. rewrite list_lookup_fmap in Hg.
  destruct (us !! i) as [u|] eqn:E; [|done]. injection Hg as <-.
  left. exists u. split; [done|]. by apply (Forall_lookup_1 _ _ _ _ Hus E).
Qed.

(** [executeNext(gremlin, i, callback)] for a step that takes place, up to
    the first call of [iterator]. *)
Lemma dist_executeNext_step (s gc : loc) cfg dist n g i k t sc ar ce sg (nx : loc) d h sp mg tr :
  sg !! s = Some cfg -> stopped cfg = false -> i < n ->
  let done := VDistDone s gc dist n nx in
  dist_executeNext s gc dist n g i (mkState k t sc ar ce sg nx d h sp mg tr)
  = mkState (Iterate 0 (S (S (S nx))) (S (S nx)) done :: k) t sc
      (<[S (S nx) := [VNext 0 (S (S (S nx))) (S (S nx)) done]]>
         (<[S (S (S nx)) := [g]]> (<[S (S nx) := []]> (<[S nx := [g]]> ar))))
      (<[nx := i]> ce) sg (S (S (S (S nx)))) d h sp mg (tr ++ [EStep s i]).
Proof.
  intros Hs Hst Hi done.
  unfold dist_executeNext. expose. rewrite Hs. expose. rewrite Hst.
  destruct (n <=? i) eqn:E; [apply Nat.leb_le in E; lia|].
  unfold executeInSeries. expose.
  rewrite lookup_insert_eq. expose. rewrite lookup_insert_ne by lia.
  rewrite lookup_insert_eq. reflexivity.
Qed.

(** The steps from [i] on, the gremlin of step [i] being picked already. *)
Lemma dist_run (s gc : loc) (cfg : Strategy) (dist : list float) (us : list User)
    (dn : User) (n : nat) :
  Forall (behaved 0) us -> u_body dn = [] ->
  stopped cfg = false -> doneCallback cfg = VFun dn ->
  forall j i, i + j = n ->
  forall g k sc ar ce sg (nx : loc) d h sp mg tr,
    well_behaved 0 g -> inert k -> sg !! s = Some cfg ->
    ar !! gc = Some (VFun <$> us) -> gc < nx ->
    exists st',
      reaches (dist_executeNext s gc dist n g i (mkState k [] sc ar ce sg nx d h sp mg tr)) st' /\
      final st' /\
      calls (trace st')
        = calls tr ++ names_of (match j with
                                | O => []
                                | S j' => g :: drawn (VFun <$> us) dist d j'
                                end) ++ [u_name dn] /\
      steps s (trace st') = steps s tr ++ seq i j.
Proof.
  intros Hus Hdn Hst Hdc. induction j as [|j IH];
    intros i Hij g k sc ar ce sg nx d h sp mg tr Hg Hk Hs Hgc Hlt.
  - eexists. split; [|split; [|split]].
    + unfold dist_executeNext. expose. rewrite Hs. expose. rewrite Hst.
      replace (n <=? i) with true by (symmetry; apply Nat.leb_le; lia).
      eapply reaches_trans; [by eapply callDone_runs|].
      apply inert_unwinds, Hk.
    + apply final_idle.
    + cbn [trace]. by rewrite calls_app.
    + cbn [trace]. rewrite steps_app. cbn. by rewrite !app_nil_r.
  - set (done := VDistDone s gc dist n nx).
    set (next := VNext 0 (S (S (S nx))) (S (S nx)) done).
    set (ar1 := <[S (S nx) := [next]]>
                  (<[S (S (S nx)) := [g]]> (<[S (S nx) := []]> (<[S nx := [g]]> ar)))).
    set (g' := val_of_picked
                 (Distribution.pickGremlin (VFun <$> us) dist (default 0%float (head d)))).
    destruct (iterator_runs 0 (S (S (S nx))) (S (S nx)) done [] [g]
                ltac:(lia) eq_refl (Forall_cons_2 _ _ _ Hg (Forall_nil_2 _)) eq_refl
                k sc ar1 (<[nx := i]> ce) sg (S (S (S (S nx)))) d h sp mg (tr ++ [EStep s i]) Hk)
      as (k1 & sc1 & Hk1 & Hr).
    { unfold ar1. rewrite lookup_insert_ne by lia. by rewrite lookup_insert_eq. }
    { unfold ar1. by rewrite lookup_insert_eq. }
    assert (Hgc1 : <[S (S (S nx)) := []]> ar1 !! gc = Some (VFun <$> us)).
    { unfold ar1. by rewrite !lookup_insert_ne by lia. }
    destruct (IH (S i) ltac:(lia) g' [] (tail sc1) (<[S (S (S nx)) := []]> ar1)
                (<[nx := S i]> (<[nx := i]> ce)) sg (S (S (S (S nx)))) (tail d) h sp mg
                ((tr ++ [EStep s i]) ++ invocations [g] ([] ++ [next])))
      as (st' & Hr' & Hf & Hc & Hsteps);
      [by apply picked_well_behaved|constructor|done|done|lia|].
    exists st'. split; [|split; [done|split]].
    + rewrite (dist_executeNext_step s gc cfg) by (done || lia).
      eapply reaches_trans; [exact Hr|].
      advance.
      eapply reaches_trans; [apply inert_unwinds, Hk1|].
      eapply reaches_step; [apply step_single_timer|].
      advance. rewrite Hgc1. expose. rewrite lookup_insert_eq. expose. exact Hr'.
    + rewrite Hc, !calls_app, calls_invocations_names.
      rewrite (names_of_cons g (drawn (VFun <$> us) dist d j)).
      replace (drawn (VFun <$> us) dist d j)
        with (match j with
              | O => []
              | S j' => g' :: drawn (VFun <$> us) dist (tail d) j'
              end) by (by destruct j).
      cbn [calls omap app]. rewrite <- !app_assoc. reflexivity.
    + rewrite Hsteps, !steps_app, steps_invocations. cbn.
      rewrite Nat.eqb_refl, app_nil_r, <- !app_assoc. reflexivity.
Qed.

(** *** The three strategies, from their call *)

(** The repetition count of the amended claim: the [nb] of the parameters
    when there is one and it is not 0, the configured one otherwise. *)
Definition repetitions (params : Val) (cfg : Strategy) : nat :=
  match params with
  | VParams (Some (S m)) => S m
  | _ => nb cfg
  end.

Lemma resolve_nb_repetitions (params : Val) (cfg : Strategy) :
  resolve_nb params (nb cfg) = repetitions params cfg.
Proof. destruct params as [|[[|m]|]| | | | | | | | | | | | | | | | |]; reflexivity. Qed.

(** The weights of a run: the configured ones, the uniform ones when none
    is configured. *)
Definition weights (cfg : Strategy) (gremlins : list Val) : list float :=
  match distribution cfg with
  | [] => Distribution.getUniformDistribution gremlins
  | d => d
  end.

(** What a run of [n] repetitions hands to the sequencer, and the gremlins
    it enters. *)
Definition expected_steps (k : Kind) (n : nat) (us : list User) : list nat :=
  match k with
  | BySpecies => concat (replicate (length us) (seq 0 n))
  | _ => seq 0 n
  end.

Definition expected_calls (cfg : Strategy) (n : nat) (us : list User) (ds : list float)
  : list string :=
  match kind cfg with
  | AllTogether => concat (replicate n (u_name <$> us))
  | BySpecies => flat_map (fun u => replicate n (u_name u)) us
  | Distributed => names_of (drawn (VFun <$> us) (weights cfg (VFun <$> us)) ds n)
  end.

Lemma strategy_runs (s gl : loc) (cfg : Strategy) (us : list User) (params : Val) (dn : User)
    sc ar ce sg (nx : loc) d h sp mg tr :
  sg !! s = Some cfg -> ar !! gl = Some (VFun <$> us) -> gl < nx ->
  Forall (behaved 0) us -> u_body dn = [] ->
  let n := repetitions params cfg in
  exists st',
    reaches (mkState [Call (VStrategy s) [VArray gl; params; VFun dn]] [] sc ar ce sg nx d h sp mg tr)
      st' /\
    final st' /\
    steps s (trace st') = steps s tr ++ expected_steps (kind cfg) n us /\
    calls (trace st') = calls tr ++ expected_calls cfg n us d ++ [u_name dn].
Proof.
  intros Hs Hgl Hlt Hus Hdn n.
  set (cfg' := set_doneCallback (VFun dn) (set_stopped false cfg)).
  destruct (kind cfg) eqn:Hk.
  - (* allTogether *)
    destruct (waves_run s gl cfg' us dn n Hus Hdn eq_refl eq_refl n 0 eq_refl
                [] sc ar ce (<[s := cfg']> (<[s := set_stopped false cfg]> sg)) nx d h sp mg tr)
      as (st' & Hr & Hf & Hc & Hsteps); [constructor|by rewrite lookup_insert_eq|done|done|].
    exists st'. split; [|split; [done|split]].
    + advance. rewrite Hs. expose. rewrite Hk.
      unfold allTogetherStrategy. expose. rewrite Hs. expose. rewrite lookup_insert_eq. expose.
      rewrite resolve_nb_repetitions. exact Hr.
    + rewrite Hsteps. reflexivity.
    + rewrite Hc. unfold expected_calls. by rewrite Hk.
  - (* bySpecies *)
    destruct (species_run s nx cfg' dn n Hdn eq_refl eq_refl us Hus
                [] sc (<[nx := VFun <$> us]> ar) ce
                (<[s := cfg']> (<[s := set_stopped false cfg]> sg)) (S nx) d h sp mg tr)
      as (st' & Hr & Hf & Hc & Hsteps);
      [constructor|by rewrite lookup_insert_eq|by rewrite lookup_insert_eq|lia|].
    exists st'. split; [|split; [done|split]].
    + advance. rewrite Hs. expose. rewrite Hk.
      unfold bySpeciesStrategy. expose. rewrite Hgl. expose. rewrite Hs. expose.
      rewrite lookup_insert_eq. expose.
      rewrite resolve_nb_repetitions. exact Hr.
    + rewrite Hsteps. reflexivity.
    + rewrite Hc. unfold expected_calls. by rewrite Hk.
  - (* distribution *)
    destruct n as [|j] eqn:Hn.
    + (* the configured count is 0: done at once *)
      eexists. split; [|split; [|split]].
      * advance. rewrite Hs. expose. rewrite Hk.
        unfold distributionRun. expose. rewrite Hgl. expose. rewrite Hs. expose.
        rewrite resolve_nb_repetitions. fold n. rewrite Hn. cbn [Nat.eqb]. expose.
        advance. rewrite Hdn. cbn [map]. expose. apply reaches_refl.
      * apply final_idle.
      * cbn [trace]. rewrite steps_app. reflexivity.
      * cbn [trace]. rewrite calls_app. unfold expected_calls. by rewrite Hk.
    + set (dist := weights cfg (VFun <$> us)).
      set (g := val_of_picked
                  (Distribution.pickGremlin (VFun <$> us) dist (default 0%float (head d)))).
      destruct (dist_run s nx cfg' dist us dn (S j) Hus Hdn eq_refl eq_refl (S j) 0 eq_refl
                  g [] sc (<[nx := VFun <$> us]> ar) ce
                  (<[s := cfg']> (<[s := set_stopped false cfg]> sg)) (S nx) (tail d) h sp mg tr)
        as (st' & Hr & Hf & Hc & Hsteps);
        [by apply picked_well_behaved|constructor|by rewrite lookup_insert_eq
        |by rewrite lookup_insert_eq|lia|].
      exists st'. split; [|split; [done|split]].
      * advance. rewrite Hs. expose. rewrite Hk.
        unfold distributionRun. expose. rewrite Hgl. expose. rewrite Hs. expose.
        rewrite resolve_nb_repetitions. fold n. rewrite Hn. cbn [Nat.eqb]. expose.
        rewrite lookup_insert_eq. expose. rewrite lookup_insert_eq. expose.
        exact Hr.
      * rewrite Hsteps. reflexivity.
      * rewrite Hc. unfold expected_calls. by rewrite Hk.
Qed.

(** C4, amended: a strategy called in an idle machine over gremlins that
    are each synchronous or asynchronous runs to its end; the number of its
    repetitions (waves for allTogether, invocations of each gremlin for
    bySpecies, steps for distribution) is the [nb] of the parameters when
    they have one that is not 0, and the configured [nb] otherwise, which
    the factories set to 100, 200 and 1000. *)
Theorem repetitions_follow_nb (st : State) (s gl : loc) (cfg : Strategy) (us : list User)
    (params : Val) (dn : User) :
  stack st = [] -> timers st = [] ->
  strategies st !! s = Some cfg -> arrays st !! gl = Some (VFun <$> us) ->
  gl < next_loc st ->
  Forall (behaved 0) us -> u_body dn = [] ->
  let n := repetitions params cfg in
  let start := push (Call (VStrategy s) [VArray gl; params; VFun dn]) st in
  (exists fuel st',
      (forall m, fuel <= m -> run m start = st') /\ final st' /\
      steps s (trace st') = steps s (trace st) ++ expected_steps (kind cfg) n us /\
      calls (trace st') = calls (trace st) ++ expected_calls cfg n us (draws st) ++ [u_name dn])
  /\ nb allTogether = 100 /\ nb bySpecies = 200 /\ nb distributionStrategy = 1000.
Proof.
  destruct st as [k t sc ar ce sg nx d h sp mg tr]. cbn [stack timers strategies arrays next_loc].
  intros -> -> Hs Hgl Hlt Hus Hdn. split; [|done].
  destruct (strategy_runs s gl cfg us params dn sc ar ce sg nx d h sp mg tr Hs Hgl Hlt Hus Hdn)
    as (st' & Hr & Hf & Hsteps & Hc).
  destruct (reaches_final _ _ Hr Hf) as (fuel & Hfuel).
  exists fuel, st'. repeat split; done.
Qed.

(** A strategy instance at location 6 over the gremlins at location 5. *)
Definition arena (k : Strategy) (gs : list User) (ds : list float) : State :=
  mkState [] [] [] (<[5 := VFun <$> gs]> (arrays (initial [] [] [] []))) ∅ {[ 6 := k ]} 7 ds
    (mkHorde 0 1 2 3 4) [] [] [].

Definition attack (k : Strategy) (gs : list User) (params : Val) (ds : list float) : State :=
  push (Call (VStrategy 6) [VArray 5; params; VFun (plain "done")]) (arena k gs ds).

Lemma repetitions_follow_nb_witness :
  let st := arena bySpecies demo_users [] in
  let n := repetitions (VParams (Some 2)) bySpecies in
  let start := push (Call (VStrategy 6) [VArray 5; VParams (Some 2); VFun demo_done]) st in
  (exists fuel st',
      (forall m, fuel <= m -> run m start = st') /\ final st' /\
      steps 6 (trace st') = steps 6 (trace st) ++ expected_steps (kind bySpecies) n demo_users /\
      calls (trace st')
        = calls (trace st) ++ expected_calls bySpecies n demo_users (draws st) ++ [u_name demo_done])
  /\ nb allTogether = 100 /\ nb bySpecies = 200 /\ nb distributionStrategy = 1000.
Proof.
  apply (repetitions_follow_nb (arena bySpecies demo_users []) 6 5 bySpecies demo_users
           (VParams (Some 2)) demo_done);
    [reflexivity|reflexivity|reflexivity|reflexivity|cbn; lia|exact demo_behaved|reflexivity].
Defined.

(** The two runs of the specification: allTogether with [nb = 3] over two
    gremlins, bySpecies with [nb = 2]. *)
Example allTogether_three_waves :
  calls (trace (run 200 (attack allTogether [plain "G1"; plain "G2"] (VParams (Some 3)) [])))
  = ["G1"; "G2"; "G1"; "G2"; "G1"; "G2"; "done"]%string.
Proof. vm_compute. reflexivity. Qed.

Example bySpecies_two_each :
  calls (trace (run 200 (attack bySpecies [plain "G1"; plain "G2"] (VParams (Some 2)) [])))
  = ["G1"; "G1"; "G2"; "G2"; "done"]%string.
Proof. vm_compute. reflexivity. Qed.

(** C4 as stated fails at [nb: 0]: the parameters have an [nb] field, and
    allTogether and bySpecies do not run 0 repetitions but their configured
    100 and 200, for [0] is falsy in [params.nb ? params.nb : config.nb]. *)
Lemma nb_zero_runs_the_default :
  let ran k fuel := run fuel (attack k [plain "G"] (VParams (Some 0)) []) in
  (final (ran allTogether 1000) /\
   length (steps 6 (trace (ran allTogether 1000))) = 100) /\
  (final (ran bySpecies 2500) /\
   length (steps 6 (trace (ran bySpecies 2500))) = 200).
Proof. vm_compute. repeat split. Qed.

End StrategyFacts.

(** ** The strategies: stopping *)

Module StopFacts.
Import Engine EngineFacts StrategyFacts.

(** *** One task of the sequencer, whatever else is pending *)

(** From [iterator(callbacksCopy, args)] the task either reaches the call
    of [done], or ends with the continuation handed to a timer and the
    callbacks [rest] still in the copy. *)
Lemma segment (len : nat) (copy al : loc) (done : Val) (vs cbs : list Val) :
  copy <> al -> is_function done = true ->
  Forall (well_behaved len) cbs -> len = length vs ->
  forall k T sc ar ce sg (nx : loc) d h sp mg tr,
    inert k -> ar !! copy = Some cbs ->
    ar !! al = Some (vs ++ [VNext len copy al done]) ->
    exists pre rest,
      cbs = pre ++ rest /\
      ((rest = [] /\ exists k', inert k' /\
          reaches (mkState (Iterate len copy al done :: k) T sc ar ce sg nx d h sp mg tr)
            (mkState (Call done [] :: k') T sc (<[copy := []]> ar) ce sg nx d h sp mg
               (tr ++ invocations pre (vs ++ [VNext len copy al done]))))
       \/ (pre <> [] /\
          reaches (mkState (Iterate len copy al done :: k) T sc ar ce sg nx d h sp mg tr)
            (mkState [] (T ++ [(0, VNext len copy al done)]) sc (<[copy := rest]> ar)
               ce sg nx d h sp mg
               (tr ++ invocations pre (vs ++ [VNext len copy al done]))))).
Proof.
  intros Hne Hdone Hwb Hlen.
  induction Hwb as [|cb cbs Hcb Hwb IH];
    intros k T sc ar ce sg nx d h sp mg tr Hk Hcopy Hal.
  - exists [], []. split; [done|]. left. split; [done|]. exists k. split; [done|].
    advance. unfold iterator. expose. rewrite Hcopy, Hdone. expose.
    rewrite insert_id by done. rewrite app_nil_r. apply reaches_refl.
  - set (next := VNext len copy al done) in *.
    assert (Hal' : <[copy := cbs]> ar !! al = Some (vs ++ [next]))
      by (by rewrite lookup_insert_ne).
    assert (Hcopy' : <[copy := cbs]> ar !! copy = Some cbs)
      by (by rewrite lookup_insert_eq).
    (* the first statement of the task: the callback is shifted and called *)
    assert (Hfirst :
      falsy cb = false ->
      reaches (mkState (Iterate len copy al done :: k) T sc ar ce sg nx d h sp mg tr)
              (mkState (Call cb (vs ++ [next]) :: SyncTest cb len copy al done :: k) T sc
                 (<[copy := cbs]> ar) ce sg nx d h sp mg tr) ).
    { intros Hf. advance. unfold iterator. expose. rewrite Hcopy. expose. rewrite Hf.
      rewrite Hal'. expose. apply reaches_refl. }
    destruct Hcb as [(u & -> & [[Hl Hb]|[Hl [Hb|Hb]]])|[-> Hz]].
    + (* synchronous *)
      destruct (IH k T sc (<[copy := cbs]> ar) ce sg nx d h sp mg
                  (tr ++ [ECall (u_name u) (vs ++ [next])]) Hk Hcopy' Hal')
        as (pre & rest & -> & Hcase).
      exists (VFun u :: pre), rest. split; [done|].
      assert (Hhead : reaches
                (mkState (Iterate len copy al done :: k) T sc ar ce sg nx d h sp mg tr)
                (mkState (Iterate len copy al done :: k) T sc (<[copy := pre ++ rest]> ar)
                   ce sg nx d h sp mg (tr ++ [ECall (u_name u) (vs ++ [next])]))).
      { eapply reaches_trans; [by apply Hfirst|].
        advance. rewrite Hb. cbn [map]. expose.
        advance. rewrite Hl, Nat.eqb_refl. expose. apply reaches_refl. }
      destruct Hcase as [(-> & k' & Hk' & Hr)|(Hpre & Hr)]; [left|right].
      * split; [done|]. exists k'. split; [done|].
        eapply reaches_trans; [exact Hhead|].
        rewrite insert_insert_eq in Hr. cbn [invocations omap]. rewrite <- app_assoc in Hr.
        exact Hr.
      * split; [done|].
        eapply reaches_trans; [exact Hhead|].
        rewrite insert_insert_eq in Hr. cbn [invocations omap]. rewrite <- app_assoc in Hr.
        exact Hr.
    + (* asynchronous, resumed at once *)
      assert (Hin : inert (SyncTest (VFun u) len copy al done :: k)).
      { constructor; [|done]. cbn. rewrite Hl. lia. }
      destruct (IH (SyncTest (VFun u) len copy al done :: k) T sc (<[copy := cbs]> ar)
                  ce sg nx d h sp mg (tr ++ [ECall (u_name u) (vs ++ [next])]) Hin Hcopy' Hal')
        as (pre & rest & -> & Hcase).
      exists (VFun u :: pre), rest. split; [done|].
      assert (Hhead : reaches
                (mkState (Iterate len copy al done :: k) T sc ar ce sg nx d h sp mg tr)
                (mkState (Iterate len copy al done :: SyncTest (VFun u) len copy al done :: k)
                   T sc (<[copy := pre ++ rest]> ar)
                   ce sg nx d h sp mg (tr ++ [ECall (u_name u) (vs ++ [next])]))).
      { eapply reaches_trans; [by apply Hfirst|].
        advance. rewrite Hb. cbn [map]. expose.
        advance. rewrite trailing_next by (by rewrite Hl, Hlen).
        advance. apply reaches_refl. }
      destruct Hcase as [(-> & k' & Hk' & Hr)|(Hpre & Hr)]; [left|right].
      * split; [done|]. exists k'. split; [done|].
        eapply reaches_trans; [exact Hhead|].
        rewrite insert_insert_eq in Hr. cbn [invocations omap]. rewrite <- app_assoc in Hr.
        exact Hr.
      * split; [done|].
        eapply reaches_trans; [exact Hhead|].
        rewrite insert_insert_eq in Hr. cbn [invocations omap]. rewrite <- app_assoc in Hr.
        exact Hr.
    + (* asynchronous, resumed from a later task: the task ends here *)
      exists [VFun u], cbs. split; [done|]. right. split; [done|].
      eapply reaches_trans; [by apply Hfirst|].
      advance. rewrite Hb. cbn [map]. expose.
      advance. rewrite trailing_next by (by rewrite Hl, Hlen).
      apply (inert_unwinds (SyncTest (VFun u) len copy al done :: k)).
      constructor; [|done]. cbn. rewrite Hl. lia.
    + (* the no-op *)
      destruct (IH k T sc (<[copy := cbs]> ar) ce sg nx d h sp mg tr Hk Hcopy' Hal')
        as (pre & rest & -> & Hcase).
      exists (VNoop :: pre), rest. split; [done|].
      assert (Hhead : reaches
                (mkState (Iterate len copy al done :: k) T sc ar ce sg nx d h sp mg tr)
                (mkState (Iterate len copy al done :: k) T sc (<[copy := pre ++ rest]> ar)
                   ce sg nx d h sp mg tr)).
      { eapply reaches_trans; [by apply Hfirst|].
        advance. advance. rewrite Hz. cbn [Nat.eqb]. expose. apply reaches_refl. }
      destruct Hcase as [(-> & k' & Hk' & Hr)|(Hpre & Hr)]; [left|right].
      * split; [done|]. exists k'. split; [done|].
        eapply reaches_trans; [exact Hhead|].
        rewrite insert_insert_eq in Hr. exact Hr.
      * split; [done|].
        eapply reaches_trans; [exact Hhead|].
        rewrite insert_insert_eq in Hr. exact Hr.
Qed.

(** *** Observations on traces *)

Lemma stops_app (s : loc) (t1 t2 : list Event) : stops s (t1 ++ t2) = stops s t1 + stops s t2.
Proof. unfold stops. by rewrite List.filter_app, length_app. Qed.

Lemma dones_app (name : string) (t1 t2 : list Event) :
  dones name (t1 ++ t2) = dones name t1 + dones name t2.
Proof. unfold dones. by rewrite List.filter_app, length_app. Qed.

Lemma after_stop_app_none (s : loc) (t1 t2 : list Event) :
  stops s t1 = 0 -> after_stop s (t1 ++ t2) = after_stop s t2.
Proof.
  induction t1 as [|e t1 IH]; [done|]. unfold stops. cbn.
  destruct (is_stop s e); [done|]. exact IH.
Qed.

Lemma after_stop_app_some (s : loc) (t1 t2 : list Event) :
  stops s t1 <> 0 -> after_stop s (t1 ++ t2) = after_stop s t1 ++ t2.
Proof.
  induction t1 as [|e t1 IH]; [done|]. unfold stops. cbn.
  destruct (is_stop s e); [done|]. exact IH.
Qed.

Lemma steps_after_stop (s : loc) (t : list Event) :
  steps s t = [] -> steps s (after_stop s t) = [].
Proof.
  induction t as [|e t IH]; [done|]. intros H.
  change (e :: t) with ([e] ++ t) in H. rewrite steps_app in H.
  apply app_eq_nil in H as [_ H]. cbn. destruct (is_stop s e); [done|by apply IH].
Qed.

(** Events that are no step leave the trace quiet after the stop. *)
Lemma quiet_app (s : loc) (t evs : list Event) :
  steps s evs = [] -> steps s (after_stop s t) = [] -> steps s (after_stop s (t ++ evs)) = [].
Proof.
  intros Hevs Ht. destruct (decide (stops s t = 0)) as [H|H].
  - rewrite after_stop_app_none by done. by apply steps_after_stop.
  - rewrite after_stop_app_some by done. by rewrite steps_app, Ht, Hevs.
Qed.

(** A step before any stop leaves it quiet too. *)
Lemma quiet_step (s : loc) (t evs : list Event) (i : nat) :
  stops s t = 0 -> steps s evs = [] ->
  steps s (after_stop s (t ++ EStep s i :: evs)) = [].
Proof.
  intros Ht Hevs. rewrite after_stop_app_none by done. cbn.
  by apply steps_after_stop.
Qed.

Lemma stops_invocations (s : loc) (cbs vs : list Val) : stops s (invocations cbs vs) = 0.
Proof.
  induction cbs as [|cb cbs IH]; [done|].
  destruct cb; exact IH.
Qed.

Lemma dones_invocations (name : string) (cbs : list Val) (v : Val) (vs : list Val) :
  dones name (invocations cbs (v :: vs)) = 0.
Proof.
  induction cbs as [|cb cbs IH]; [done|].
  destruct cb; exact IH.
Qed.

(** *** The event loop takes a task *)

Lemma step_dispatch T sc ar ce sg (nx : loc) d h sp mg tr :
  T <> [] ->
  exists j del v,
    T !! j = Some (del, v) /\
    step (mkState [] T sc ar ce sg nx d h sp mg tr)
    = Some (mkState [Call v []] (delete j T) (tail sc) ar ce sg nx d h sp mg tr).
Proof.
  intros HT. unfold step, dispatch. cbn [stack timers sched].
  set (j := match sc with [] => 0 | m :: _ => m mod length T end).
  assert (Hj : j < length T).
  { unfold j. destruct sc as [|m sc'].
    - destruct T; [done|]. cbn. lia.
    - apply Nat.mod_upper_bound. by destruct T. }
  destruct (lookup_lt_is_Some_2 T j Hj) as [[del v] Hv].
  exists j, del, v. split; [done|]. rewrite Hv. by destruct T.
Qed.

Ltac fields :=
  cbn [stack timers sched arrays cells strategies next_loc draws horde species
       mogwais trace] in *.

(** *** What is pending between two tasks of a run *)

Section Stopping.
(** The strategy instance, the completion callback of its run, the number
    of repetitions of the run and the number of [stop()] calls made from
    outside. *)
Variable s : loc.
Variable dn : User.
Variable n : nat.
Variable calls_of_stop : nat.
Hypothesis dn_body : u_body dn = [].

(** The function a continuation of the strategies hands to [setTimeout]. *)
Definition timer_of (done : Val) : option Val :=
  match done with
  | VWaveDone s' g n' c => Some (VWaveTimer s' g n' c)
  | VSpeciesDone s' gc n' g c => Some (VSpeciesTimer s' gc n' g c)
  | VDistDone s' gc dist n' c => Some (VDistTimer s' gc dist n' c)
  | _ => None
  end.

(** The array of gremlins a timer function will read. *)
Definition reads (v : Val) : option loc :=
  match v with
  | VWaveTimer _ (VArray gl) _ _ => Some gl
  | VSpeciesTimer _ gc _ _ _ => Some gc
  | VDistTimer _ gc _ _ _ => Some gc
  | _ => None
  end.

(** A timer function of this run finds what it needs: its counter, below
    the number of repetitions, and an array of gremlins that are each
    synchronous or asynchronous. *)
Definition timer_ok (ar : gmap loc (list Val)) (ce : gmap loc nat) (nx : loc) (v : Val) : Prop :=
  match v with
  | VWaveTimer s' (VArray gl) n' c =>
      s' = s /\ n' = n /\ gl < nx /\
      (exists cbs, ar !! gl = Some cbs /\ Forall (well_behaved 0) cbs) /\
      (exists i, ce !! c = Some i /\ i < n)
  | VSpeciesTimer s' gc n' g c =>
      s' = s /\ n' = n /\ gc < nx /\
      (exists cbs, ar !! gc = Some cbs /\ Forall (well_behaved 0) cbs) /\
      well_behaved 0 g /\
      (exists i, ce !! c = Some i /\ i < n)
  | VDistTimer s' gc dist n' c =>
      s' = s /\ n' = n /\ gc < nx /\
      (exists us, ar !! gc = Some (VFun <$> us) /\ Forall (behaved 0) us) /\
      (exists i, ce !! c = Some i /\ i < n)
  | _ => False
  end.

(** The one pending function that carries the run on: a timer function, or
    the continuation of a sequencer pass over what is left of its copy. *)
Definition chain_ok (ar : gmap loc (list Val)) (ce : gmap loc nat) (nx : loc) (v : Val) : Prop :=
  match v with
  | VNext len copy al done =>
      len = 0 /\ copy <> al /\ ar !! al = Some [VNext 0 copy al done] /\
      (exists rest, ar !! copy = Some rest /\ Forall (well_behaved 0) rest) /\
      exists tm, timer_of done = Some tm /\ timer_ok ar ce nx tm /\ reads tm <> Some copy
  | _ => timer_ok ar ce nx v
  end.

Definition is_chain (v : Val) : bool :=
  match v with
  | VStop _ | VCallDone _ => false
  | _ => true
  end.

Definition task_ok (ar : gmap loc (list Val)) (ce : gmap loc nat) (nx : loc) (v : Val) : Prop :=
  v = VStop s \/ v = VCallDone s \/ chain_ok ar ce nx v.

(** An upper bound of the tasks a pending function still causes. *)
Definition timer_weight (ar : gmap loc (list Val)) (ce : gmap loc nat) (v : Val) : nat :=
  match v with
  | VWaveTimer _ (VArray gl) _ c =>
      1 + (n - S (default 0 (ce !! c))) * S (length (default [] (ar !! gl)))
  | VSpeciesTimer _ gc _ _ c =>
      1 + 2 * (n - S (default 0 (ce !! c))) + 2 * n * length (default [] (ar !! gc))
  | VDistTimer _ _ _ _ c =>
      1 + 2 * (n - S (default 0 (ce !! c)))
  | _ => 0
  end.

Definition weight (ar : gmap loc (list Val)) (ce : gmap loc nat) (v : Val) : nat :=
  match v with
  | VStop _ => 2
  | VCallDone _ => 1
  | VNext _ copy _ done =>
      1 + length (default [] (ar !! copy))
        + timer_weight ar ce (default VUndefined (timer_of done))
  | _ => timer_weight ar ce v
  end.

Definition total (ar : gmap loc (list Val)) (ce : gmap loc nat) (T : list (nat * Val)) : nat :=
  sum_list (weight ar ce <$> T.*2).

Definition chains (T : list (nat * Val)) : nat :=
  length (List.filter is_chain T.*2).

Definition pending_stops (T : list (nat * Val)) : nat :=
  length (List.filter (fun v => match v with VStop _ => true | _ => false end) T.*2).

(** The state between two tasks of the run. *)
Record between (st : State) : Prop := {
  bt_stack : stack st = [];
  bt_tasks : Forall (task_ok (arrays st) (cells st) (next_loc st)) (timers st).*2;
  bt_one : chains (timers st) <= 1;
  bt_stops : stops s (trace st) + pending_stops (timers st) = calls_of_stop;
  bt_quiet : steps s (after_stop s (trace st)) = [];
  bt_cfg : exists cfg,
      strategies st !! s = Some cfg /\
      (doneCallback cfg = VFun dn /\ dones (u_name dn) (trace st) = 0 \/
       doneCallback cfg = VUndefined /\ dones (u_name dn) (trace st) = 1) /\
      (stopped cfg = false -> stops s (trace st) = 0) /\
      (doneCallback cfg = VFun dn ->
       if stopped cfg then VCallDone s ∈ (timers st).*2 else chains (timers st) = 1)
}.

(** The measures over the pending functions, piecewise. *)
Lemma total_app ar ce T1 T2 : total ar ce (T1 ++ T2) = total ar ce T1 + total ar ce T2.
Proof. unfold total. induction T1 as [|[??] T1 IH]; [done|]. cbn in *. lia. Qed.

Lemma total_cons ar ce del v T : total ar ce ((del, v) :: T) = weight ar ce v + total ar ce T.
Proof. done. Qed.

Lemma chains_app T1 T2 : chains (T1 ++ T2) = chains T1 + chains T2.
Proof. unfold chains. by rewrite fmap_app, List.filter_app, length_app. Qed.

Lemma chains_cons del v T :
  chains ((del, v) :: T) = (if is_chain v then 1 else 0) + chains T.
Proof. unfold chains. cbn. by destruct (is_chain v). Qed.

Lemma pending_stops_app T1 T2 : pending_stops (T1 ++ T2) = pending_stops T1 + pending_stops T2.
Proof. unfold pending_stops. by rewrite fmap_app, List.filter_app, length_app. Qed.

Lemma pending_stops_cons del v T :
  pending_stops ((del, v) :: T)
  = (match v with VStop _ => 1 | _ => 0 end) + pending_stops T.
Proof. unfold pending_stops. cbn. by destruct v. Qed.

(** With no function of the chain among them, the pending functions do not
    depend on the store. *)
Lemma others_ok ar ce nx ar' ce' nx' T :
  chains T = 0 -> Forall (task_ok ar ce nx) T.*2 ->
  Forall (task_ok ar' ce' nx') T.*2 /\ total ar' ce' T = total ar ce T.
Proof.
  induction T as [|[del v] T IH]; [done|].
  rewrite chains_cons, fmap_cons, Forall_cons. cbn [snd]. intros Hc [Hv HT].
  destruct (is_chain v) eqn:E; [lia|].
  destruct (IH ltac:(lia) HT) as [IH1 IH2].
  split.
  - constructor; [|done]. destruct Hv as [->|[->|Hv]]; [by left|by right; left|].
    by destruct v.
  - rewrite !total_cons, IH2. f_equal. by destruct v.
Qed.

Lemma stops_stop (t : list Event) : stops s (t ++ [EStop s]) = S (stops s t).
Proof. rewrite stops_app. unfold stops at 2. cbn. rewrite Nat.eqb_refl. cbn. lia. Qed.

Lemma dones_done (t : list Event) :
  dones (u_name dn) (t ++ [ECall (u_name dn) []]) = S (dones (u_name dn) t).
Proof.
  rewrite dones_app. unfold dones at 2. cbn.
  rewrite bool_decide_eq_true_2 by done. cbn. lia.
Qed.

(** *** The tasks of a run, one by one *)


(** [stop()]: the flag is set and [callDone] is left to a timer. *)
Lemma task_stop T1 T2 del sc sc' ar ce sg nx d h sp mg tr :
  between (mkState [] (T1 ++ (del, VStop s) :: T2) sc ar ce sg nx d h sp mg tr) ->
  exists st',
    reaches (mkState [Call (VStop s) []] (T1 ++ T2) sc' ar ce sg nx d h sp mg tr) st' /\
    between st' /\
    total (arrays st') (cells st') (timers st') < total ar ce (T1 ++ (del, VStop s) :: T2).
Proof.
  intros [_ Htasks Hone Hstops Hq (cfg & Hcfg & Hdone & Hnostop & Hlive)]. fields.
  exists (mkState [] ((T1 ++ T2) ++ [(4, VCallDone s)]) sc' ar ce
            (<[s := set_stopped true cfg]> sg) nx d h sp mg (tr ++ [EStop s])).
  split; [|split].
  - advance. unfold stop. expose. rewrite Hcfg. cbn [default]. apply reaches_refl.
  - rewrite !fmap_app, !fmap_cons, !Forall_app, ?Forall_cons in Htasks.
    rewrite !chains_app, chains_cons in Hone.
    rewrite pending_stops_app, pending_stops_cons in Hstops.
    constructor; fields.
    + done.
    + rewrite !fmap_app, !Forall_app. cbn. split_and!; try tauto.
      constructor; [|done]. right. by left.
    + rewrite !chains_app, chains_cons. cbn [is_chain] in *.
      change (chains []) with 0. lia.
    + rewrite stops_stop, !pending_stops_app, pending_stops_cons.
      change (pending_stops []) with 0. lia.
    + apply quiet_app; [|done]. cbn. done.
    + exists (set_stopped true cfg). rewrite lookup_insert_eq. cbn. split_and!; try done.
      * rewrite dones_app. unfold dones at 2 4. cbn. rewrite !Nat.add_0_r. done.
      * intros _. rewrite !fmap_app. cbn. set_solver.
  - fields. rewrite !total_app, !total_cons. cbn [weight].
    change (total ar ce []) with 0. lia.
Qed.

(** [callDone()]: the callback is entered if it is still there, and
    forgotten. *)
Lemma callDone_settles cfg T sc ar ce sg nx d h sp mg tr :
  sg !! s = Some cfg ->
  doneCallback cfg = VFun dn /\ dones (u_name dn) tr = 0 \/
  doneCallback cfg = VUndefined /\ dones (u_name dn) tr = 1 ->
  exists tr',
    reaches (callDone s (mkState [] T sc ar ce sg nx d h sp mg tr))
      (mkState [] T sc ar ce (<[s := set_doneCallback VUndefined cfg]> sg) nx d h sp mg tr') /\
    dones (u_name dn) tr' = 1 /\ stops s tr' = stops s tr /\
    (steps s (after_stop s tr) = [] -> steps s (after_stop s tr') = []).
Proof.
  intros Hcfg [[Hd Hn]|[Hd Hn]].
  - exists (tr ++ [ECall (u_name dn) []]). split_and!.
    + by apply callDone_runs.
    + rewrite dones_done. lia.
    + rewrite stops_app. unfold stops at 2. cbn. lia.
    + by apply quiet_app.
  - exists tr. split_and!; try done.
    unfold callDone. expose. rewrite Hcfg. cbn [default]. rewrite Hd. cbn [is_function].
    expose. advance. rewrite Hcfg. apply reaches_refl.
Qed.

Lemma task_callDone T1 T2 del sc sc' ar ce sg nx d h sp mg tr :
  between (mkState [] (T1 ++ (del, VCallDone s) :: T2) sc ar ce sg nx d h sp mg tr) ->
  exists st',
    reaches (mkState [Call (VCallDone s) []] (T1 ++ T2) sc' ar ce sg nx d h sp mg tr) st' /\
    between st' /\
    total (arrays st') (cells st') (timers st') < total ar ce (T1 ++ (del, VCallDone s) :: T2).
Proof.
  intros [_ Htasks Hone Hstops Hq (cfg & Hcfg & Hdone & Hnostop & Hlive)]. fields.
  destruct (callDone_settles cfg (T1 ++ T2) sc' ar ce sg nx d h sp mg tr Hcfg Hdone)
    as (tr' & Hrun & Hd' & Hs' & Hq').
  eexists. split; [|split].
  - advance. exact Hrun.
  - rewrite !fmap_app, !fmap_cons, !Forall_app, ?Forall_cons in Htasks.
    rewrite !chains_app, chains_cons in Hone.
    rewrite pending_stops_app, pending_stops_cons in Hstops.
    constructor; fields.
    + done.
    + rewrite !fmap_app, !Forall_app. tauto.
    + rewrite !chains_app. lia.
    + rewrite Hs', pending_stops_app. lia.
    + auto.
    + exists (set_doneCallback VUndefined cfg). rewrite lookup_insert_eq.
      cbn [doneCallback stopped set_doneCallback]. split_and!; try done.
      * by right.
      * rewrite Hs'. done.
  - fields. rewrite !total_app, !total_cons. cbn [weight]. lia.
Qed.

(** *** The sequencer between two timers *)

Lemma timer_ok_insert ar ce nx tm copy x :
  timer_ok ar ce nx tm -> reads tm <> Some copy ->
  timer_ok (<[copy := x]> ar) ce nx tm /\
  timer_weight (<[copy := x]> ar) ce tm = timer_weight ar ce tm.
Proof.
  destruct tm; try done; cbn.
  - destruct tm; try done. intros (-> & -> & Hlt & Hcbs & Hi) Hne.
    rewrite lookup_insert_ne by congruence. done.
  - intros (-> & -> & Hlt & Hcbs & Hg & Hi) Hne.
    rewrite lookup_insert_ne by congruence. done.
  - intros (-> & -> & Hlt & Hcbs & Hi) Hne.
    rewrite lookup_insert_ne by congruence. done.
Qed.

Lemma timer_is_chain ar ce nx tm : timer_ok ar ce nx tm -> is_chain tm = true.
Proof. by destruct tm. Qed.

Lemma timer_chain_ok ar ce nx tm : timer_ok ar ce nx tm -> chain_ok ar ce nx tm.
Proof. by destruct tm. Qed.

Lemma timer_weight_weight ar ce nx tm : timer_ok ar ce nx tm -> weight ar ce tm = timer_weight ar ce tm.
Proof. by destruct tm. Qed.

(** The continuation of a strategy leaves its timer function to
    [setTimeout]. *)
Lemma done_sets_timer done tm cfg k T sc ar ce sg nx d h sp mg tr :
  sg !! s = Some cfg -> timer_of done = Some tm -> timer_ok ar ce nx tm ->
  step (mkState (Call done [] :: k) T sc ar ce sg nx d h sp mg tr)
  = Some (mkState k (T ++ [(delay cfg, tm)]) sc ar ce sg nx d h sp mg tr).
Proof.
  intros Hcfg Htm Hok.
  destruct done; try done; injection Htm as <-.
  - destruct done; try done. destruct Hok as (-> & _).
    rewrite step_stack. unfold exec, call. expose. by rewrite Hcfg.
  - destruct Hok as (-> & _).
    rewrite step_stack. unfold exec, call. expose. by rewrite Hcfg.
  - destruct Hok as (-> & _).
    rewrite step_stack. unfold exec, call. expose. by rewrite Hcfg.
Qed.

(** One task of the sequencer: it goes through callbacks until one of them
    leaves the continuation to a timer, or until the strategy's own timer is
    set. *)
Lemma pass copy al done cfg T sc ar ce sg nx d h sp mg tr :
  sg !! s = Some cfg ->
  chain_ok ar ce nx (VNext 0 copy al done) ->
  exists st',
    reaches (mkState [Iterate 0 copy al done] T sc ar ce sg nx d h sp mg tr) st' /\
    stack st' = [] /\ strategies st' = sg /\
    (exists del v,
        timers st' = T ++ [(del, v)] /\ is_chain v = true /\
        chain_ok (arrays st') (cells st') (next_loc st') v /\
        weight (arrays st') (cells st') v < weight ar ce (VNext 0 copy al done)) /\
    (exists evs,
        trace st' = tr ++ evs /\ steps s evs = [] /\ stops s evs = 0 /\
        dones (u_name dn) evs = 0).
Proof.
  intros Hcfg (_ & Hne & Hal & (cbs & Hcopy & Hcbs) & tm & Htm & Hok & Hreads).
  assert (Hfun : is_function done = true) by (by destruct done).
  destruct (segment 0 copy al done [] cbs Hne Hfun Hcbs eq_refl [] T sc ar ce sg nx d h
              sp mg tr (Forall_nil_2 _) Hcopy Hal)
    as (pre & rest & -> & [(-> & k' & Hk' & Hrun)|(Hpre & Hrun)]).
  - destruct (timer_ok_insert ar ce nx tm copy [] Hok Hreads) as [Hok' Hw'].
    eexists. split; [|split_and!].
    + eapply reaches_trans; [exact Hrun|].
      eapply reaches_step; [by eapply done_sets_timer|].
      by apply inert_unwinds.
    + done.
    + done.
    + exists (delay cfg), tm. fields. split_and!; [done|exact (timer_is_chain _ _ _ _ Hok)| |].
      * by apply timer_chain_ok.
      * rewrite (timer_weight_weight _ _ _ _ Hok'), Hw'. cbn [weight].
        rewrite Htm. cbn -[Nat.add Nat.mul Nat.sub]. lia.
    + eexists. fields. split_and!; [done|apply steps_invocations|apply stops_invocations|].
      apply dones_invocations.
  - destruct (timer_ok_insert ar ce nx tm copy rest Hok Hreads) as [Hok' Hw'].
    apply Forall_app in Hcbs as [_ Hrest].
    eexists. split; [exact Hrun|split_and!].
    + done.
    + done.
    + exists 0, (VNext 0 copy al done). fields. split_and!; [done|done| |].
      * cbn [chain_ok]. split_and!; [done|done|by rewrite lookup_insert_ne| |].
        -- exists rest. by rewrite lookup_insert_eq.
        -- by exists tm.
      * cbn [weight]. rewrite Htm. cbn -[Nat.add Nat.mul Nat.sub]. rewrite Hw', lookup_insert_eq, Hcopy.
        cbn -[Nat.add Nat.mul Nat.sub]. rewrite length_app. destruct pre; [done|]. cbn [length]. lia.
    + eexists. fields. split_and!; [done|apply steps_invocations|apply stops_invocations|].
      apply dones_invocations.
Qed.

(** *** What a task of the chain leaves behind *)

Lemma chain_task ar ce nx v : task_ok ar ce nx v -> is_chain v = true -> chain_ok ar ce nx v.
Proof. by intros [->|[->|H]]. Qed.

Lemma chain_weight ar ce nx v : chain_ok ar ce nx v -> 0 < weight ar ce v.
Proof.
  destruct v; try done; cbn -[Nat.mul]; try (intros _; lia).
  destruct v; try done. intros _. apply Nat.lt_0_succ.
Qed.

Lemma chain_not_stop v : is_chain v = true -> match v with VStop _ => 1 | _ => 0 end = 0.
Proof. by destruct v. Qed.

Lemma chain_elsewhere (T1 T2 : list (nat * Val)) (del : nat) (v w : Val) :
  is_chain v = true -> is_chain w = false ->
  w ∈ (T1 ++ (del, v) :: T2).*2 -> w ∈ (T1 ++ T2).*2.
Proof.
  intros Hv Hw. rewrite !fmap_app, fmap_cons, !elem_of_app, elem_of_cons. cbn [snd].
  intros [H|[->|H]]; [by left|congruence|by right].
Qed.

(** The task of the chain is gone and the run is stopped. *)
Lemma halt T1 T2 del v cfg sc ar ce sg nx d h sp mg tr sc' ar' ce' nx' d' :
  between (mkState [] (T1 ++ (del, v) :: T2) sc ar ce sg nx d h sp mg tr) ->
  is_chain v = true -> sg !! s = Some cfg -> stopped cfg = true ->
  between (mkState [] (T1 ++ T2) sc' ar' ce' sg nx' d' h sp mg tr) /\
  total ar' ce' (T1 ++ T2) < total ar ce (T1 ++ (del, v) :: T2).
Proof.
  intros [_ Htasks Hone Hstops Hq (cfg' & Hcfg' & Hdone & Hnostop & Hlive)] Hv Hcfg Hst.
  fields. assert (cfg' = cfg) as -> by congruence.
  rewrite !fmap_app, !fmap_cons, !Forall_app, ?Forall_cons in Htasks.
  destruct Htasks as (H1 & Hv' & H2). cbn [snd] in Hv'.
  rewrite !chains_app, chains_cons, Hv in Hone.
  rewrite pending_stops_app, pending_stops_cons in Hstops.
  assert (Hnone : chains (T1 ++ T2) = 0) by (rewrite chains_app; lia).
  destruct (others_ok ar ce nx ar' ce' nx' (T1 ++ T2) Hnone) as [Hok Htot].
  { rewrite fmap_app, Forall_app. done. }
  split.
  - constructor; fields; try done.
    + lia.
    + rewrite pending_stops_app. rewrite (chain_not_stop v Hv) in Hstops. lia.
    + exists cfg. split_and!; try done. intros Hd. specialize (Hlive Hd).
      rewrite Hst in *. by apply chain_elsewhere in Hlive.
  - rewrite Htot, !total_app, total_cons.
    pose proof (chain_weight _ _ _ _ (chain_task _ _ _ _ Hv' Hv)). lia.
Qed.

(** The task of the chain ends the run. *)
Lemma finish T1 T2 del v cfg sc ar ce sg nx d h sp mg tr sc' ar' ce' nx' d' :
  between (mkState [] (T1 ++ (del, v) :: T2) sc ar ce sg nx d h sp mg tr) ->
  is_chain v = true -> sg !! s = Some cfg ->
  exists st',
    reaches (callDone s (mkState [] (T1 ++ T2) sc' ar' ce' sg nx' d' h sp mg tr)) st' /\
    between st' /\
    total (arrays st') (cells st') (timers st') < total ar ce (T1 ++ (del, v) :: T2).
Proof.
  intros [_ Htasks Hone Hstops Hq (cfg' & Hcfg' & Hdone & Hnostop & Hlive)] Hv Hcfg.
  fields. assert (cfg' = cfg) as -> by congruence.
  rewrite !fmap_app, !fmap_cons, !Forall_app, ?Forall_cons in Htasks.
  destruct Htasks as (H1 & Hv' & H2). cbn [snd] in Hv'.
  rewrite !chains_app, chains_cons, Hv in Hone.
  rewrite pending_stops_app, pending_stops_cons in Hstops.
  assert (Hnone : chains (T1 ++ T2) = 0) by (rewrite chains_app; lia).
  destruct (others_ok ar ce nx ar' ce' nx' (T1 ++ T2) Hnone) as [Hok Htot].
  { rewrite fmap_app, Forall_app. done. }
  destruct (callDone_settles cfg (T1 ++ T2) sc' ar' ce' sg nx' d' h sp mg tr Hcfg Hdone)
    as (tr' & Hrun & Hd' & Hs' & Hq').
  eexists. split; [exact Hrun|]. split.
  - constructor; fields; try done.
    + lia.
    + rewrite Hs', pending_stops_app. rewrite (chain_not_stop v Hv) in Hstops. lia.
    + auto.
    + exists (set_doneCallback VUndefined cfg). rewrite lookup_insert_eq.
      cbn [doneCallback stopped set_doneCallback]. split_and!; try done.
      * by right.
      * by rewrite Hs'.
  - fields. rewrite Htot, !total_app, total_cons.
    pose proof (chain_weight _ _ _ _ (chain_task _ _ _ _ Hv' Hv)). lia.
Qed.

(** The task of the chain leaves the next one. *)
Lemma carry T1 T2 del v sc ar ce sg nx d h sp mg tr st' del' v' evs :
  between (mkState [] (T1 ++ (del, v) :: T2) sc ar ce sg nx d h sp mg tr) ->
  is_chain v = true ->
  stack st' = [] -> strategies st' = sg ->
  timers st' = (T1 ++ T2) ++ [(del', v')] -> is_chain v' = true ->
  chain_ok (arrays st') (cells st') (next_loc st') v' ->
  weight (arrays st') (cells st') v' < weight ar ce v ->
  trace st' = tr ++ evs -> stops s evs = 0 -> dones (u_name dn) evs = 0 ->
  steps s (after_stop s (tr ++ evs)) = [] ->
  between st' /\
  total (arrays st') (cells st') (timers st') < total ar ce (T1 ++ (del, v) :: T2).
Proof.
  intros [_ Htasks Hone Hstops Hq (cfg & Hcfg & Hdone & Hnostop & Hlive)] Hv.
  destruct st' as [k' T' sc' ar' ce' sg' nx' d' h' sp' mg' tr']. fields.
  intros -> -> -> Hv' Hok' Hw -> Hevs Hdn Hq'.
  rewrite !fmap_app, !fmap_cons, !Forall_app, ?Forall_cons in Htasks.
  destruct Htasks as (H1 & Hvok & H2). cbn [snd] in Hvok.
  rewrite !chains_app, chains_cons, Hv in Hone.
  rewrite pending_stops_app, pending_stops_cons in Hstops.
  assert (Hnone : chains (T1 ++ T2) = 0) by (rewrite chains_app; lia).
  destruct (others_ok ar ce nx ar' ce' nx' (T1 ++ T2) Hnone) as [Hok Htot].
  { rewrite fmap_app, Forall_app. done. }
  split.
  - constructor; fields; try done.
    + rewrite fmap_app, Forall_app. split; [done|]. constructor; [|done].
      right. by right.
    + rewrite chains_app, chains_cons, Hv', Hnone. change (chains []) with 0. lia.
    + rewrite stops_app, Hevs, !pending_stops_app, pending_stops_cons.
      change (pending_stops []) with 0.
      rewrite (chain_not_stop v Hv) in Hstops. rewrite (chain_not_stop v' Hv'). lia.
    + exists cfg. rewrite dones_app, Hdn, stops_app, Hevs, !Nat.add_0_r.
      split_and!; try done. intros Hd. specialize (Hlive Hd).
      destruct (stopped cfg).
      * apply chain_elsewhere in Hlive; [|done|done].
        rewrite fmap_app. apply elem_of_app. by left.
      * rewrite chains_app, chains_cons, Hv', Hnone. done.
  - rewrite (total_app _ _ (T1 ++ T2)), total_cons, Htot, !total_app, total_cons.
    change (total ar' ce' []) with 0. lia.
Qed.

(** A pass of the sequencer as part of a task of the chain. *)
Lemma new_pass T1 T2 del v cfg sc ar ce sg nx d h sp mg tr
    copy al done evs0 sc2 ar2 ce2 nx2 d2 :
  between (mkState [] (T1 ++ (del, v) :: T2) sc ar ce sg nx d h sp mg tr) ->
  is_chain v = true -> sg !! s = Some cfg ->
  chain_ok ar2 ce2 nx2 (VNext 0 copy al done) ->
  weight ar2 ce2 (VNext 0 copy al done) <= weight ar ce v ->
  stops s evs0 = 0 -> dones (u_name dn) evs0 = 0 ->
  steps s (after_stop s (tr ++ evs0)) = [] ->
  exists st',
    reaches (mkState [Iterate 0 copy al done] (T1 ++ T2) sc2 ar2 ce2 sg nx2 d2 h sp mg
               (tr ++ evs0)) st' /\
    between st' /\
    total (arrays st') (cells st') (timers st') < total ar ce (T1 ++ (del, v) :: T2).
Proof.
  intros Hbt Hv Hcfg Hok Hw Hs0 Hd0 Hq0.
  destruct (pass copy al done cfg (T1 ++ T2) sc2 ar2 ce2 sg nx2 d2 h sp mg (tr ++ evs0)
              Hcfg Hok)
    as (st' & Hrun & Hstack & Hsg & (del' & v' & HT & Hv' & Hok' & Hw') &
        evs & Htr & Hsteps & Hstops & Hdones).
  exists st'. split; [done|].
  eapply (carry T1 T2 del v sc ar ce sg nx d h sp mg tr st' del' v' (evs0 ++ evs));
    try done.
  - lia.
  - by rewrite app_assoc.
  - rewrite stops_app. lia.
  - rewrite dones_app. lia.
  - rewrite app_assoc. by apply quiet_app.
Qed.

(** The continuation of the sequencer, called from a timer. *)
Lemma task_next len copy al done T1 T2 del sc sc' ar ce sg nx d h sp mg tr :
  let v := VNext len copy al done in
  between (mkState [] (T1 ++ (del, v) :: T2) sc ar ce sg nx d h sp mg tr) ->
  exists st',
    reaches (mkState [Call v []] (T1 ++ T2) sc' ar ce sg nx d h sp mg tr) st' /\
    between st' /\
    total (arrays st') (cells st') (timers st') < total ar ce (T1 ++ (del, v) :: T2).
Proof.
  intros v Hbt.
  pose proof (bt_tasks _ Hbt) as Htasks. pose proof (bt_quiet _ Hbt) as Hq.
  destruct (bt_cfg _ Hbt) as (cfg & Hcfg & _). fields.
  rewrite !fmap_app, !fmap_cons, !Forall_app, ?Forall_cons in Htasks.
  destruct Htasks as (_ & Hv & _). cbn [snd] in Hv.
  apply chain_task in Hv; [|done].
  assert (len = 0) as -> by apply Hv.
  destruct (new_pass T1 T2 del v cfg sc ar ce sg nx d h sp mg tr copy al done []
              sc' ar ce nx d Hbt eq_refl Hcfg Hv (le_n _) eq_refl eq_refl)
    as (st' & Hrun & Hbt' & Hlt).
  { by rewrite app_nil_r. }
  exists st'. split; [|done].
  advance. by rewrite app_nil_r in Hrun.
Qed.

Lemma stops_step i evs : stops s (EStep s i :: evs) = stops s evs.
Proof. done. Qed.

Lemma dones_step i evs : dones (u_name dn) (EStep s i :: evs) = dones (u_name dn) evs.
Proof. done. Qed.

(** The timer of allTogether: the next wave, if there is one and the run
    was not stopped. *)
Lemma task_wave g n' c T1 T2 del sc sc' ar ce sg nx d h sp mg tr :
  let v := VWaveTimer s g n' c in
  between (mkState [] (T1 ++ (del, v) :: T2) sc ar ce sg nx d h sp mg tr) ->
  exists st',
    reaches (mkState [Call v []] (T1 ++ T2) sc' ar ce sg nx d h sp mg tr) st' /\
    between st' /\
    total (arrays st') (cells st') (timers st') < total ar ce (T1 ++ (del, v) :: T2).
Proof.
  intros v Hbt. subst v.
  pose proof (bt_tasks _ Hbt) as Htasks. pose proof (bt_quiet _ Hbt) as Hq.
  destruct (bt_cfg _ Hbt) as (cfg & Hcfg & _ & Hnostop & _). fields.
  rewrite !fmap_app, !fmap_cons, !Forall_app, ?Forall_cons in Htasks.
  destruct Htasks as (_ & Hv & _). cbn [snd] in Hv.
  apply chain_task in Hv; [|done].
  destruct g as [| |gl| | | | | | | | | | | | | | | |]; try done.
  destruct Hv as (_ & -> & Hgl & (cbs & Hcbs & Hwb) & i & Hc & Hi).
  pose (v := VWaveTimer s (VArray gl) n c).
  destruct (stopped cfg) eqn:Hst; [|destruct (n <=? S i) eqn:Hn].
  - destruct (halt T1 T2 del v cfg sc ar ce sg nx d h sp mg tr sc' ar (<[c := S i]> ce) nx d
                Hbt eq_refl Hcfg Hst) as [Hbt' Hlt].
    eexists. split; [|split; [exact Hbt'|exact Hlt]].
    advance. rewrite Hc. cbn [from_option]. unfold id, executeNextWave. expose.
    rewrite Hcfg. cbn [from_option]. unfold id. rewrite Hst. apply reaches_refl.
  - destruct (finish T1 T2 del v cfg sc ar ce sg nx d h sp mg tr sc' ar (<[c := S i]> ce) nx d
                Hbt eq_refl Hcfg) as (st' & Hrun & Hbt' & Hlt).
    exists st'. split; [|done].
    advance. rewrite Hc. cbn [from_option]. unfold id, executeNextWave. expose.
    rewrite Hcfg. cbn [from_option]. unfold id. rewrite Hst, Hn. exact Hrun.
  - apply Nat.leb_gt in Hn.
    set (done := VWaveDone s (VArray gl) n nx).
    remember (<[S nx := [VNext 0 (S (S nx)) (S nx) done]]>
                (<[S (S nx) := cbs]> (<[S nx := []]> ar))) as ar2 eqn:Har2.
    remember (<[nx := S i]> (<[c := S i]> ce)) as ce2 eqn:Hce2.
    assert (Hal : ar2 !! S nx = Some [VNext 0 (S (S nx)) (S nx) done]).
    { subst ar2. by rewrite lookup_insert_eq. }
    assert (Hcopy : ar2 !! S (S nx) = Some cbs).
    { subst ar2. by rewrite lookup_insert_ne, lookup_insert_eq by lia. }
    assert (Hgl2 : ar2 !! gl = Some cbs).
    { subst ar2. by rewrite !lookup_insert_ne by lia. }
    assert (Hc2 : ce2 !! nx = Some (S i)).
    { subst ce2. by rewrite lookup_insert_eq. }
    destruct (new_pass T1 T2 del v cfg sc ar ce sg nx d h sp mg tr
                (S (S nx)) (S nx) done [EStep s (S i)] sc' ar2 ce2 (S (S (S nx))) d
                Hbt eq_refl Hcfg) as (st' & Hrun & Hbt' & Hlt).
    + cbn [chain_ok]. split_and!; [done|lia|done| |].
      * by exists cbs.
      * exists (VWaveTimer s (VArray gl) n nx). cbn [timer_of timer_ok reads].
        split_and!; try done; [lia| | |intros [=]; lia].
        -- by exists cbs.
        -- by exists (S i).
    + unfold v, done. cbn [weight timer_of from_option]. unfold id.
      cbn [timer_weight]. rewrite Hcopy, Hgl2, Hc2, Hcbs, Hc. cbn [from_option].
      unfold id. replace (n - S i) with (S (n - S (S i))) by lia.
      rewrite Nat.mul_succ_l. lia.
    + done.
    + done.
    + apply quiet_step; [|done]. by apply Hnostop.
    + exists st'. split; [|done]. subst ar2 ce2.
      advance. rewrite Hc. cbn [from_option]. unfold id.
      by rewrite (executeNextWave_wave s gl cfg cbs).
Qed.

(** The timer of the distribution strategy: the next step, if there is one
    and the run was not stopped. *)
Lemma task_dist gc dist n' c T1 T2 del sc sc' ar ce sg nx d h sp mg tr :
  let v := VDistTimer s gc dist n' c in
  between (mkState [] (T1 ++ (del, v) :: T2) sc ar ce sg nx d h sp mg tr) ->
  exists st',
    reaches (mkState [Call v []] (T1 ++ T2) sc' ar ce sg nx d h sp mg tr) st' /\
    between st' /\
    total (arrays st') (cells st') (timers st') < total ar ce (T1 ++ (del, v) :: T2).
Proof.
  intros v Hbt. subst v.
  pose proof (bt_tasks _ Hbt) as Htasks. pose proof (bt_quiet _ Hbt) as Hq.
  destruct (bt_cfg _ Hbt) as (cfg & Hcfg & _ & Hnostop & _). fields.
  rewrite !fmap_app, !fmap_cons, !Forall_app, ?Forall_cons in Htasks.
  destruct Htasks as (_ & Hv & _). cbn [snd] in Hv.
  apply chain_task in Hv; [|done].
  destruct Hv as (_ & -> & Hgc & (us & Hus & Hwb) & i & Hc & Hi).
  pose (v := VDistTimer s gc dist n c).
  set (g := val_of_picked
              (Distribution.pickGremlin (VFun <$> us) dist (default 0%float (head d)))).
  assert (Hg : well_behaved 0 g) by by apply picked_well_behaved.
  assert (Hcall : exec (Call v []) (mkState [] (T1 ++ T2) sc' ar ce sg nx d h sp mg tr)
                  = dist_executeNext s gc dist n g (S i)
                      (mkState [] (T1 ++ T2) sc' ar (<[c := S i]> ce) sg nx (tail d) h sp mg tr)).
  { unfold exec, call, v. expose. by rewrite Hus, Hc. }
  unfold v in Hcall.
  destruct (stopped cfg) eqn:Hst; [|destruct (n <=? S i) eqn:Hn].
  - destruct (halt T1 T2 del v cfg sc ar ce sg nx d h sp mg tr sc' ar (<[c := S i]> ce) nx
                (tail d) Hbt eq_refl Hcfg Hst) as [Hbt' Hlt].
    eexists. split; [|split; [exact Hbt'|exact Hlt]].
    eapply reaches_step; [apply step_stack|]. rewrite Hcall.
    unfold dist_executeNext. expose.
    rewrite Hcfg. cbn [from_option]. unfold id. rewrite Hst. apply reaches_refl.
  - destruct (finish T1 T2 del v cfg sc ar ce sg nx d h sp mg tr sc' ar (<[c := S i]> ce) nx
                (tail d) Hbt eq_refl Hcfg) as (st' & Hrun & Hbt' & Hlt).
    exists st'. split; [|done].
    eapply reaches_step; [apply step_stack|]. rewrite Hcall.
    unfold dist_executeNext. expose.
    rewrite Hcfg. cbn [from_option]. unfold id. rewrite Hst, Hn. exact Hrun.
  - apply Nat.leb_gt in Hn.
    set (done := VDistDone s gc dist n nx).
    remember (<[S (S nx) := [VNext 0 (S (S (S nx))) (S (S nx)) done]]>
                (<[S (S (S nx)) := [g]]> (<[S (S nx) := []]> (<[S nx := [g]]> ar))))
      as ar2 eqn:Har2.
    remember (<[nx := S i]> (<[c := S i]> ce)) as ce2 eqn:Hce2.
    assert (Hal : ar2 !! S (S nx) = Some [VNext 0 (S (S (S nx))) (S (S nx)) done]).
    { subst ar2. by rewrite lookup_insert_eq. }
    assert (Hcopy : ar2 !! S (S (S nx)) = Some [g]).
    { subst ar2. by rewrite lookup_insert_ne, lookup_insert_eq by lia. }
    assert (Hgc2 : ar2 !! gc = Some (VFun <$> us)).
    { subst ar2. by rewrite !lookup_insert_ne by lia. }
    assert (Hc2 : ce2 !! nx = Some (S i)).
    { subst ce2. by rewrite lookup_insert_eq. }
    destruct (new_pass T1 T2 del v cfg sc ar ce sg nx d h sp mg tr
                (S (S (S nx))) (S (S nx)) done [EStep s (S i)] sc' ar2 ce2
                (S (S (S (S nx)))) (tail d)
                Hbt eq_refl Hcfg) as (st' & Hrun & Hbt' & Hlt).
    + cbn [chain_ok]. split_and!; [done|lia|done| |].
      * exists [g]. split; [done|]. by constructor.
      * exists (VDistTimer s gc dist n nx). cbn [timer_of timer_ok reads].
        split_and!; try done; [lia| | |intros [=]; lia].
        -- by exists us.
        -- by exists (S i).
    + unfold v, done. cbn [weight timer_of from_option]. unfold id.
      cbn [timer_weight]. rewrite Hcopy, Hc2, Hc. cbn [from_option length]. unfold id.
      lia.
    + done.
    + done.
    + apply quiet_step; [|done]. by apply Hnostop.
    + exists st'. split; [|done]. subst ar2 ce2.
      eapply reaches_step; [apply step_stack|]. rewrite Hcall.
      by rewrite (dist_executeNext_step s gc cfg dist).
Qed.

Lemma well_behaved_truthy len g : well_behaved len g -> falsy g = false.
Proof. by intros [(u & -> & _)|[-> _]]. Qed.

(** The timer of bySpecies: the next repetition of the gremlin, or the
    next gremlin, if there is one and the run was not stopped. *)
Lemma task_species gc n' g c T1 T2 del sc sc' ar ce sg nx d h sp mg tr :
  let v := VSpeciesTimer s gc n' g c in
  between (mkState [] (T1 ++ (del, v) :: T2) sc ar ce sg nx d h sp mg tr) ->
  exists st',
    reaches (mkState [Call v []] (T1 ++ T2) sc' ar ce sg nx d h sp mg tr) st' /\
    between st' /\
    total (arrays st') (cells st') (timers st') < total ar ce (T1 ++ (del, v) :: T2).
Proof.
  intros v Hbt. subst v.
  pose proof (bt_tasks _ Hbt) as Htasks. pose proof (bt_quiet _ Hbt) as Hq.
  destruct (bt_cfg _ Hbt) as (cfg & Hcfg & _ & Hnostop & _). fields.
  rewrite !fmap_app, !fmap_cons, !Forall_app, ?Forall_cons in Htasks.
  destruct Htasks as (_ & Hv & _). cbn [snd] in Hv.
  apply chain_task in Hv; [|done].
  destruct Hv as (_ & -> & Hgc & (cbs & Hcbs & Hwb) & Hg & i & Hc & Hi).
  pose (v := VSpeciesTimer s gc n g c).
  pose proof (well_behaved_truthy _ _ Hg) as Hgt.
  assert (Hcall : exec (Call v []) (mkState [] (T1 ++ T2) sc' ar ce sg nx d h sp mg tr)
                  = species_executeNext s gc n g (S i)
                      (mkState [] (T1 ++ T2) sc' ar (<[c := S i]> ce) sg nx d h sp mg tr)).
  { unfold exec, call, v. expose. by rewrite Hc. }
  unfold v in Hcall.
  destruct (stopped cfg) eqn:Hst; [|destruct (n <=? S i) eqn:Hn].
  - destruct (halt T1 T2 del v cfg sc ar ce sg nx d h sp mg tr sc' ar (<[c := S i]> ce) nx
                d Hbt eq_refl Hcfg Hst) as [Hbt' Hlt].
    eexists. split; [|split; [exact Hbt'|exact Hlt]].
    eapply reaches_step; [apply step_stack|]. rewrite Hcall.
    unfold species_executeNext. expose.
    rewrite Hcfg, Hgt. cbn [from_option orb]. unfold id. rewrite Hst. apply reaches_refl.
  - assert (Hnext : reaches
                      (mkState [Call (VSpeciesTimer s gc n g c) []] (T1 ++ T2) sc' ar ce sg nx
                         d h sp mg tr)
                      (executeNextGremlin s gc n
                         (mkState [] (T1 ++ T2) sc' ar (<[c := S i]> ce) sg nx d h sp mg tr))).
    { eapply reaches_step; [apply step_stack|]. rewrite Hcall.
      unfold species_executeNext. expose.
      rewrite Hcfg, Hgt. cbn [from_option orb]. unfold id. rewrite Hst, Hn. expose.
      advance. apply reaches_refl. }
    apply Nat.leb_le in Hn.
    destruct cbs as [|g' rest].
    + destruct (finish T1 T2 del v cfg sc ar ce sg nx d h sp mg tr sc' ar (<[c := S i]> ce)
                  nx d Hbt eq_refl Hcfg) as (st' & Hrun & Hbt' & Hlt).
      exists st'. split; [|done].
      eapply reaches_trans; [exact Hnext|].
      unfold executeNextGremlin. expose.
      rewrite Hcfg. cbn [from_option]. unfold id. rewrite Hst, Hcbs. exact Hrun.
    + apply Forall_cons in Hwb as [Hg' Hrest].
      pose proof (well_behaved_truthy _ _ Hg') as Hgt'.
      set (done := VSpeciesDone s gc n g' nx).
      remember (<[S (S nx) := [VNext 0 (S (S (S nx))) (S (S nx)) done]]>
                  (<[S (S (S nx)) := [g']]> (<[S (S nx) := []]>
                     (<[S nx := [g']]> (<[gc := rest]> ar))))) as ar2 eqn:Har2.
      remember (<[nx := 0]> (<[c := S i]> ce)) as ce2 eqn:Hce2.
      assert (Hal : ar2 !! S (S nx) = Some [VNext 0 (S (S (S nx))) (S (S nx)) done]).
      { subst ar2. by rewrite lookup_insert_eq. }
      assert (Hcopy : ar2 !! S (S (S nx)) = Some [g']).
      { subst ar2. by rewrite lookup_insert_ne, lookup_insert_eq by lia. }
      assert (Hgc2 : ar2 !! gc = Some rest).
      { subst ar2. rewrite !lookup_insert_ne by lia. by rewrite lookup_insert_eq. }
      assert (Hc2 : ce2 !! nx = Some 0).
      { subst ce2. by rewrite lookup_insert_eq. }
      destruct (new_pass T1 T2 del v cfg sc ar ce sg nx d h sp mg tr
                  (S (S (S nx))) (S (S nx)) done [EStep s 0] sc' ar2 ce2
                  (S (S (S (S nx)))) d
                  Hbt eq_refl Hcfg) as (st' & Hrun & Hbt' & Hlt).
      * cbn [chain_ok]. split_and!; [done|lia|done| |].
        -- exists [g']. split; [done|]. by constructor.
        -- exists (VSpeciesTimer s gc n g' nx). cbn [timer_of timer_ok reads].
           split_and!; try done; [lia| | |intros [=]; lia].
           ++ by exists rest.
           ++ exists 0. split; [done|lia].
      * unfold v, done. cbn [weight timer_of from_option]. unfold id.
        cbn [timer_weight]. rewrite Hcopy, Hgc2, Hc2, Hc, Hcbs.
        cbn [from_option length]. unfold id.
        replace (n - S i) with 0 by lia. cbn [length]. rewrite Nat.mul_succ_r.
        generalize (2 * n * length rest). intros m. lia.
      * done.
      * done.
      * apply quiet_step; [|done]. by apply Hnostop.
      * exists st'. split; [|done]. subst ar2 ce2.
        eapply reaches_trans; [exact Hnext|].
        unfold executeNextGremlin. expose.
        rewrite Hcfg. cbn [from_option]. unfold id. rewrite Hst, Hcbs.
        rewrite (species_executeNext_step s gc cfg n g' 0) by (done || lia).
        exact Hrun.
  - apply Nat.leb_gt in Hn.
    set (done := VSpeciesDone s gc n g nx).
    remember (<[S (S nx) := [VNext 0 (S (S (S nx))) (S (S nx)) done]]>
                (<[S (S (S nx)) := [g]]> (<[S (S nx) := []]> (<[S nx := [g]]> ar))))
      as ar2 eqn:Har2.
    remember (<[nx := S i]> (<[c := S i]> ce)) as ce2 eqn:Hce2.
    assert (Hal : ar2 !! S (S nx) = Some [VNext 0 (S (S (S nx))) (S (S nx)) done]).
    { subst ar2. by rewrite lookup_insert_eq. }
    assert (Hcopy : ar2 !! S (S (S nx)) = Some [g]).
    { subst ar2. by rewrite lookup_insert_ne, lookup_insert_eq by lia. }
    assert (Hgc2 : ar2 !! gc = Some cbs).
    { subst ar2. by rewrite !lookup_insert_ne by lia. }
    assert (Hc2 : ce2 !! nx = Some (S i)).
    { subst ce2. by rewrite lookup_insert_eq. }
    destruct (new_pass T1 T2 del v cfg sc ar ce sg nx d h sp mg tr
                (S (S (S nx))) (S (S nx)) done [EStep s (S i)] sc' ar2 ce2
                (S (S (S (S nx)))) d
                Hbt eq_refl Hcfg) as (st' & Hrun & Hbt' & Hlt).
    + cbn [chain_ok]. split_and!; [done|lia|done| |].
      * exists [g]. split; [done|]. by constructor.
      * exists (VSpeciesTimer s gc n g nx). cbn [timer_of timer_ok reads].
        split_and!; try done; [lia| | |intros [=]; lia].
        -- by exists cbs.
        -- by exists (S i).
    + unfold v, done. cbn [weight timer_of from_option]. unfold id.
      cbn [timer_weight]. rewrite Hcopy, Hgc2, Hc2, Hc, Hcbs.
      cbn [from_option length]. unfold id.
      generalize (2 * n * length cbs). intros m. lia.
    + done.
    + done.
    + apply quiet_step; [|done]. by apply Hnostop.
    + exists st'. split; [|done]. subst ar2 ce2.
      eapply reaches_step; [apply step_stack|]. rewrite Hcall.
      by rewrite (species_executeNext_step s gc cfg n g (S i)).
Qed.

(** *** Every run comes to an end *)

(** Whatever the event loop takes next, the tasks that are pending run out,
    and the state between two tasks stays as described. *)
Lemma settles (m : nat) :
  forall st,
    between st -> total (arrays st) (cells st) (timers st) < m ->
    exists st', reaches st st' /\ final st' /\ between st'.
Proof.
  induction m as [|m IH]; intros st Hbt Hm; [lia|].
  destruct st as [k T sc ar ce sg nx d h sp mg tr].
  pose proof (bt_stack _ Hbt) as Hk. fields. subst k.
  destruct T as [|t0 T0] eqn:ET.
  { eexists. split; [apply reaches_refl|]. by split. }
  rewrite <- ET in *. assert (HT : T <> []) by (by rewrite ET). clear ET t0 T0.
  destruct (step_dispatch T sc ar ce sg nx d h sp mg tr HT) as (j & del & v & Hj & Hstep).
  rewrite (delete_take_drop T j) in Hstep.
  rewrite <- (take_drop_middle T j (del, v) Hj) in Hbt, Hm.
  set (T1 := take j T) in *. set (T2 := drop (S j) T) in *.
  pose proof (bt_tasks _ Hbt) as Htasks. fields.
  rewrite !fmap_app, !fmap_cons, !Forall_app, ?Forall_cons in Htasks.
  destruct Htasks as (_ & Hv & _). cbn [snd] in Hv.
  assert (exists st1,
             reaches (mkState [Call v []] (T1 ++ T2) (tail sc) ar ce sg nx d h sp mg tr) st1 /\
             between st1 /\
             total (arrays st1) (cells st1) (timers st1)
             < total ar ce (T1 ++ (del, v) :: T2)) as (st1 & Hrun & Hbt1 & Hlt).
  { destruct Hv as [->|[->|Hv]].
    - by apply task_stop with sc.
    - by apply task_callDone with sc.
    - destruct v; try done.
      + by apply task_next with sc.
      + destruct v; try done. pose proof Hv as (-> & _). by apply task_wave with sc.
      + pose proof Hv as (-> & _). by apply task_species with sc.
      + pose proof Hv as (-> & _). by apply task_dist with sc. }
  destruct (IH st1 Hbt1) as (st' & Hrun' & Hfin & Hbt'); [lia|].
  exists st'. split; [|done].
  eapply reaches_step; [exact Hstep|]. by eapply reaches_trans.
Qed.

(** At the end the callback was entered once, every [stop()] took place
    and no step began after the first of them. *)
Lemma between_final st :
  between st -> final st ->
  dones (u_name dn) (trace st) = 1 /\
  steps s (after_stop s (trace st)) = [] /\
  stops s (trace st) = calls_of_stop.
Proof.
  intros [Hk Htasks Hone Hstops Hq (cfg & Hcfg & Hdone & Hnostop & Hlive)] Hfin.
  destruct st as [k T sc ar ce sg nx d h sp mg tr]. fields. subst k.
  destruct T as [|t0 T]; [|done].
  change (pending_stops []) with 0 in Hstops.
  split_and!; [|done|lia].
  destruct Hdone as [[Hd _]|[_ Hd]]; [|done].
  specialize (Hlive Hd). destruct (stopped cfg).
  - cbn in Hlive. by apply elem_of_nil in Hlive.
  - discriminate Hlive.
Qed.

(** *** The start of a run *)

Lemma after_stop_none (t : list Event) : stops s t = 0 -> after_stop s t = [].
Proof.
  intros H. rewrite <- (app_nil_r t). by rewrite after_stop_app_none.
Qed.

Lemma only_stops (T : list (nat * Val)) ar ce nx :
  T.*2 = replicate calls_of_stop (VStop s) ->
  Forall (task_ok ar ce nx) T.*2 /\ chains T = 0 /\ pending_stops T = calls_of_stop.
Proof.
  unfold chains, pending_stops. intros ->. clear.
  induction calls_of_stop as [|k (IH1 & IH2 & IH3)]; [done|].
  cbn. split_and!; [|done|by rewrite IH3].
  constructor; [by left|done].
Qed.

(** The first pass of the sequencer of a run, the calls of [stop()]
    pending. *)
Lemma started copy al done cfg T sc ar ce sg nx d h sp mg tr :
  sg !! s = Some cfg -> stopped cfg = false -> doneCallback cfg = VFun dn ->
  T.*2 = replicate calls_of_stop (VStop s) ->
  chain_ok ar ce nx (VNext 0 copy al done) ->
  stops s tr = 0 -> dones (u_name dn) tr = 0 ->
  exists st',
    reaches (mkState [Iterate 0 copy al done] T sc ar ce sg nx d h sp mg tr) st' /\
    between st'.
Proof.
  intros Hcfg Hst Hd HT Hok Hs0 Hd0.
  destruct (pass copy al done cfg T sc ar ce sg nx d h sp mg tr Hcfg Hok)
    as (st' & Hrun & Hstack & Hsg & (del' & v' & HT' & Hv' & Hok' & Hw') &
        evs & Htr & Hsteps & Hstops & Hdones).
  exists st'. split; [done|].
  destruct st' as [k' T' sc' ar' ce' sg' nx' d' h' sp' mg' tr']. fields. subst.
  destruct (only_stops T ar' ce' nx' HT) as (Htasks & Hchains & Hpending).
  assert (Hno : stops s (tr ++ evs) = 0) by (rewrite stops_app; lia).
  constructor; fields.
  - done.
  - rewrite fmap_app, Forall_app. split; [done|]. constructor; [|done]. right. by right.
  - rewrite chains_app, chains_cons, Hv', Hchains. change (chains []) with 0. lia.
  - rewrite Hno, pending_stops_app, pending_stops_cons, Hpending.
    change (pending_stops []) with 0. rewrite (chain_not_stop v' Hv'). lia.
  - by rewrite after_stop_none.
  - exists cfg. rewrite Hno, dones_app, Hdones, Hd0, Hst. split_and!; try done.
    + by left.
    + intros _. rewrite chains_app, chains_cons, Hv', Hchains. done.
Qed.

Section Start.
Variable cfg : Strategy.
Hypothesis cfg_stopped : stopped cfg = false.
Hypothesis cfg_done : doneCallback cfg = VFun dn.
Hypothesis some_repetition : 0 < n.

(** allTogether: the first wave. *)
Lemma first_wave gl cbs T sc ar ce sg nx d h sp mg tr :
  sg !! s = Some cfg -> T.*2 = replicate calls_of_stop (VStop s) ->
  ar !! gl = Some cbs -> Forall (well_behaved 0) cbs -> gl < nx ->
  stops s tr = 0 -> dones (u_name dn) tr = 0 ->
  exists st',
    reaches (executeNextWave s (VArray gl) n 0 (mkState [] T sc ar ce sg nx d h sp mg tr)) st' /\
    between st'.
Proof.
  intros Hcfg HT Hcbs Hwb Hgl Hs0 Hd0.
  rewrite (executeNextWave_wave s gl cfg cbs) by done.
  eapply started; try done.
  - cbn [chain_ok]. split_and!; [done|lia| | |].
    + by rewrite lookup_insert_eq.
    + exists cbs. by rewrite lookup_insert_ne, lookup_insert_eq by lia.
    + exists (VWaveTimer s (VArray gl) n nx). cbn [timer_of timer_ok reads].
      split_and!; try done; [lia| | |intros [=]; lia].
      * exists cbs. by rewrite !lookup_insert_ne by lia.
      * exists 0. by rewrite lookup_insert_eq.
  - rewrite stops_app. by rewrite Hs0.
  - rewrite dones_app. by rewrite Hd0.
Qed.

(** bySpecies: the first gremlin, or the end of the run when there is
    none. *)
Lemma first_gremlin gc cbs T sc ar ce sg nx d h sp mg tr :
  sg !! s = Some cfg -> T.*2 = replicate calls_of_stop (VStop s) ->
  ar !! gc = Some cbs -> Forall (well_behaved 0) cbs -> gc < nx ->
  stops s tr = 0 -> dones (u_name dn) tr = 0 ->
  exists st',
    reaches (executeNextGremlin s gc n (mkState [] T sc ar ce sg nx d h sp mg tr)) st' /\
    between st'.
Proof.
  intros Hcfg HT Hcbs Hwb Hgc Hs0 Hd0.
  unfold executeNextGremlin. expose. rewrite Hcfg. cbn [from_option]. unfold id.
  rewrite cfg_stopped, Hcbs.
  destruct cbs as [|g rest].
  - eexists. split; [by eapply callDone_runs|].
    destruct (only_stops T ar ce nx HT) as (Htasks & Hchains & Hpending).
    assert (Hno : stops s (tr ++ [ECall (u_name dn) []]) = 0) by by rewrite stops_app, Hs0.
    constructor; fields; try done.
    + lia.
    + by rewrite Hno.
    + by rewrite after_stop_none.
    + exists (set_doneCallback VUndefined cfg). rewrite lookup_insert_eq.
      cbn [doneCallback stopped set_doneCallback]. split_and!; try done.
      right. rewrite dones_done. split; [done|lia].
  - apply Forall_cons in Hwb as [Hg Hrest].
    expose.
    rewrite (species_executeNext_step s gc cfg n g 0)
      by (done || by eapply well_behaved_truthy).
    eapply started; try done.
    + cbn [chain_ok]. split_and!; [done|lia| | |].
      * by rewrite lookup_insert_eq.
      * exists [g]. rewrite lookup_insert_ne, lookup_insert_eq by lia.
        split; [done|]. by constructor.
      * exists (VSpeciesTimer s gc n g nx). cbn [timer_of timer_ok reads].
        split_and!; try done; [lia| | |intros [=]; lia].
        -- exists rest. rewrite !lookup_insert_ne by lia. by rewrite lookup_insert_eq.
        -- exists 0. by rewrite lookup_insert_eq.
    + rewrite stops_app. by rewrite Hs0.
    + rewrite dones_app. by rewrite Hd0.
Qed.

(** distribution: the first step. *)
Lemma first_pick gc dist us g T sc ar ce sg nx d h sp mg tr :
  sg !! s = Some cfg -> T.*2 = replicate calls_of_stop (VStop s) ->
  ar !! gc = Some (VFun <$> us) -> Forall (behaved 0) us -> gc < nx ->
  well_behaved 0 g ->
  stops s tr = 0 -> dones (u_name dn) tr = 0 ->
  exists st',
    reaches (dist_executeNext s gc dist n g 0 (mkState [] T sc ar ce sg nx d h sp mg tr)) st' /\
    between st'.
Proof.
  intros Hcfg HT Hus Hwb Hgc Hg Hs0 Hd0.
  rewrite (dist_executeNext_step s gc cfg dist n g 0) by done.
  eapply started; try done.
  - cbn [chain_ok]. split_and!; [done|lia| | |].
    + by rewrite lookup_insert_eq.
    + exists [g]. rewrite lookup_insert_ne, lookup_insert_eq by lia.
      split; [done|]. by constructor.
    + exists (VDistTimer s gc dist n nx). cbn [timer_of timer_ok reads].
      split_and!; try done; [lia| | |intros [=]; lia].
      * exists us. by rewrite !lookup_insert_ne by lia.
      * exists 0. by rewrite lookup_insert_eq.
  - rewrite stops_app. by rewrite Hs0.
  - rewrite dones_app. by rewrite Hd0.
Qed.

End Start.

(** The call of the strategy, the calls of [stop()] pending, up to the end
    of its first task. *)
Lemma enters gl cfg us params T sc ar ce sg nx d h sp mg :
  sg !! s = Some cfg -> ar !! gl = Some (VFun <$> us) -> gl < nx ->
  Forall (behaved 0) us ->
  repetitions params cfg = n -> 0 < n ->
  T.*2 = replicate calls_of_stop (VStop s) ->
  exists st',
    reaches (mkState [Call (VStrategy s) [VArray gl; params; VFun dn]] T sc ar ce sg nx d
               h sp mg []) st' /\
    between st'.
Proof.
  intros Hs Hgl Hlt Hus Hn Hpos HT.
  set (cfg' := set_doneCallback (VFun dn) (set_stopped false cfg)).
  pose proof (behaved_well 0 us Hus) as Hwb.
  destruct (kind cfg) eqn:Hk.
  - destruct (first_wave cfg' eq_refl eq_refl Hpos gl (VFun <$> us) T sc ar ce
                (<[s := cfg']> (<[s := set_stopped false cfg]> sg)) nx d h sp mg [])
      as (st' & Hr & Hbt); try done; [by rewrite lookup_insert_eq|].
    exists st'. split; [|done].
    advance. rewrite Hs. expose. rewrite Hk.
    unfold allTogetherStrategy. expose. rewrite Hs. expose. rewrite lookup_insert_eq. expose.
    rewrite resolve_nb_repetitions, Hn. exact Hr.
  - destruct (first_gremlin cfg' eq_refl eq_refl Hpos nx (VFun <$> us) T sc
                (<[nx := VFun <$> us]> ar) ce
                (<[s := cfg']> (<[s := set_stopped false cfg]> sg)) (S nx) d h sp mg [])
      as (st' & Hr & Hbt); try done;
      [by rewrite lookup_insert_eq|by rewrite lookup_insert_eq|lia|].
    exists st'. split; [|done].
    advance. rewrite Hs. expose. rewrite Hk.
    unfold bySpeciesStrategy. expose. rewrite Hgl. expose. rewrite Hs. expose.
    rewrite lookup_insert_eq. expose.
    rewrite resolve_nb_repetitions, Hn. exact Hr.
  - set (dist := weights cfg (VFun <$> us)).
    set (g := val_of_picked
                (Distribution.pickGremlin (VFun <$> us) dist (default 0%float (head d)))).
    destruct (first_pick cfg' eq_refl eq_refl Hpos nx dist us g T sc
                (<[nx := VFun <$> us]> ar) ce
                (<[s := cfg']> (<[s := set_stopped false cfg]> sg)) (S nx) (tail d) h sp mg [])
      as (st' & Hr & Hbt); try done;
      [by rewrite lookup_insert_eq|by rewrite lookup_insert_eq|lia
      |by apply picked_well_behaved|].
    exists st'. split; [|done].
    advance. rewrite Hs. expose. rewrite Hk.
    unfold distributionRun. expose. rewrite Hgl. expose. rewrite Hs. expose.
    rewrite resolve_nb_repetitions, Hn.
    destruct n as [|j]; [lia|]. cbn [Nat.eqb]. expose.
    rewrite lookup_insert_eq. expose. rewrite lookup_insert_eq. expose.
    exact Hr.
Qed.

End Stopping.

(** *** Stopping a run *)

(** A strategy is called in [st], and [stop()] will be called [k] times from
    tasks of their own, which the event loop takes when the schedule [sch]
    says so: before, between or after the timers of the run. *)
Definition stopped_run (st : State) (s gl : loc) (params : Val) (dn : User)
    (k : nat) (sch : list nat) : State :=
  push (Call (VStrategy s) [VArray gl; params; VFun dn])
    (with_sched sch (with_timers (replicate k (0, VStop s)) st)).

(** A strategy of any of the three kinds is called with a completion
    callback in an idle machine, over gremlins that are each synchronous or
    asynchronous, for a number of repetitions that is not 0; [stop()] is
    called [k] times (none, one or several) from tasks that the event loop
    takes at any point of the run, whatever the schedule.  Then the run
    comes to an end, the completion callback is entered exactly once, all
    calls of [stop()] take place and no wave or step begins after the first
    of them. *)
Theorem stop_completes_once (st : State) (s gl : loc) (cfg : Strategy) (us : list User)
    (params : Val) (dn : User) (k : nat) (sch : list nat) :
  stack st = [] -> timers st = [] -> trace st = [] ->
  strategies st !! s = Some cfg -> arrays st !! gl = Some (VFun <$> us) ->
  gl < next_loc st ->
  Forall (behaved 0) us -> u_body dn = [] ->
  0 < repetitions params cfg ->
  exists fuel st',
    (forall m, fuel <= m -> run m (stopped_run st s gl params dn k sch) = st') /\
    final st' /\
    dones (u_name dn) (trace st') = 1 /\
    stops s (trace st') = k /\
    steps s (after_stop s (trace st')) = [].
Proof.
  destruct st as [k0 t sc ar ce sg nx d h sp mg tr].
  unfold stopped_run. cbn [stack timers trace strategies arrays next_loc]. expose.
  intros -> -> -> Hs Hgl Hlt Hus Hdn Hpos.
  destruct (enters s dn (repetitions params cfg) k Hdn gl cfg us params
              (replicate k (0, VStop s)) sch ar ce sg nx d h sp mg)
    as (st1 & Hr1 & Hbt1); try done.
  { by rewrite fmap_replicate. }
  destruct (settles s dn (repetitions params cfg) k Hdn
              (S (total (repetitions params cfg) (arrays st1) (cells st1) (timers st1)))
              st1 Hbt1)
    as (st' & Hr' & Hfin & Hbt'); [lia|].
  destruct (between_final s dn (repetitions params cfg) k st' Hbt' Hfin) as (Hd & Hq & Hk).
  destruct (reaches_final _ _ (reaches_trans _ _ _ Hr1 Hr') Hfin) as (fuel & Hfuel).
  exists fuel, st'. split_and!; done.
Qed.

Lemma stop_completes_once_witness :
  exists fuel st',
    (forall m, fuel <= m ->
       run m (stopped_run (arena bySpecies demo_users []) 6 5 (VParams (Some 2)) demo_done
                2 [1; 0; 2; 0]) = st') /\
    final st' /\
    dones (u_name demo_done) (trace st') = 1 /\
    stops 6 (trace st') = 2 /\
    steps 6 (after_stop 6 (trace st')) = [].
Proof.
  apply (stop_completes_once (arena bySpecies demo_users []) 6 5 bySpecies demo_users
           (VParams (Some 2)) demo_done 2 [1; 0; 2; 0]);
    [reflexivity|reflexivity|reflexivity|reflexivity|reflexivity|cbn; lia
    |exact demo_behaved|reflexivity|cbn; lia].
Defined.

(** Five waves are asked for; [stop()] is called after the second wave and
    once more after the run is over. *)
Example allTogether_stopped :
  let st := run 100 (stopped_run (arena allTogether [plain "G1"; plain "G2"] []) 6 5
                       (VParams (Some 5)) (plain "done") 2 [2; 0; 1; 1]) in
  calls (trace st) = ["G1"; "G2"; "G1"; "G2"; "done"]%string /\
  steps 6 (trace st) = [0; 1] /\ stops 6 (trace st) = 2 /\ timers st = [] /\ stack st = [].
Proof. vm_compute. repeat split. Qed.

End StopFacts.

(** ** A strategy called again from its own completion *)

Module Reentry.
Import Engine.

(** [horde.gremlin(G).mogwai(M)] and [horde.strategy(S)], the latter
    [registered] times with the same strategy instance [S];
    [unleash({ nb: 2 }, done)]
    is about to run, and [stop()] of [S] will be called [stops] times from
    tasks of their own, which the event loop takes when the schedule [sch]
    says so. *)
Definition registered (cfg : Strategy) (registered stops : nat) (sch : list nat) : State :=
  mkState [Unleash (VParams (Some 2)) (VFun (plain "done"))]
    (replicate stops (0, VStop 5)) sch
    (list_to_map [(0, [VFun (plain "G")]); (1, [VFun (plain "M")]);
                  (2, replicate registered (VStrategy 5)); (3, []); (4, [])])
    ∅ {[ 5 := cfg ]} 6 [0.5; 0.5; 0.5; 0.5]%float (mkHorde 0 1 2 3 4) [] [] [].

(** Registered once, the strategy is stopped in its run after the first
    wave or step: no other begins and [done] is entered once.  Registered
    twice, it is called a second time by the sequencer from inside
    [callDone] of its first run, that is inside [doneCallback()]; the
    second run stores its completion callback, and [doneCallback = null]
    of the first run, which comes after the call, wipes it.  The second
    run is stopped after its first wave or step as well: no other begins,
    but no completion callback is entered, and [done] never is.  Without
    any [stop()] the second run makes its two waves or steps and [done] is
    not entered either. *)
Definition loses_done (cfg : Strategy) : Prop :=
  let once := run 400 (registered cfg 1 1 [0]) in
  let twice := run 400 (registered cfg 2 1 [1; 1; 0]) in
  let unstopped := run 400 (registered cfg 2 0 []) in
  (final once /\ steps 5 (trace once) = [0] /\ stops 5 (trace once) = 1 /\
   calls (trace once) = ["M"; "G"; "done"]%string) /\
  (final twice /\ steps 5 (trace twice) = [0; 1; 0] /\ stops 5 (trace twice) = 1 /\
   steps 5 (after_stop 5 (trace twice)) = [] /\
   calls (trace twice) = ["M"; "G"; "G"; "G"]%string /\
   dones "done" (trace twice) = 0) /\
  (final unstopped /\ steps 5 (trace unstopped) = [0; 1; 0; 1] /\
   calls (trace unstopped) = ["M"; "G"; "G"; "G"; "G"]%string /\
   dones "done" (trace unstopped) = 0).

(** C3, at the failing input: a strategy instance that the horde runs a
    second time is mid-run when [stop()] is called; its waves or steps
    stop, but its completion callback is never entered, for each of the
    three strategies. *)
Theorem reentered_strategy_loses_done :
  loses_done allTogether /\ loses_done bySpecies /\ loses_done distributionStrategy.
Proof. vm_compute. repeat split. Qed.

End Reentry.
(** ** The horde *)

Module HordeFacts.
Import Engine EngineFacts.

(** The five registries of a horde are five arrays, made before anything
    else is allocated. *)
Definition registries (h : Horde) : list loc :=
  [_gremlins h; _mogwais h; _strategies h; _beforeCallbacks h; _afterCallbacks h].

Definition horde_ok (st : State) : Prop :=
  NoDup (registries (horde st)) /\
  Forall (fun l => l < next_loc st) (registries (horde st)).

Lemma horde_ok_inv g m s b a n :
  NoDup [g; m; s; b; a] -> Forall (fun l => l < n) [g; m; s; b; a] ->
  (g <> m /\ g <> s /\ g <> b /\ g <> a /\ m <> s /\ m <> b /\ m <> a /\
   s <> b /\ s <> a /\ b <> a) /\
  (g < n /\ m < n /\ s < n /\ b < n /\ a < n).
Proof.
  intros Hnd Hlt.
  repeat (apply NoDup_cons in Hnd as [? Hnd]).
  repeat (apply Forall_cons in Hlt as [? Hlt]).
  repeat split; try done; intros ->; set_solver.
Qed.

(** Reading a registry through the steps of [unleash]. *)
Lemma read_array_push_eq l vs st : read l (array_push l vs st) = read l st ++ vs.
Proof. unfold read, array_push, set_array. cbn. by rewrite lookup_insert_eq. Qed.

Lemma read_array_push_ne l l' vs st : l <> l' -> read l (array_push l' vs st) = read l st.
Proof. intros H. unfold read, array_push, set_array. cbn. by rewrite lookup_insert_ne. Qed.

Lemma read_new_array l vs st : l < next_loc st -> read l (new_array vs st).2 = read l st.
Proof. intros H. unfold read, new_array. cbn. rewrite lookup_insert_ne; [done|lia]. Qed.

Lemma read_new_strategy l x st : read l (new_strategy x st).2 = read l st.
Proof. done. Qed.

Lemma read_emit l e st : read l (emit e st) = read l st.
Proof. done. Qed.

Lemma read_executeInSeries l cbs args done st :
  l < next_loc st -> l <> args ->
  read l (executeInSeries cbs args done st) = read l st.
Proof.
  intros Hl Hne. unfold executeInSeries.
  repeat case_match; try reflexivity.
  unfold new_array in *. simplify_eq. crunch.
  rewrite lookup_insert_ne by lia. rewrite lookup_insert_ne; [done|lia].
Qed.

Lemma strategies_executeInSeries cbs args done st :
  strategies (executeInSeries cbs args done st) = strategies st.
Proof.
  unfold executeInSeries. repeat case_match; try reflexivity.
  unfold new_array in *. simplify_eq. reflexivity.
Qed.

Lemma next_loc_array_push l vs st : next_loc (array_push l vs st) = next_loc st.
Proof. done. Qed.

Lemma horde_array_push l vs st : horde (array_push l vs st) = horde st.
Proof. done. Qed.

Lemma horde_emit e st : horde (emit e st) = horde st.
Proof. done. Qed.

(** One default: fill the registry [l] when it is empty. *)
Definition fill (l : loc) (vs : list Val) (st : State) : State :=
  match read l st with
  | [] => array_push l vs st
  | _ => st
  end.

Definition or_default (found fallback : list Val) : list Val :=
  match found with
  | [] => fallback
  | _ => found
  end.

Lemma read_fill_eq l vs st : read l (fill l vs st) = or_default (read l st) vs.
Proof.
  unfold fill, or_default. destruct (read l st) eqn:E; [|done].
  by rewrite read_array_push_eq, E.
Qed.

Lemma read_fill_ne l l' vs st : l <> l' -> read l (fill l' vs st) = read l st.
Proof.
  intros H. unfold fill. destruct (read l' st); [|done].
  by apply read_array_push_ne.
Qed.

Lemma fill_frame l vs st :
  horde (fill l vs st) = horde st /\ next_loc (fill l vs st) = next_loc st /\
  species (fill l vs st) = species st /\ mogwais (fill l vs st) = mogwais st /\
  strategies (fill l vs st) = strategies st /\ trace (fill l vs st) = trace st.
Proof. unfold fill. by destruct (read l st). Qed.

(** The third default makes a strategy first. *)
Definition fill_strategy (st : State) : State :=
  match read (_strategies (horde st)) st with
  | [] => strategy (VStrategy (new_strategy distributionStrategy st).1)
            (new_strategy distributionStrategy st).2
  | _ => st
  end.

Lemma read_fill_strategy_eq st :
  read (_strategies (horde st)) (fill_strategy st)
  = or_default (read (_strategies (horde st)) st) [VStrategy (next_loc st)].
Proof.
  unfold fill_strategy, or_default. destruct (read _ st) eqn:E; [|done].
  unfold strategy. cbn [new_strategy fst snd horde with_next_loc with_strategies].
  rewrite read_array_push_eq. unfold read in *. cbn. by rewrite E.
Qed.

Lemma read_fill_strategy_ne l st :
  l <> _strategies (horde st) -> read l (fill_strategy st) = read l st.
Proof.
  intros H. unfold fill_strategy. destruct (read _ st); [|done].
  unfold strategy. cbn [new_strategy fst snd horde with_next_loc with_strategies].
  by rewrite read_array_push_ne.
Qed.

Lemma fill_strategy_frame st :
  horde (fill_strategy st) = horde st /\ next_loc st <= next_loc (fill_strategy st) /\
  trace (fill_strategy st) = trace st /\
  (read (_strategies (horde st)) st = [] ->
   strategies (fill_strategy st) !! next_loc st = Some distributionStrategy).
Proof.
  unfold fill_strategy. destruct (read _ st) eqn:E; cbn.
  - repeat split; [lia|]. intros _. by rewrite lookup_insert_eq.
  - repeat split; [lia|done].
Qed.

Lemma defaults_fill st :
  defaults st
  = fill_strategy
      (fill (_mogwais (horde st)) (VFun <$> mogwais st)
         (fill (_gremlins (horde st)) (VFun <$> species st) st)).
Proof.
  unfold defaults.
  change (match read (_gremlins (horde st)) st with
          | [] => allGremlins st
          | _ => st
          end) with (fill (_gremlins (horde st)) (VFun <$> species st) st).
  set (st1 := fill (_gremlins (horde st)) (VFun <$> species st) st).
  destruct (fill_frame (_gremlins (horde st)) (VFun <$> species st) st)
    as (Hh & _ & _ & Hm & _).
  fold st1 in Hh, Hm. rewrite <- Hh, <- Hm. reflexivity.
Qed.

(** What [unleash] hands to [inject], from the registries it finds. *)
Definition targets (st : State) : list Val :=
  let h := horde st in
  (or_default (read (_gremlins h) st) (VFun <$> species st)
     ++ or_default (read (_mogwais h) st) (VFun <$> mogwais st))
    ++ or_default (read (_strategies h) st) [VStrategy (next_loc st)]
    ++ read (_beforeCallbacks h) st ++ read (_afterCallbacks h) st.

(** The registries when [unleash] has made its phases, or when [inject]
    has thrown. *)
Lemma unleash_registries (st : State) (params done : Val) :
  horde_ok st ->
  let h := horde st in
  let st' := unleash params done st in
  let gs := or_default (read (_gremlins h) st) (VFun <$> species st) in
  let ms := or_default (read (_mogwais h) st) (VFun <$> mogwais st) in
  read (_gremlins h) st' = gs /\
  read (_mogwais h) st' = ms /\
  read (_strategies h) st' = or_default (read (_strategies h) st) [VStrategy (next_loc st)] /\
  read (_beforeCallbacks h) st' = read (_beforeCallbacks h) st /\
  (injects (targets st) = true ->
   read (_afterCallbacks h) st' = read (_afterCallbacks h) st ++ cleanUps (gs ++ ms)) /\
  (injects (targets st) = false ->
   read (_afterCallbacks h) st' = read (_afterCallbacks h) st /\
   stack st' = [] /\
   trace st' = trace st ++ [EInject (targets st); EThrow "TypeError"]) /\
  (read (_strategies h) st = [] ->
   strategies st' !! next_loc st = Some distributionStrategy).
Proof.
  intros [Hnd Hlt]. cbv zeta.
  destruct (horde_ok_inv _ _ _ _ _ _ Hnd Hlt)
    as [(Hgm & Hgs & Hgb & Hga & Hms & Hmb & Hma & Hsb & Hsa & Hba)
        (Lg & Lm & Ls & Lb & La)].
  set (st' := unleash params done st).
  set (gs := or_default (read (_gremlins (horde st)) st) (VFun <$> species st)).
  set (ms := or_default (read (_mogwais (horde st)) st) (VFun <$> mogwais st)).
  set (st1 := fill (_gremlins (horde st)) (VFun <$> species st) st).
  set (st2 := fill (_mogwais (horde st)) (VFun <$> mogwais st) st1).
  set (st3 := fill_strategy st2).
  assert (Hd : defaults st = st3) by apply defaults_fill.
  destruct (fill_frame (_gremlins (horde st)) (VFun <$> species st) st)
    as (Hh1 & Hn1 & _ & _ & Hs1 & Ht1).
  destruct (fill_frame (_mogwais (horde st)) (VFun <$> mogwais st) st1)
    as (Hh2 & Hn2 & _ & _ & Hs2 & Ht2).
  destruct (fill_strategy_frame st2) as (Hh3 & Hn3 & Ht3 & Hs3).
  fold st1 in Hh1, Hn1, Hs1, Ht1. fold st2 in Hh2, Hn2, Hs2, Ht2.
  fold st3 in Hh3, Hn3, Hs3, Ht3.
  assert (Hh : horde st3 = horde st) by (by rewrite Hh3, Hh2, Hh1).
  assert (Hn : next_loc st <= next_loc st3) by (rewrite <- Hn1, <- Hn2; exact Hn3).
  assert (Ht : trace st3 = trace st) by (by rewrite Ht3, Ht2, Ht1).
  rewrite Hh2, Hh1 in Hs3. rewrite Hn2, Hn1 in Hs3.
  (* the registries after the defaults *)
  assert (Rg : read (_gremlins (horde st)) st3 = gs).
  { unfold st3. rewrite read_fill_strategy_ne by (rewrite Hh2, Hh1; done).
    unfold st2. rewrite read_fill_ne by done. apply read_fill_eq. }
  assert (Rm : read (_mogwais (horde st)) st3 = ms).
  { unfold st3. rewrite read_fill_strategy_ne by (rewrite Hh2, Hh1; done).
    unfold st2. rewrite read_fill_eq. unfold st1. by rewrite read_fill_ne by done. }
  assert (Rs : read (_strategies (horde st)) st3
               = or_default (read (_strategies (horde st)) st) [VStrategy (next_loc st)]).
  { unfold st3. replace (_strategies (horde st)) with (_strategies (horde st2)) by (by rewrite Hh2, Hh1).
    rewrite read_fill_strategy_eq, Hh2, Hh1, Hn2, Hn1.
    unfold st2. rewrite read_fill_ne by done.
    unfold st1. by rewrite read_fill_ne by done. }
  assert (Rb : read (_beforeCallbacks (horde st)) st3 = read (_beforeCallbacks (horde st)) st).
  { unfold st3. rewrite read_fill_strategy_ne by (rewrite Hh2, Hh1; done).
    unfold st2. rewrite read_fill_ne by done.
    unfold st1. by rewrite read_fill_ne by done. }
  assert (Ra : read (_afterCallbacks (horde st)) st3 = read (_afterCallbacks (horde st)) st).
  { unfold st3. rewrite read_fill_strategy_ne by (rewrite Hh2, Hh1; done).
    unfold st2. rewrite read_fill_ne by done.
    unfold st1. by rewrite read_fill_ne by done. }
  assert (Hall : allCallbacks st3 = targets st).
  { unfold allCallbacks, targets. cbv zeta. rewrite Hh, Rg, Rm, Rs, Rb, Ra. reflexivity. }
  (* through the phases and the first call of the sequencer, or to the
     exception *)
  assert (Hthrough : forall l, l < next_loc st -> l <> _afterCallbacks (horde st) ->
            read l st' = read l st3).
  { intros l Hl Hla. unfold st', unleash. cbv zeta. rewrite Hd.
    destruct (injects (allCallbacks st3)); [|reflexivity].
    rewrite read_executeInSeries.
    - rewrite read_new_array.
      + unfold phases. cbn [fst snd]. rewrite horde_emit, Hh.
        rewrite read_array_push_ne by done.
        rewrite read_new_array; [apply read_emit|]. cbn. lia.
      + unfold phases. cbn. lia.
    - unfold phases. cbn. lia.
    - unfold phases. cbn. lia. }
  split; [by rewrite Hthrough|]. split; [by rewrite Hthrough|].
  split; [by rewrite Hthrough|]. split; [by rewrite Hthrough; rewrite ?Rb|].
  split; [|split].
  - intros Hin. unfold st', unleash. cbv zeta. rewrite Hd, Hall, Hin.
    rewrite read_executeInSeries.
    + rewrite read_new_array.
      * unfold phases. cbn [fst snd]. rewrite horde_emit, Hh.
        rewrite read_array_push_eq.
        rewrite read_new_array by (cbn; lia).
        rewrite !read_emit, Rg, Rm. by rewrite Ra.
      * unfold phases. cbn. lia.
    + unfold phases. cbn. lia.
    + unfold phases. cbn. lia.
  - intros Hin. unfold st', unleash. cbv zeta. rewrite Hd, Hall, Hin.
    split; [exact Ra|]. split; [reflexivity|].
    cbn. rewrite Ht. by rewrite <- app_assoc.
  - intros Hs. unfold st', unleash. cbv zeta. rewrite Hd.
    transitivity (strategies st3 !! next_loc st).
    + destruct (injects (allCallbacks st3)); [|reflexivity].
      rewrite strategies_executeInSeries. reflexivity.
    + apply Hs3. unfold st2. rewrite read_fill_ne by done.
      unfold st1. by rewrite read_fill_ne by done.
Qed.

(** C5: when [unleash] finds the three registries empty, it leaves in the
    gremlin registry what the factories of the species catalog return, in
    the mogwai registry what those of the mogwai catalog return, and in the
    strategy registry one new distribution strategy with the factory's
    configuration; when it finds a gremlin registered, the gremlin registry
    is as it found it. *)
Theorem unleash_defaults (st : State) (params done : Val) :
  horde_ok st ->
  let h := horde st in
  let st' := unleash params done st in
  (read (_gremlins h) st = [] -> read (_mogwais h) st = [] ->
   read (_strategies h) st = [] ->
     read (_gremlins h) st' = VFun <$> species st /\
     read (_mogwais h) st' = VFun <$> mogwais st /\
     read (_strategies h) st' = [VStrategy (next_loc st)] /\
     strategies st' !! next_loc st = Some distributionStrategy)
  /\ (read (_gremlins h) st <> [] -> read (_gremlins h) st' = read (_gremlins h) st).
Proof.
  intros Hok. cbv zeta.
  destruct (unleash_registries st params done Hok) as (Hg & Hm & Hs & _ & _ & _ & Hd).
  cbv zeta in *. split.
  - intros Eg Em Es. rewrite Hg, Hm, Hs, Eg, Em, Es. repeat split. by apply Hd.
  - intros Eg. rewrite Hg. by destruct (read _ st).
Qed.

Lemma initial_ok (sp mg : list User) (rnd : list float) (sch : list nat) :
  horde_ok (initial sp mg rnd sch).
Proof.
  split.
  - apply (bool_decide_unpack _). vm_compute. exact I.
  - repeat constructor.
Defined.

Lemma unleash_defaults_witness :
  let st := initial example_species example_mogwais [] [] in
  let h := horde st in
  let st' := unleash (VParams None) VUndefined st in
  (read (_gremlins h) st = [] -> read (_mogwais h) st = [] ->
   read (_strategies h) st = [] ->
     read (_gremlins h) st' = VFun <$> species st /\
     read (_mogwais h) st' = VFun <$> mogwais st /\
     read (_strategies h) st' = [VStrategy (next_loc st)] /\
     strategies st' !! next_loc st = Some distributionStrategy)
  /\ (read (_gremlins h) st <> [] -> read (_gremlins h) st' = read (_gremlins h) st).
Proof.
  apply (unleash_defaults (initial example_species example_mogwais [] []) (VParams None) VUndefined).
  apply initial_ok.
Defined.

(** A whole default run, [unleash({ nb: 3 }, done)] of a horde with
    nothing registered.  The registries hold the catalogs and one
    distribution strategy to the end; the mogwai is set up, three gremlins
    are drawn, and the clean-up follows. *)
Example unleash_by_default :
  let st := run 1000 (push (Unleash (VParams (Some 3)) (VFun (plain "done")))
                        (initial example_species example_mogwais
                           [0.1%float; 0.5%float; 0.9%float] [])) in
  final st /\
  read 0 st = VFun <$> example_species /\
  read 1 st = VFun <$> example_mogwais /\
  read 2 st = [VStrategy 5] /\
  strategies st !! 5 = Some (set_stopped false distributionStrategy) /\
  calls (trace st) = ["watch"; "quick"; "quick"; "slow"; "watch.cleanUp"; "done"]%string.
Proof. vm_compute. repeat split. Qed.

(** With a gremlin of one's own, the catalog is not consulted. *)
Example unleash_own_gremlin :
  let st := run 1000 (push (Unleash (VParams (Some 2)) (VFun (plain "done")))
                        (array_push 0 [VFun (plain "mine")]
                           (initial example_species example_mogwais [] []))) in
  final st /\ read 0 st = [VFun (plain "mine")] /\
  calls (trace st) = ["watch"; "mine"; "mine"; "watch.cleanUp"; "done"]%string.
Proof. vm_compute. repeat split. Qed.

(** *** The teardown over two runs *)

(** [horde.gremlin(mine).mogwai(probe).after(report)], the probe having a
    [cleanUp]. *)
Definition probe : User := mkUser "probe" 0 [] (Some (plain "probe.cleanUp")).

Definition twice_horde : State :=
  array_push 4 [VFun (plain "report")]
    (array_push 1 [VFun probe]
       (array_push 0 [VFun (plain "mine")] (initial [] [] [] []))).

Definition unleash_again (st : State) : State :=
  run 1000 (push (Unleash (VParams (Some 2)) (VFun (plain "done"))) st).

(** C1, at the failing input: the first run tears down with the after
    callback and then the probe's [cleanUp], once.  [unleash] has pushed
    that [cleanUp] into the registry [_afterCallbacks] itself, and pushes
    it again in the second run: the second teardown enters it twice. *)
Theorem unleash_twice_cleans_twice :
  let first := unleash_again twice_horde in
  let second := unleash_again first in
  final first /\ final second /\
  calls (trace first) = ["probe"; "mine"; "mine"; "report"; "probe.cleanUp"; "done"]%string /\
  read (_afterCallbacks (horde first)) first
    = [VFun (plain "report"); VFun (plain "probe.cleanUp")] /\
  calls (drop (length (trace first)) (trace second))
    = ["probe"; "mine"; "mine"; "report"; "probe.cleanUp"; "probe.cleanUp"; "done"]%string.
Proof. vm_compute. repeat split. Qed.

End HordeFacts.

(** ** The sampling when weights are missing *)

Module WeightFacts.
Import Distribution DistributionFacts.

Section Missing.
Context {G : Type}.
Variable gremlins : list G.
Variable distribution : list float.
Variable random : float.

Lemma pick_loop_nan (todo i : nat) (chance : float) :
  Prim2SF chance = S754_nan ->
  pick_loop gremlins distribution random todo i chance = NoOp.
Proof.
  revert i chance. induction todo as [|todo IH]; intros i chance Hnan; [done|].
  cbn [pick_loop].
  rewrite leb_nan_r by (by apply add_nan_l).
  apply IH. by apply add_nan_l.
Qed.

Lemma pick_loop_weighted (todo i : nat) (chance : float) (g : G) :
  pick_loop gremlins distribution random todo i chance = Gremlin g ->
  exists j, i <= j /\ j < length distribution /\ gremlins !! j = Some g.
Proof.
  revert i chance. induction todo as [|todo IH]; intros i chance; [done|].
  cbn [pick_loop]. unfold weight_at.
  destruct (distribution !! i) as [w|] eqn:Hw.
  - destruct (random <=? chance + w)%float.
    + unfold gremlin_at. destruct (gremlins !! i) as [g'|] eqn:Hg; [|done].
      intros [= ->]. exists i. split; [done|]. split; [|done].
      by apply lookup_lt_Some in Hw.
    + intros H. destruct (IH _ _ H) as (j & Hj & Hlt & Hg). exists j. split; [lia|done].
  - rewrite leb_nan_r by (by apply add_nan_r).
    rewrite pick_loop_nan by (by apply add_nan_r). done.
Qed.
End Missing.

(** A gremlin that [pickGremlin] yields stands at an index that has a
    weight: when the configured weights are fewer than the gremlins, the
    gremlins past the weights are never picked, whatever the draw; no
    exception is raised for them either. *)
Theorem pickGremlin_needs_weight {G} (gremlins : list G) (distribution : list float)
    (random : float) (g : G) :
  pickGremlin gremlins distribution random = Gremlin g ->
  exists i, i < length distribution /\ gremlins !! i = Some g.
Proof.
  intros H. destruct (pick_loop_weighted _ _ _ _ _ _ _ H) as (j & _ & Hlt & Hg).
  by exists j.
Qed.

Lemma pickGremlin_needs_weight_witness :
  exists i, i < length [0.5%float; 0.5%float] /\ [1; 2; 3] !! i = Some 2.
Proof.
  apply (pickGremlin_needs_weight [1; 2; 3] [0.5%float; 0.5%float] 0.6%float 2).
  reflexivity.
Defined.

End WeightFacts.

(** ** The order of the injector's calls *)

Module InjectOrder.
Import Inject.

Section Order.
Context {V W : Type}.

(** The accessors of the targets: the members that are functions under
    the name of a service, target by target in the order of the array and,
    for one target, in the order the services are enumerated. *)
Definition accessors_of (i : nat) (o : Target V W) (services : list (string * V))
  : list (nat * string) :=
  omap (fun s : string * V =>
          match o !! s.1 with
          | Some (Function _) => Some (i, s.1)
          | _ => None
          end) services.

Fixpoint accessors_from (i : nat) (services : list (string * V)) (objects : list (Target V W))
  : list (nat * string) :=
  match objects with
  | [] => []
  | o :: rest => accessors_of i o services ++ accessors_from (S i) services rest
  end.

(** The no-argument calls among the events. *)
Definition probes (evs : list (Event V)) : list (nat * string) :=
  omap (fun e => match e with Probe i name _ => Some (i, name) | _ => None end) evs.

(** The setter calls among the events. *)
Definition installs (evs : list (Event V)) : list (nat * string * V) :=
  omap (fun e => match e with Install i name v => Some (i, name, v) | _ => None end) evs.

Lemma probes_app (e1 e2 : list (Event V)) : probes (e1 ++ e2) = probes e1 ++ probes e2.
Proof. apply omap_app. Qed.

Lemma probes_service i (o : Target V W) name v w evs :
  probes (inject_service i o name v (w, evs)).2
  = probes evs ++ accessors_of i o [(name, v)].
Proof.
  unfold inject_service, accessors_of. cbn.
  destruct (o !! name) as [[f|]|]; cbn; try by rewrite app_nil_r.
  destruct (f None w) as [[|] w1]; [|destruct (f (Some v) w1) as [r w2]];
    cbn; by rewrite probes_app.
Qed.

Lemma probes_target i (o : Target V W) services :
  forall w evs,
    probes (inject_target i o services (w, evs)).2
    = probes evs ++ accessors_of i o services.
Proof.
  induction services as [|[name v] rest IH]; intros w evs; cbn [inject_target].
  - by rewrite app_nil_r.
  - destruct (inject_service i o name v (w, evs)) as [w1 evs1] eqn:E.
    rewrite IH. replace evs1 with (inject_service i o name v (w, evs)).2 by (by rewrite E).
    rewrite probes_service, <- app_assoc. f_equal.
    unfold accessors_of. cbn. by destruct (o !! name) as [[f|]|].
Qed.

Lemma probes_from services (objects : list (Target V W)) :
  forall i w evs,
    probes (inject_from i services objects (w, evs)).2
    = probes evs ++ accessors_from i services objects.
Proof.
  induction objects as [|o rest IH]; intros i w evs; cbn [inject_from accessors_from].
  - by rewrite app_nil_r.
  - destruct (inject_target i o services (w, evs)) as [w1 evs1] eqn:E.
    rewrite IH. replace evs1 with (inject_target i o services (w, evs)).2 by (by rewrite E).
    by rewrite probes_target, <- app_assoc.
Qed.

(** Every pass of [inject] reads each accessor exactly once, with no
    argument: target by target in the order of the array, and for one
    target in the order of the services; a member that is no function is
    passed over.  This holds whatever the accessors answer or do. *)
Theorem inject_reads_each_accessor_once (services : list (string * V))
    (objects : list (Target V W)) (w : W) :
  probes (inject services objects w).2 = accessors_from 0 services objects.
Proof. unfold inject. by rewrite probes_from. Qed.

(** The accessors that answered falsy. *)
Definition wanting (evs : list (Event V)) : list (nat * string) :=
  omap (fun e => match e with Probe i name false => Some (i, name) | _ => None end) evs.

Lemma wanting_app (e1 e2 : list (Event V)) : wanting (e1 ++ e2) = wanting e1 ++ wanting e2.
Proof. apply omap_app. Qed.

Lemma installs_app (e1 e2 : list (Event V)) : installs (e1 ++ e2) = installs e1 ++ installs e2.
Proof. apply omap_app. Qed.

(** What holds of the setter calls made so far. *)
Definition served (services : list (string * V)) (evs : list (Event V)) : Prop :=
  wanting evs = (installs evs).*1 /\
  forall i name v, (i, name, v) ∈ installs evs -> (name, v) ∈ services.

Lemma served_service services i (o : Target V W) name v w evs :
  (name, v) ∈ services -> served services evs ->
  served services (inject_service i o name v (w, evs)).2.
Proof.
  intros Hin [Hw Hs]. unfold inject_service.
  destruct (o !! name) as [[f|]|]; cbn; try done.
  destruct (f None w) as [[|] w1]; [|destruct (f (Some v) w1) as [r w2]]; cbn.
  - split.
    + rewrite wanting_app, installs_app. cbn. by rewrite !app_nil_r.
    + intros j nm u. rewrite installs_app. cbn. rewrite app_nil_r. apply Hs.
  - split.
    + rewrite wanting_app, installs_app, fmap_app. cbn. by rewrite Hw.
    + intros j nm u. rewrite installs_app. cbn. intros [H|H]%elem_of_app; [by eapply Hs|].
      apply list_elem_of_singleton in H. by injection H as -> -> ->.
Qed.

Lemma served_target services i (o : Target V W) (some : list (string * V)) :
  (forall s, s ∈ some -> s ∈ services) ->
  forall w evs, served services evs -> served services (inject_target i o some (w, evs)).2.
Proof.
  induction some as [|[name v] rest IH]; intros Hsub w evs H; cbn [inject_target]; [done|].
  destruct (inject_service i o name v (w, evs)) as [w1 evs1] eqn:E.
  apply IH; [intros s Hs; apply Hsub; set_solver|].
  replace evs1 with (inject_service i o name v (w, evs)).2 by (by rewrite E).
  apply served_service; [apply Hsub; set_solver|done].
Qed.

Lemma served_from services (objects : list (Target V W)) :
  forall i w evs, served services evs -> served services (inject_from i services objects (w, evs)).2.
Proof.
  induction objects as [|o rest IH]; intros i w evs H; cbn [inject_from]; [done|].
  destruct (inject_target i o services (w, evs)) as [w1 evs1] eqn:E.
  apply IH. replace evs1 with (inject_target i o services (w, evs)).2 by (by rewrite E).
  by apply served_target.
Qed.

(** Every accessor that answers falsy to the call with no argument is then
    called with a service, and with the one enumerated under its name; the
    setter calls are these and no other, in the same order. *)
Theorem inject_serves_every_falsy_accessor (services : list (string * V))
    (objects : list (Target V W)) (w : W) :
  let evs := (inject services objects w).2 in
  wanting evs = (installs evs).*1 /\
  forall i name v, (i, name, v) ∈ installs evs -> (name, v) ∈ services.
Proof.
  cbv zeta. apply served_from. split; [done|]. intros i name v H. cbn in H. set_solver.
Qed.

End Order.

End InjectOrder.

(** ** The sequencer at its edges *)

Module SequencerEdges.
Import Engine EngineFacts StrategyFacts.

(** The sequencer through the first callbacks of its copy, up to the call
    of [iterator] that finds [rest]. *)
Lemma iterator_through (len : nat) (copy al : loc) (done : Val) (vs pre rest : list Val) :
  copy <> al -> Forall (well_behaved len) pre -> len = length vs ->
  forall k s a c g n d h sp mg tr,
    inert k ->
    a !! copy = Some (pre ++ rest) ->
    a !! al = Some (vs ++ [VNext len copy al done]) ->
    exists k' s',
      inert k' /\
      reaches (mkState (Iterate len copy al done :: k) [] s a c g n d h sp mg tr)
              (mkState (Iterate len copy al done :: k') [] s' (<[copy := rest]> a) c g n d
                 h sp mg (tr ++ invocations pre (vs ++ [VNext len copy al done]))).
Proof.
  intros Hne Hwb Hlen.
  induction Hwb as [|cb cbs [(u & -> & Hu)|[-> Hz]] Hwb IH];
    intros k s a c g n d h sp mg tr Hk Hcopy Hal.
  - exists k, s. split; [done|].
    cbn [app] in Hcopy. rewrite insert_id by done. cbn. rewrite app_nil_r. apply reaches_refl.
  - set (next := VNext len copy al done) in *.
    assert (Hal' : <[copy := cbs ++ rest]> a !! al = Some (vs ++ [next]))
      by (by rewrite lookup_insert_ne).
    assert (Hcopy' : <[copy := cbs ++ rest]> a !! copy = Some (cbs ++ rest))
      by (by rewrite lookup_insert_eq).
    destruct Hu as [[Hl Hb]|[Hl Hb]].
    + destruct (IH k s (<[copy := cbs ++ rest]> a) c g n d h sp mg
                  (tr ++ [ECall (u_name u) (vs ++ [next])]) Hk Hcopy' Hal')
        as (k' & s' & Hk' & Hr).
      exists k', s'. split; [done|].
      eapply reaches_step.
      { cbn. unfold iterator. cbn. rewrite Hcopy. cbn. rewrite Hal'. reflexivity. }
      eapply reaches_step.
      { cbn. rewrite Hb. reflexivity. }
      eapply reaches_step.
      { cbn. rewrite Hl, Nat.eqb_refl. reflexivity. }
      cbn. rewrite insert_insert_eq in Hr. cbn. rewrite <- app_assoc in Hr. exact Hr.
    + assert (Hin : inert_cmd (SyncTest (VFun u) len copy al done)).
      { cbn. rewrite Hl. lia. }
      destruct Hb as [Hb|Hb].
      * destruct (IH (SyncTest (VFun u) len copy al done :: k) s (<[copy := cbs ++ rest]> a)
                    c g n d h sp mg (tr ++ [ECall (u_name u) (vs ++ [next])]))
          as (k' & s' & Hk' & Hr); [by constructor|done|done|].
        exists k', s'. split; [done|].
        eapply reaches_step.
        { cbn. unfold iterator. cbn. rewrite Hcopy. cbn. rewrite Hal'. reflexivity. }
        eapply reaches_step.
        { cbn. rewrite Hb. reflexivity. }
        eapply reaches_step.
        { cbn. rewrite trailing_next by (by rewrite Hl, Hlen). reflexivity. }
        eapply reaches_step.
        { cbn. reflexivity. }
        cbn. rewrite insert_insert_eq in Hr. rewrite <- app_assoc in Hr. exact Hr.
      * destruct (IH [] (tail s) (<[copy := cbs ++ rest]> a)
                    c g n d h sp mg (tr ++ [ECall (u_name u) (vs ++ [next])]))
          as (k' & s' & Hk' & Hr); [by constructor|done|done|].
        exists k', s'. split; [done|].
        eapply reaches_step.
        { cbn. unfold iterator. cbn. rewrite Hcopy. cbn. rewrite Hal'. reflexivity. }
        eapply reaches_step.
        { cbn. rewrite Hb. reflexivity. }
        eapply reaches_step.
        { cbn. rewrite trailing_next by (by rewrite Hl, Hlen). reflexivity. }
        eapply reaches_trans.
        { apply (inert_unwinds (SyncTest (VFun u) len copy al done :: k)). by constructor. }
        eapply reaches_step; [apply step_single_timer|].
        eapply reaches_step.
        { cbn. reflexivity. }
        cbn. rewrite insert_insert_eq in Hr. rewrite <- app_assoc in Hr. exact Hr.
  - set (next := VNext len copy al done) in *.
    destruct (IH k s (<[copy := cbs ++ rest]> a) c g n d h sp mg tr Hk) as (k' & s' & Hk' & Hr).
    { by rewrite lookup_insert_eq. }
    { by rewrite lookup_insert_ne. }
    exists k', s'. split; [done|].
    eapply reaches_step.
    { cbn. unfold iterator. cbn. rewrite Hcopy. cbn.
      rewrite lookup_insert_ne by done. rewrite Hal. reflexivity. }
    eapply reaches_step.
    { cbn. reflexivity. }
    eapply reaches_step.
    { cbn. rewrite Hz. reflexivity. }
    cbn. rewrite insert_insert_eq in Hr. exact Hr.
Qed.

(** A run that reaches a final state stays there. *)
Lemma settled (P : State -> Prop) (a b : State) :
  reaches a b -> final b -> P b ->
  exists n st', (forall m, n <= m -> run m a = st') /\ final st' /\ P st'.
Proof.
  intros Hr Hf HP. destruct (reaches_final _ _ Hr Hf) as (n & Hn). by exists n, b.
Qed.

(** From the call of [executeInSeries] in an idle machine through the
    first callbacks. *)
Lemma executeInSeries_through s a c g n d h sp mg tr (cl al : loc) (done : Val)
    (vs pre rest : list Val) :
  a !! cl = Some (pre ++ rest) -> a !! al = Some vs -> al < n ->
  Forall (well_behaved (length vs)) pre ->
  let next := VNext (length vs) n al done in
  exists k' s',
    inert k' /\
    reaches (executeInSeries (VArray cl) al done (mkState [] [] s a c g n d h sp mg tr))
      (mkState (Iterate (length vs) n al done :: k') [] s'
         (<[n := rest]> (<[al := vs ++ [next]]> (<[n := pre ++ rest]> a)))
         c g (S n) d h sp mg (tr ++ invocations pre (vs ++ [next]))).
Proof.
  intros Hcl Hal Hlt Hpre next.
  assert (Hne : n <> al) by lia.
  destruct (iterator_through (length vs) n al done vs pre rest Hne Hpre eq_refl [] s
              (<[al := vs ++ [next]]> (<[n := pre ++ rest]> a)) c g (S n) d h sp mg tr)
    as (k' & s' & Hk' & Hr).
  - constructor.
  - rewrite lookup_insert_ne by lia. by rewrite lookup_insert_eq.
  - by rewrite lookup_insert_eq.
  - exists k', s'. split; [done|].
    unfold executeInSeries. cbn. rewrite Hal, Hcl. cbn. exact Hr.
Qed.

Lemma invocations_app (l1 l2 vs : list Val) :
  invocations (l1 ++ l2) vs = invocations l1 vs ++ invocations l2 vs.
Proof. apply omap_app. Qed.

(** *** An entry of the array that is no callback *)

(** [executeInSeries] over an array that holds [undefined] behind some
    callbacks: the callbacks before it are entered, in order; then the
    exception "Callback not found" is thrown.  Neither a callback behind it
    nor [done] is entered, and the array given is as it was. *)
Theorem executeInSeries_callback_not_found (st : State) (cl al : loc) (pre : list User)
    (post vs : list Val) (done : Val) :
  stack st = [] -> timers st = [] ->
  arrays st !! cl = Some ((VFun <$> pre) ++ VUndefined :: post) ->
  arrays st !! al = Some vs -> al < next_loc st -> cl < next_loc st -> cl <> al ->
  Forall (behaved (length vs)) pre ->
  let start := executeInSeries (VArray cl) al done st in
  let next := continuation st al vs done in
  exists n st',
    (forall m, n <= m -> run m start = st') /\ final st' /\
    trace st' = trace st ++ map (fun u => ECall (u_name u) (vs ++ [next])) pre
                  ++ [EThrow "Callback not found"] /\
    arrays st' !! cl = Some ((VFun <$> pre) ++ VUndefined :: post).
Proof.
  destruct st as [k t s a c g n d h sp mg tr]. cbn.
  intros -> -> Hcl Hal Hlt Hclt Hcla Hpre.
  destruct (executeInSeries_through s a c g n d h sp mg tr cl al done vs (VFun <$> pre)
              (VUndefined :: post) Hcl Hal Hlt (behaved_well _ _ Hpre))
    as (k' & s' & Hk' & Hr).
  eapply settled.
  - eapply reaches_trans; [exact Hr|].
    advance. unfold iterator. expose. rewrite lookup_insert_eq.
    expose. cbn [falsy]. expose. apply reaches_refl.
  - reflexivity.
  - cbn. rewrite invocations_users, <- app_assoc. split; [done|].
    by rewrite !lookup_insert_ne by lia.
Qed.

(** *** A callback that never resumes *)

(** [executeInSeries] over an array that holds, behind some callbacks, a
    function that does not declare as many parameters as there are
    arguments and never calls the continuation: it is entered, and this is
    the end.  Neither a callback behind it nor [done] is ever entered:
    there is no timeout. *)
Theorem executeInSeries_stalls (st : State) (cl al : loc) (pre : list User) (u : User)
    (post vs : list Val) (done : Val) :
  stack st = [] -> timers st = [] ->
  arrays st !! cl = Some ((VFun <$> pre) ++ VFun u :: post) ->
  arrays st !! al = Some vs -> al < next_loc st ->
  Forall (behaved (length vs)) pre ->
  u_length u <> length vs -> u_body u = [] ->
  let start := executeInSeries (VArray cl) al done st in
  let next := continuation st al vs done in
  exists n st',
    (forall m, n <= m -> run m start = st') /\ final st' /\
    trace st' = trace st ++ map (fun u => ECall (u_name u) (vs ++ [next])) (pre ++ [u]).
Proof.
  destruct st as [k t s a c g n d h sp mg tr]. cbn.
  intros -> -> Hcl Hal Hlt Hpre Hlen Hbody.
  destruct (executeInSeries_through s a c g n d h sp mg tr cl al done vs (VFun <$> pre)
              (VFun u :: post) Hcl Hal Hlt (behaved_well _ _ Hpre))
    as (k' & s' & Hk' & Hr).
  eapply settled.
  - eapply reaches_trans; [exact Hr|].
    advance. unfold iterator. expose. rewrite lookup_insert_eq.
    expose. cbn [falsy]. rewrite lookup_insert_ne by lia.
    rewrite lookup_insert_ne by lia. rewrite lookup_insert_eq. expose.
    advance. rewrite Hbody. cbn [map]. expose.
    advance. apply Nat.eqb_neq in Hlen. rewrite Hlen.
    apply inert_unwinds, Hk'.
  - reflexivity.
  - cbn. by rewrite invocations_users, map_app, <- !app_assoc.
Qed.

(** *** No function to end with *)

(** When [done] is no function, [executeInSeries] enters the callbacks, in
    order, and ends there: the missing [done] raises no exception. *)
Theorem executeInSeries_without_done (st : State) (cl al : loc) (us : list User)
    (vs : list Val) (done : Val) :
  stack st = [] -> timers st = [] ->
  arrays st !! cl = Some (VFun <$> us) ->
  arrays st !! al = Some vs -> al < next_loc st ->
  Forall (behaved (length vs)) us ->
  is_function done = false ->
  let start := executeInSeries (VArray cl) al done st in
  let next := continuation st al vs done in
  exists n st',
    (forall m, n <= m -> run m start = st') /\ final st' /\
    trace st' = trace st ++ map (fun u => ECall (u_name u) (vs ++ [next])) us.
Proof.
  destruct st as [k t s a c g n d h sp mg tr]. cbn.
  intros -> -> Hcl Hal Hlt Hus Hdone.
  rewrite <- (app_nil_r (VFun <$> us)) in Hcl.
  destruct (executeInSeries_through s a c g n d h sp mg tr cl al done vs (VFun <$> us)
              [] Hcl Hal Hlt (behaved_well _ _ Hus))
    as (k' & s' & Hk' & Hr).
  eapply settled.
  - eapply reaches_trans; [exact Hr|].
    advance. unfold iterator. expose. rewrite lookup_insert_eq, Hdone.
    apply inert_unwinds, Hk'.
  - reflexivity.
  - cbn. by rewrite invocations_users.
Qed.

(** *** A callback that resumes twice *)

(** A callback that leaves nothing to a later task: it is synchronous, or
    it calls the continuation before it returns. *)
Definition immediate (length : nat) (v : Val) : Prop :=
  (exists u, v = VFun u /\
     (synchronous length u \/ (u_length u = S length /\ u_body u = [Resume])))
  \/ (v = VNoop /\ length = 0).

(** Frames that do nothing are left one by one. *)
Lemma inert_returns (k' k : list Cmd) t s a c g n d h sp mg tr :
  inert k' ->
  reaches (mkState (k' ++ k) t s a c g n d h sp mg tr) (mkState k t s a c g n d h sp mg tr).
Proof.
  induction 1 as [|x k' Hx Hk IH]; [apply reaches_refl|].
  eapply reaches_step; [|exact IH].
  destruct x; try done. cbn in *.
  by apply Nat.eqb_neq in Hx as ->.
Qed.

(** Over such callbacks the sequencer needs no other task, whatever waits
    on the stack below it. *)
Lemma iterator_immediate (len : nat) (copy al : loc) (done : Val) (vs cbs : list Val) :
  copy <> al -> Forall (immediate len) cbs -> len = length vs ->
  forall k t s a c g n d h sp mg tr,
    a !! copy = Some cbs ->
    a !! al = Some (vs ++ [VNext len copy al done]) ->
    exists k',
      inert k' /\
      reaches (mkState (Iterate len copy al done :: k) t s a c g n d h sp mg tr)
              (mkState (Iterate len copy al done :: k' ++ k) t s (<[copy := []]> a) c g n d
                 h sp mg (tr ++ invocations cbs (vs ++ [VNext len copy al done]))).
Proof.
  intros Hne Hwb Hlen.
  induction Hwb as [|cb cbs [(u & -> & Hu)|[-> Hz]] Hwb IH];
    intros k t s a c g n d h sp mg tr Hcopy Hal.
  - exists []. split; [constructor|].
    rewrite insert_id by done. cbn. rewrite app_nil_r. apply reaches_refl.
  - set (next := VNext len copy al done) in *.
    assert (Hal' : <[copy := cbs]> a !! al = Some (vs ++ [next]))
      by (by rewrite lookup_insert_ne).
    assert (Hcopy' : <[copy := cbs]> a !! copy = Some cbs)
      by (by rewrite lookup_insert_eq).
    destruct Hu as [[Hl Hb]|[Hl Hb]].
    + destruct (IH k t s (<[copy := cbs]> a) c g n d h sp mg
                  (tr ++ [ECall (u_name u) (vs ++ [next])]) Hcopy' Hal')
        as (k' & Hk' & Hr).
      exists k'. split; [done|].
      eapply reaches_step.
      { cbn. unfold iterator. cbn. rewrite Hcopy. cbn. rewrite Hal'. reflexivity. }
      eapply reaches_step.
      { cbn. rewrite Hb. reflexivity. }
      eapply reaches_step.
      { cbn. rewrite Hl, Nat.eqb_refl. reflexivity. }
      cbn. rewrite insert_insert_eq in Hr. cbn. rewrite <- app_assoc in Hr. exact Hr.
    + assert (Hin : inert_cmd (SyncTest (VFun u) len copy al done)).
      { cbn. rewrite Hl. lia. }
      destruct (IH (SyncTest (VFun u) len copy al done :: k) t s (<[copy := cbs]> a)
                  c g n d h sp mg (tr ++ [ECall (u_name u) (vs ++ [next])]))
        as (k' & Hk' & Hr); [done|done|].
      exists (k' ++ [SyncTest (VFun u) len copy al done]).
      split; [apply Forall_app; split; [done|by constructor]|].
      eapply reaches_step.
      { cbn. unfold iterator. cbn. rewrite Hcopy. cbn. rewrite Hal'. reflexivity. }
      eapply reaches_step.
      { cbn. rewrite Hb. reflexivity. }
      eapply reaches_step.
      { cbn. rewrite trailing_next by (by rewrite Hl, Hlen). reflexivity. }
      eapply reaches_step.
      { cbn. reflexivity. }
      cbn. rewrite insert_insert_eq in Hr. rewrite <- !app_assoc in *. exact Hr.
  - set (next := VNext len copy al done) in *.
    destruct (IH k t s (<[copy := cbs]> a) c g n d h sp mg tr) as (k' & Hk' & Hr).
    { by rewrite lookup_insert_eq. }
    { by rewrite lookup_insert_ne. }
    exists k'. split; [done|].
    eapply reaches_step.
    { cbn. unfold iterator. cbn. rewrite Hcopy. cbn.
      rewrite lookup_insert_ne by done. rewrite Hal. reflexivity. }
    eapply reaches_step.
    { cbn. reflexivity. }
    eapply reaches_step.
    { cbn. rewrite Hz. reflexivity. }
    cbn. rewrite insert_insert_eq in Hr. exact Hr.
Qed.

(** [executeInSeries] does not guard against a callback that calls the
    continuation twice.  Over an array that holds such a callback behind
    some callbacks and before callbacks that leave nothing to a later task,
    every callback is entered once, in order, and [done] is entered
    twice. *)
Theorem executeInSeries_resumed_twice (st : State) (cl al : loc) (pre : list User) (u : User)
    (post vs : list Val) (dn : User) :
  stack st = [] -> timers st = [] ->
  arrays st !! cl = Some ((VFun <$> pre) ++ VFun u :: post) ->
  arrays st !! al = Some vs -> al < next_loc st ->
  Forall (behaved (length vs)) pre ->
  u_length u = S (length vs) -> u_body u = [Resume; Resume] ->
  Forall (immediate (length vs)) post -> u_body dn = [] ->
  let start := executeInSeries (VArray cl) al (VFun dn) st in
  let next := continuation st al vs (VFun dn) in
  exists n st',
    (forall m, n <= m -> run m start = st') /\ final st' /\
    trace st' = trace st ++ map (fun u => ECall (u_name u) (vs ++ [next])) (pre ++ [u])
                  ++ invocations post (vs ++ [next])
                  ++ [ECall (u_name dn) []; ECall (u_name dn) []].
Proof.
  destruct st as [k t s a c g n d h sp mg tr]. cbn.
  intros -> -> Hcl Hal Hlt Hpre Hlen Hbody Hpost Hdn.
  set (next := VNext (length vs) n al (VFun dn)).
  destruct (executeInSeries_through s a c g n d h sp mg tr cl al (VFun dn) vs (VFun <$> pre)
              (VFun u :: post) Hcl Hal Hlt (behaved_well _ _ Hpre))
    as (k' & s' & Hk' & Hr).
  fold next in Hr.
  set (a1 := <[al := vs ++ [next]]> (<[n := (VFun <$> pre) ++ VFun u :: post]> a)) in *.
  set (a2 := <[n := post]> (<[n := VFun u :: post]> a1)).
  assert (Ha2n : a2 !! n = Some post) by (unfold a2; by rewrite lookup_insert_eq).
  assert (Ha2al : a2 !! al = Some (vs ++ [next])).
  { unfold a2, a1. rewrite !lookup_insert_ne by lia. by rewrite lookup_insert_eq. }
  assert (Hin : inert_cmd (SyncTest (VFun u) (length vs) n al (VFun dn))).
  { cbn. rewrite Hlen. lia. }
  set (k0 := Act u Resume (vs ++ [next]) :: SyncTest (VFun u) (length vs) n al (VFun dn) :: k').
  destruct (iterator_immediate (length vs) n al (VFun dn) vs post ltac:(lia) Hpost eq_refl
              k0 [] s' a2 c g (S n) d h sp mg
              ((tr ++ invocations (VFun <$> pre) (vs ++ [next]))
                 ++ [ECall (u_name u) (vs ++ [next])]) Ha2n Ha2al)
    as (k'' & Hk'' & Hr2).
  fold next in Hr2.
  assert (Ha3n : <[n := []]> a2 !! n = Some []) by (by rewrite lookup_insert_eq).
  eapply settled.
  - eapply reaches_trans; [exact Hr|].
    advance. unfold iterator. expose. rewrite lookup_insert_eq.
    expose. cbn [falsy]. fold a2. rewrite Ha2al. expose.
    advance. rewrite Hbody. cbn [map]. expose.
    advance. rewrite trailing_next by done.
    advance. fold next.
    eapply reaches_trans; [exact Hr2|].
    advance. unfold iterator. expose. rewrite Ha3n. expose.
    advance. rewrite Hdn. cbn [map]. expose.
    eapply reaches_trans; [by apply inert_returns|].
    unfold k0.
    advance. rewrite trailing_next by done.
    advance. fold next.
    advance. unfold iterator. expose. rewrite Ha3n. expose.
    advance. rewrite Hdn. cbn [map]. expose.
    apply (inert_unwinds (SyncTest (VFun u) (length vs) n al (VFun dn) :: k')).
    by constructor.
  - reflexivity.
  - cbn. rewrite invocations_users, map_app. cbn. rewrite <- !app_assoc. reflexivity.
Qed.

(** *** Instances *)

(** An idle machine with the callbacks at location 0 and no argument at
    location 1. *)
Definition with_callbacks (cbs : list Val) : State :=
  mkState [] [] [] (list_to_map [(0, cbs); (1, [])]) ∅ ∅ 2 []
    (mkHorde 0 0 0 0 0) [] [] [].

Definition silent : User := mkUser "silent" 1 [] None.
Definition twice : User := mkUser "twice" 1 [Resume; Resume] None.

Lemma immediate_plain : Forall (immediate 0) [VFun (plain "last")].
Proof.
  constructor; [|constructor]. left. exists (plain "last"). split; [done|]. left. by split.
Defined.

Lemma executeInSeries_callback_not_found_witness :
  let st := with_callbacks ((VFun <$> demo_users) ++ VUndefined :: [VFun (plain "last")]) in
  let start := executeInSeries (VArray 0) 1 (VFun demo_done) st in
  let next := continuation st 1 [] (VFun demo_done) in
  exists n st',
    (forall m, n <= m -> run m start = st') /\ final st' /\
    trace st' = trace st ++ map (fun u => ECall (u_name u) ([] ++ [next])) demo_users
                  ++ [EThrow "Callback not found"] /\
    arrays st' !! 0 = Some ((VFun <$> demo_users) ++ VUndefined :: [VFun (plain "last")]).
Proof.
  apply (executeInSeries_callback_not_found
           (with_callbacks ((VFun <$> demo_users) ++ VUndefined :: [VFun (plain "last")]))
           0 1 demo_users [VFun (plain "last")] [] (VFun demo_done));
    [reflexivity|reflexivity|reflexivity|reflexivity|cbn; lia|cbn; lia|lia|exact demo_behaved].
Defined.

Lemma executeInSeries_stalls_witness :
  let st := with_callbacks ((VFun <$> demo_users) ++ VFun silent :: [VFun (plain "last")]) in
  let start := executeInSeries (VArray 0) 1 (VFun demo_done) st in
  let next := continuation st 1 [] (VFun demo_done) in
  exists n st',
    (forall m, n <= m -> run m start = st') /\ final st' /\
    trace st' = trace st ++ map (fun u => ECall (u_name u) ([] ++ [next])) (demo_users ++ [silent]).
Proof.
  apply (executeInSeries_stalls
           (with_callbacks ((VFun <$> demo_users) ++ VFun silent :: [VFun (plain "last")]))
           0 1 demo_users silent [VFun (plain "last")] [] (VFun demo_done));
    [reflexivity|reflexivity|reflexivity|reflexivity|cbn; lia|exact demo_behaved
    |cbn; lia|reflexivity].
Defined.

Lemma executeInSeries_without_done_witness :
  let st := with_callbacks (VFun <$> demo_users) in
  let start := executeInSeries (VArray 0) 1 VUndefined st in
  let next := continuation st 1 [] VUndefined in
  exists n st',
    (forall m, n <= m -> run m start = st') /\ final st' /\
    trace st' = trace st ++ map (fun u => ECall (u_name u) ([] ++ [next])) demo_users.
Proof.
  apply (executeInSeries_without_done (with_callbacks (VFun <$> demo_users))
           0 1 demo_users [] VUndefined);
    [reflexivity|reflexivity|reflexivity|reflexivity|cbn; lia|exact demo_behaved|reflexivity].
Defined.

Lemma executeInSeries_resumed_twice_witness :
  let st := with_callbacks ((VFun <$> demo_users) ++ VFun twice :: [VFun (plain "last")]) in
  let start := executeInSeries (VArray 0) 1 (VFun demo_done) st in
  let next := continuation st 1 [] (VFun demo_done) in
  exists n st',
    (forall m, n <= m -> run m start = st') /\ final st' /\
    trace st' = trace st ++ map (fun u => ECall (u_name u) ([] ++ [next])) (demo_users ++ [twice])
                  ++ invocations [VFun (plain "last")] ([] ++ [next])
                  ++ [ECall (u_name demo_done) []; ECall (u_name demo_done) []].
Proof.
  apply (executeInSeries_resumed_twice
           (with_callbacks ((VFun <$> demo_users) ++ VFun twice :: [VFun (plain "last")]))
           0 1 demo_users twice [VFun (plain "last")] [] demo_done);
    [reflexivity|reflexivity|reflexivity|reflexivity|cbn; lia|exact demo_behaved
    |reflexivity|reflexivity|exact immediate_plain|reflexivity].
Defined.

(** The same run, computed. *)
Example resumed_twice_run :
  calls (trace (run 100 (executeInSeries (VArray 0) 1 (VFun demo_done)
                           (with_callbacks [VFun twice; VFun (plain "last")]))))
  = ["twice"; "last"; "done"; "done"]%string.
Proof. vm_compute. reflexivity. Qed.

End SequencerEdges.

(** ** The registries through [unleash] *)

Module HordeRegistries.
Import Engine EngineFacts StrategyFacts HordeFacts.


Lemma injects_spec (objects : list Val) :
  (injects objects = true <-> VUndefined ∉ objects) /\
  (injects objects = false <-> VUndefined ∈ objects).
Proof.
  unfold injects. induction objects as [|v objects [IH1 IH2]]; cbn [forallb].
  - split; split; try done.
    + intros _ Hin. by apply not_elem_of_nil in Hin.
    + intros Hin. by apply not_elem_of_nil in Hin.
  - rewrite not_elem_of_cons, elem_of_cons, andb_true_iff, andb_false_iff, IH1, IH2.
    split; split.
    + intros [Hv Hrest]. split; [|done]. by destruct v.
    + intros [Hv Hrest]. split; [|done]. by destruct v.
    + intros [Hv|Hrest]; [left|by right]. by destruct v.
    + intros [Hv|Hrest]; [left|by right]. by subst v.
Qed.

(** [unleash] leaves the registry of the before callbacks as it is: the
    mogwais run with them from a new array.  The registry of the after
    callbacks is the array [unleash] pushes the clean-ups to.  When no
    registry holds [undefined] or [null], it holds when the call returns,
    behind what was registered, the [cleanUp] of every gremlin and of
    every mogwai that has one, the defaults included, and keeps them.
    When one does, [inject] throws before anything is pushed: the registry
    is as it was, and nothing of the run is left to do. *)
Theorem unleash_writes_after_registry (st : State) (params done : Val) :
  horde_ok st ->
  let h := horde st in
  let st' := unleash params done st in
  let gs := match read (_gremlins h) st with [] => VFun <$> species st | gs => gs end in
  let ms := match read (_mogwais h) st with [] => VFun <$> mogwais st | ms => ms end in
  let ss := match read (_strategies h) st with [] => [VStrategy (next_loc st)] | ss => ss end in
  let objects := (gs ++ ms) ++ ss ++ read (_beforeCallbacks h) st ++ read (_afterCallbacks h) st in
  read (_beforeCallbacks h) st' = read (_beforeCallbacks h) st /\
  (VUndefined ∉ objects ->
   read (_afterCallbacks h) st' = read (_afterCallbacks h) st ++ cleanUps (gs ++ ms)) /\
  (VUndefined ∈ objects ->
   read (_afterCallbacks h) st' = read (_afterCallbacks h) st /\
   stack st' = [] /\
   trace st' = trace st ++ [EInject objects; EThrow "TypeError"]).
Proof.
  intros Hok. cbv zeta.
  destruct (unleash_registries st params done Hok) as (_ & _ & _ & Hb & Ha & Hthrow & _).
  cbv zeta in *.
  assert (Ht : targets st
               = ((match read (_gremlins (horde st)) st with
                   | [] => VFun <$> species st | gs => gs end)
                  ++ (match read (_mogwais (horde st)) st with
                      | [] => VFun <$> mogwais st | ms => ms end))
                 ++ (match read (_strategies (horde st)) st with
                     | [] => [VStrategy (next_loc st)] | ss => ss end)
                 ++ read (_beforeCallbacks (horde st)) st ++ read (_afterCallbacks (horde st)) st).
  { unfold targets, or_default. cbv zeta.
    by destruct (read (_gremlins _) st), (read (_mogwais _) st), (read (_strategies _) st). }
  rewrite <- Ht. destruct (injects_spec (targets st)) as [Hyes Hno].
  split; [exact Hb|]. split.
  - intros Hin. rewrite Ha by (by apply Hyes). unfold or_default.
    by destruct (read (_gremlins _) st), (read (_mogwais _) st).
  - intros Hin. apply Hthrow. by apply Hno.
Qed.

Lemma twice_horde_ok : horde_ok twice_horde.
Proof.
  split.
  - apply (bool_decide_unpack _). vm_compute. exact I.
  - repeat constructor.
Defined.


Lemma unleash_writes_after_registry_witness :
  let st := twice_horde in
  let h := horde st in
  let st' := unleash (VParams None) VUndefined st in
  let gs := match read (_gremlins h) st with [] => VFun <$> species st | gs => gs end in
  let ms := match read (_mogwais h) st with [] => VFun <$> mogwais st | ms => ms end in
  let ss := match read (_strategies h) st with [] => [VStrategy (next_loc st)] | ss => ss end in
  let objects := (gs ++ ms) ++ ss ++ read (_beforeCallbacks h) st ++ read (_afterCallbacks h) st in
  read (_beforeCallbacks h) st' = read (_beforeCallbacks h) st /\
  (VUndefined ∉ objects ->
   read (_afterCallbacks h) st' = read (_afterCallbacks h) st ++ cleanUps (gs ++ ms)) /\
  (VUndefined ∈ objects ->
   read (_afterCallbacks h) st' = read (_afterCallbacks h) st /\
   stack st' = [] /\
   trace st' = trace st ++ [EInject objects; EThrow "TypeError"]).
Proof.
  apply (unleash_writes_after_registry twice_horde (VParams None) VUndefined).
  exact twice_horde_ok.
Defined.

(** The same horde, and the same with [undefined] registered as a gremlin
    behind [mine]: there [unleash] throws, the registry keeps the one
    callback it held, and no function of the horde is entered. *)
Example unleash_pushes_cleanUps :
  let st' := unleash (VParams None) VUndefined twice_horde in
  read 4 st' = [VFun (plain "report"); VFun (plain "probe.cleanUp")] /\
  stack st' <> [].
Proof. vm_compute. by split. Qed.

Example unleash_undefined_gremlin :
  let st := array_push 0 [VUndefined] twice_horde in
  let st' := run 1000 (push (Unleash (VParams None) (VFun (plain "done"))) st) in
  final st' /\ read 4 st' = [VFun (plain "report")] /\
  calls (trace st') = [] /\ last (trace st') = Some (EThrow "TypeError").
Proof. vm_compute. repeat split. Qed.

End HordeRegistries.

(** ** The strategies as callbacks of the horde *)

Module StrategyFrames.
Import Engine EngineFacts StrategyFacts SequencerEdges.

(** The arrays below [nx] are as they were. *)
Definition kept (nx : loc) (ar ar' : gmap loc (list Val)) : Prop :=
  forall l : loc, l < nx -> ar' !! l = ar !! l.

Lemma kept_refl nx ar : kept nx ar ar.
Proof. by intros l Hl. Qed.

Lemma kept_trans nx nx' ar ar' ar'' :
  nx <= nx' -> kept nx ar ar' -> kept nx' ar' ar'' -> kept nx ar ar''.
Proof. intros Hle H1 H2 l Hl. rewrite H2 by lia. by apply H1. Qed.

(** *** allTogether *)

(** The waves from [i] on, up to the call of [callDone]. *)
Lemma waves_resume (s gl : loc) (cfg : Strategy) (us : list User) (n : nat) :
  Forall (behaved 0) us -> stopped cfg = false ->
  forall j i, i + j = n ->
  forall k sc ar ce sg (nx : loc) d h sp mg tr,
    inert k -> sg !! s = Some cfg -> ar !! gl = Some (VFun <$> us) -> gl < nx ->
    exists k' sc' ar' ce' (nx' : loc) tr',
      inert k' /\
      reaches (executeNextWave s (VArray gl) n i (mkState k [] sc ar ce sg nx d h sp mg tr))
        (callDone s (mkState k' [] sc' ar' ce' sg nx' d h sp mg tr')) /\
      kept nx ar ar' /\ nx <= nx' /\
      calls tr' = calls tr ++ concat (replicate j (u_name <$> us)) /\
      steps s tr' = steps s tr ++ seq i j.
Proof.
  intros Hus Hst. induction j as [|j IH];
    intros i Hij k sc ar ce sg nx d h sp mg tr Hk Hs Hgl Hlt.
  - exists k, sc, ar, ce, nx, tr. split; [done|]. split; [|by rewrite !app_nil_r].
    unfold executeNextWave. expose. rewrite Hs. expose. rewrite Hst.
    replace (n <=? i) with true by (symmetry; apply Nat.leb_le; lia).
    apply reaches_refl.
  - set (done := VWaveDone s (VArray gl) n nx).
    set (next := VNext 0 (S (S nx)) (S nx) done).
    set (ar1 := <[S nx := [next]]> (<[S (S nx) := VFun <$> us]> (<[S nx := []]> ar))).
    destruct (iterator_runs 0 (S (S nx)) (S nx) done [] (VFun <$> us)
                ltac:(lia) eq_refl (behaved_well _ _ Hus) eq_refl
                k sc ar1 (<[nx := i]> ce) sg (S (S (S nx))) d h sp mg (tr ++ [EStep s i]) Hk)
      as (k1 & sc1 & Hk1 & Hr).
    { unfold ar1. rewrite lookup_insert_ne by lia. by rewrite lookup_insert_eq. }
    { unfold ar1. by rewrite lookup_insert_eq. }
    destruct (IH (S i) ltac:(lia) [] (tail sc1) (<[S (S nx) := []]> ar1)
                (<[nx := S i]> (<[nx := i]> ce)) sg (S (S (S nx))) d h sp mg
                ((tr ++ [EStep s i]) ++ invocations (VFun <$> us) ([] ++ [next])))
      as (k' & sc' & ar' & ce' & nx' & tr' & Hk' & Hr' & Hkept & Hnx & Hc & Hsteps).
    { constructor. }
    { done. }
    { unfold ar1. rewrite !lookup_insert_ne by lia. done. }
    { lia. }
    exists k', sc', ar', ce', nx', tr'. split; [done|]. split; [|split; [|split; [lia|split]]].
    + rewrite (executeNextWave_wave s gl cfg (VFun <$> us)) by (done || lia).
      eapply reaches_trans; [exact Hr|].
      advance.
      eapply reaches_trans; [apply inert_unwinds, Hk1|].
      eapply reaches_step; [apply step_single_timer|].
      advance. rewrite lookup_insert_eq. expose. exact Hr'.
    + intros l Hl. rewrite Hkept by lia. unfold ar1. by rewrite !lookup_insert_ne by lia.
    + rewrite Hc, !calls_app, calls_invocations. cbn.
      rewrite app_nil_r, <- !app_assoc. reflexivity.
    + rewrite Hsteps, !steps_app, steps_invocations. cbn.
      rewrite Nat.eqb_refl, app_nil_r, <- !app_assoc. reflexivity.
Qed.

(** *** bySpecies *)

(** The gremlins still in the copy, one after the other, up to the call of
    [callDone]; only the copy changes among the arrays there were. *)
Lemma species_resume (s gc : loc) (cfg : Strategy) (n : nat) :
  stopped cfg = false ->
  forall us, Forall (behaved 0) us ->
  forall k sc ar ce sg (nx : loc) d h sp mg tr,
    inert k -> sg !! s = Some cfg -> ar !! gc = Some (VFun <$> us) -> gc < nx ->
    exists k' sc' ar' ce' (nx' : loc) tr',
      inert k' /\
      reaches (executeNextGremlin s gc n (mkState k [] sc ar ce sg nx d h sp mg tr))
        (callDone s (mkState k' [] sc' ar' ce' sg nx' d h sp mg tr')) /\
      (forall l : loc, l < nx -> l <> gc -> ar' !! l = ar !! l) /\ nx <= nx' /\
      calls tr' = calls tr ++ flat_map (fun u => replicate n (u_name u)) us /\
      steps s tr' = steps s tr ++ concat (replicate (length us) (seq 0 n)).
Proof.
  intros Hst us Hus. induction Hus as [|u us Hu Hus IH];
    intros k sc ar ce sg nx d h sp mg tr Hk Hs Hgc Hlt.
  - exists k, sc, ar, ce, nx, tr. split; [done|]. split; [|by rewrite !app_nil_r].
    unfold executeNextGremlin. expose. rewrite Hs. expose. rewrite Hst, Hgc.
    apply reaches_refl.
  - destruct (species_reps s gc cfg u n Hu Hst n 0 eq_refl k sc (<[gc := VFun <$> us]> ar)
                ce sg nx d h sp mg tr Hk Hs)
      as (k1 & sc1 & ar1 & ce1 & nx1 & tr1 & Hk1 & Hr1 & Har & Hnx & Hc1 & Hs1).
    destruct (IH k1 sc1 ar1 ce1 sg nx1 d h sp mg tr1 Hk1 Hs)
      as (k' & sc' & ar' & ce' & nx' & tr' & Hk' & Hr' & Hkept & Hnx' & Hc & Hsteps).
    { rewrite Har by done. by rewrite lookup_insert_eq. }
    { lia. }
    exists k', sc', ar', ce', nx', tr'. split; [done|]. split; [|split; [|split; [lia|split]]].
    + unfold executeNextGremlin. expose. rewrite Hs. expose. rewrite Hst, Hgc.
      cbn [fmap list_fmap]. expose.
      eapply reaches_trans; [exact Hr1|].
      advance. exact Hr'.
    + intros l Hl Hne. rewrite Hkept by (done || lia). rewrite Har by done.
      by rewrite lookup_insert_ne.
    + rewrite Hc, Hc1. cbn. rewrite <- !app_assoc. reflexivity.
    + rewrite Hsteps, Hs1. cbn. rewrite <- !app_assoc. reflexivity.
Qed.

(** *** distribution *)

(** The steps from [i] on, the gremlin of step [i] being picked already,
    up to the call of [callDone]. *)
Lemma dist_resume (s gc : loc) (cfg : Strategy) (dist : list float) (us : list User)
    (n : nat) :
  Forall (behaved 0) us -> stopped cfg = false ->
  forall j i, i + j = n ->
  forall g k sc ar ce sg (nx : loc) d h sp mg tr,
    well_behaved 0 g -> inert k -> sg !! s = Some cfg ->
    ar !! gc = Some (VFun <$> us) -> gc < nx ->
    exists k' sc' ar' ce' (nx' : loc) d' tr',
      inert k' /\
      reaches (dist_executeNext s gc dist n g i (mkState k [] sc ar ce sg nx d h sp mg tr))
        (callDone s (mkState k' [] sc' ar' ce' sg nx' d' h sp mg tr')) /\
      kept nx ar ar' /\ nx <= nx' /\
      calls tr'
        = calls tr ++ names_of (match j with
                                | O => []
                                | S j' => g :: drawn (VFun <$> us) dist d j'
                                end) /\
      steps s tr' = steps s tr ++ seq i j.
Proof.
  intros Hus Hst. induction j as [|j IH];
    intros i Hij g k sc ar ce sg nx d h sp mg tr Hg Hk Hs Hgc Hlt.
  - exists k, sc, ar, ce, nx, d, tr. split; [done|]. split; [|by rewrite !app_nil_r].
    unfold dist_executeNext. expose. rewrite Hs. expose. rewrite Hst.
    replace (n <=? i) with true by (symmetry; apply Nat.leb_le; lia).
    apply reaches_refl.
  - set (done := VDistDone s gc dist n nx).
    set (next := VNext 0 (S (S (S nx))) (S (S nx)) done).
    set (ar1 := <[S (S nx) := [next]]>
                  (<[S (S (S nx)) := [g]]> (<[S (S nx) := []]> (<[S nx := [g]]> ar)))).
    set (g' := val_of_picked
                 (Distribution.pickGremlin (VFun <$> us) dist (default 0%float (head d)))).
    destruct (iterator_runs 0 (S (S (S nx))) (S (S nx)) done [] [g]
                ltac:(lia) eq_refl (Forall_cons_2 _ _ _ Hg (Forall_nil_2 _)) eq_refl
                k sc ar1 (<[nx := i]> ce) sg (S (S (S (S nx)))) d h sp mg (tr ++ [EStep s i]) Hk)
      as (k1 & sc1 & Hk1 & Hr).
    { unfold ar1. rewrite lookup_insert_ne by lia. by rewrite lookup_insert_eq. }
    { unfold ar1. by rewrite lookup_insert_eq. }
    assert (Hgc1 : <[S (S (S nx)) := []]> ar1 !! gc = Some (VFun <$> us)).
    { unfold ar1. by rewrite !lookup_insert_ne by lia. }
    destruct (IH (S i) ltac:(lia) g' [] (tail sc1) (<[S (S (S nx)) := []]> ar1)
                (<[nx := S i]> (<[nx := i]> ce)) sg (S (S (S (S nx)))) (tail d) h sp mg
                ((tr ++ [EStep s i]) ++ invocations [g] ([] ++ [next])))
      as (k' & sc' & ar' & ce' & nx' & d' & tr' & Hk' & Hr' & Hkept & Hnx & Hc & Hsteps);
      [by apply picked_well_behaved|constructor|done|done|lia|].
    exists k', sc', ar', ce', nx', d', tr'.
    split; [done|]. split; [|split; [|split; [lia|split]]].
    + rewrite (dist_executeNext_step s gc cfg) by (done || lia).
      eapply reaches_trans; [exact Hr|].
      advance.
      eapply reaches_trans; [apply inert_unwinds, Hk1|].
      eapply reaches_step; [apply step_single_timer|].
      advance. rewrite Hgc1. expose. rewrite lookup_insert_eq. expose. exact Hr'.
    + intros l Hl. rewrite Hkept by lia. unfold ar1. by rewrite !lookup_insert_ne by lia.
    + rewrite Hc, !calls_app, calls_invocations_names.
      rewrite (names_of_cons g (drawn (VFun <$> us) dist d j)).
      replace (drawn (VFun <$> us) dist d j)
        with (match j with
              | O => []
              | S j' => g' :: drawn (VFun <$> us) dist (tail d) j'
              end) by (by destruct j).
      cbn [calls omap app]. rewrite <- !app_assoc. reflexivity.
    + rewrite Hsteps, !steps_app, steps_invocations. cbn.
      rewrite Nat.eqb_refl, app_nil_r, <- !app_assoc. reflexivity.
Qed.

Lemma classic_kind (cfg : Strategy) (n : nat) :
  (0 < n \/ kind cfg <> Distributed) \/ ~ (0 < n \/ kind cfg <> Distributed).
Proof.
  destruct n; [|left; left; lia].
  destruct (kind cfg); [left; by right|left; by right|right].
  intros [H|H]; [lia|done].
Qed.

(** *** The three strategies, from their call to the call of [done] *)

(** Frames that change nothing but a strategy's [doneCallback] when
    control comes back to them. *)
Definition quiet_cmd (c : Cmd) : Prop := inert_cmd c \/ exists s, c = ClearDone s.
Definition quiet (k : list Cmd) : Prop := Forall quiet_cmd k.

Lemma inert_quiet (k : list Cmd) : inert k -> quiet k.
Proof. intros H. eapply Forall_impl; [exact H|]. intros c Hc. by left. Qed.

Lemma callDone_calls s cfg dv k t sc ar ce sg nx d h sp mg tr :
  sg !! s = Some cfg -> doneCallback cfg = dv -> is_function dv = true ->
  callDone s (mkState k t sc ar ce sg nx d h sp mg tr)
  = mkState (Call dv [] :: ClearDone s :: k) t sc ar ce sg nx d h sp mg tr.
Proof.
  intros Hs Hd Hf. unfold callDone. expose. rewrite Hs. cbn [from_option]. unfold id.
  rewrite Hd, Hf. reflexivity.
Qed.

(** A strategy of the library called as the sequencer calls it, over
    gremlins that are each synchronous or asynchronous: it runs its
    repetitions and calls the [done] it was given, and no array that was
    there before the call has changed. *)
Lemma strategy_resumes (s gl : loc) (cfg : Strategy) (us : list User) (params dv : Val)
    k sc ar ce sg (nx : loc) d h sp mg tr :
  is_function dv = true -> Forall (behaved 0) us -> inert k ->
  sg !! s = Some cfg -> ar !! gl = Some (VFun <$> us) -> gl < nx ->
  let n := repetitions params cfg in
  exists K sc' ar' ce' sg' (nx' : loc) d' tr',
    quiet K /\
    reaches (mkState (Call (VStrategy s) [VArray gl; params; dv] :: k) [] sc ar ce sg nx d
               h sp mg tr)
      (mkState (Call dv [] :: K) [] sc' ar' ce' sg' nx' d' h sp mg tr') /\
    kept nx ar ar' /\ nx <= nx' /\
    steps s tr' = steps s tr ++ expected_steps (kind cfg) n us /\
    calls tr' = calls tr ++ expected_calls cfg n us d /\
    (0 < n \/ kind cfg <> Distributed ->
     exists k', K = ClearDone s :: k' /\ inert k' /\
       sg' = <[s := set_doneCallback dv (set_stopped false cfg)]>
               (<[s := set_stopped false cfg]> sg)).
Proof.
  intros Hdv Hus Hk Hs Hgl Hlt n.
  set (cfg' := set_doneCallback dv (set_stopped false cfg)).
  set (sg2 := <[s := cfg']> (<[s := set_stopped false cfg]> sg)).
  assert (Hs2 : sg2 !! s = Some cfg') by (unfold sg2; by rewrite lookup_insert_eq).
  assert (Hquiet : forall k', inert k' -> quiet (ClearDone s :: k')).
  { intros k' Hk'. constructor; [right; by exists s|by apply inert_quiet]. }
  destruct (kind cfg) eqn:Hkind.
  - (* allTogether *)
    destruct (waves_resume s gl cfg' us n Hus eq_refl n 0 eq_refl
                k sc ar ce sg2 nx d h sp mg tr Hk Hs2 Hgl Hlt)
      as (k' & sc' & ar' & ce' & nx' & tr' & Hk' & Hr & Hkept & Hnx & Hc & Hsteps).
    rewrite (callDone_calls s cfg' dv) in Hr by done.
    exists (ClearDone s :: k'), sc', ar', ce', sg2, nx', d, tr'.
    split; [by apply Hquiet|]. split; [|split; [done|split; [done|split; [|split]]]].
    + advance. rewrite Hs. expose. rewrite Hkind.
      unfold allTogetherStrategy. expose. rewrite Hs. expose. rewrite lookup_insert_eq. expose.
      rewrite resolve_nb_repetitions. exact Hr.
    + rewrite Hsteps. reflexivity.
    + rewrite Hc. unfold expected_calls. by rewrite Hkind.
    + intros _. by exists k'.
  - (* bySpecies *)
    destruct (species_resume s nx cfg' n eq_refl us Hus
                k sc (<[nx := VFun <$> us]> ar) ce sg2 (S nx) d h sp mg tr Hk Hs2)
      as (k' & sc' & ar' & ce' & nx' & tr' & Hk' & Hr & Hkept & Hnx & Hc & Hsteps);
      [by rewrite lookup_insert_eq|lia|].
    rewrite (callDone_calls s cfg' dv) in Hr by done.
    exists (ClearDone s :: k'), sc', ar', ce', sg2, nx', d, tr'.
    split; [by apply Hquiet|]. split; [|split; [|split; [lia|split; [|split]]]].
    + advance. rewrite Hs. expose. rewrite Hkind.
      unfold bySpeciesStrategy. expose. rewrite Hgl. expose. rewrite Hs. expose.
      rewrite lookup_insert_eq. expose.
      rewrite resolve_nb_repetitions. exact Hr.
    + intros l Hl. rewrite Hkept by lia. by rewrite lookup_insert_ne by lia.
    + rewrite Hsteps. reflexivity.
    + rewrite Hc. unfold expected_calls. by rewrite Hkind.
    + intros _. by exists k'.
  - (* distribution *)
    destruct n as [|j] eqn:Hn.
    + (* the configured count is 0: [done()] at once *)
      exists k, sc, (<[nx := VFun <$> us]> ar), ce, sg, (S nx), d, tr.
      split; [by apply inert_quiet|]. split; [|split; [|split; [lia|split; [|split]]]].
      * advance. rewrite Hs. expose. rewrite Hkind.
        unfold distributionRun. expose. rewrite Hgl. expose. rewrite Hs. expose.
        rewrite resolve_nb_repetitions. fold n. rewrite Hn. cbn [Nat.eqb]. expose.
        apply reaches_refl.
      * intros l Hl. by rewrite lookup_insert_ne by lia.
      * by rewrite app_nil_r.
      * unfold expected_calls. rewrite Hkind. cbn. by rewrite app_nil_r.
      * intros [H|H]; [lia|done].
    + set (dist := weights cfg (VFun <$> us)).
      set (g := val_of_picked
                  (Distribution.pickGremlin (VFun <$> us) dist (default 0%float (head d)))).
      destruct (dist_resume s nx cfg' dist us (S j) Hus eq_refl (S j) 0 eq_refl
                  g k sc (<[nx := VFun <$> us]> ar) ce sg2 (S nx) (tail d) h sp mg tr)
        as (k' & sc' & ar' & ce' & nx' & d' & tr' & Hk' & Hr & Hkept & Hnx & Hc & Hsteps);
        [by apply picked_well_behaved|done|done|by rewrite lookup_insert_eq|lia|].
      rewrite (callDone_calls s cfg' dv) in Hr by done.
      exists (ClearDone s :: k'), sc', ar', ce', sg2, nx', d', tr'.
      split; [by apply Hquiet|]. split; [|split; [|split; [lia|split; [|split]]]].
      * advance. rewrite Hs. expose. rewrite Hkind.
        unfold distributionRun. expose. rewrite Hgl. expose. rewrite Hs. expose.
        rewrite resolve_nb_repetitions. fold n. rewrite Hn. cbn [Nat.eqb]. expose.
        rewrite lookup_insert_eq. expose. rewrite lookup_insert_eq. expose.
        exact Hr.
      * intros l Hl. rewrite Hkept by lia. by rewrite lookup_insert_ne by lia.
      * rewrite Hsteps. reflexivity.
      * rewrite Hc. unfold expected_calls. by rewrite Hkind.
      * intros _. by exists k'.
Qed.

(** Such frames are left one by one. *)
Lemma quiet_unwinds (K : list Cmd) t sc a c g n d h sp mg tr :
  quiet K ->
  exists g', reaches (mkState K t sc a c g n d h sp mg tr) (mkState [] t sc a c g' n d h sp mg tr).
Proof.
  intros HK. revert g. induction HK as [|x K Hx HK IH]; intros g.
  - exists g. apply reaches_refl.
  - destruct Hx as [Hx|[s ->]].
    + destruct (IH g) as (g' & Hr). exists g'.
      eapply reaches_step; [|exact Hr].
      destruct x; try done. cbn in *. by apply Nat.eqb_neq in Hx as ->.
    + destruct (IH (<[s := set_doneCallback VUndefined
                            (config_of s (mkState K t sc a c g n d h sp mg tr))]> g))
        as (g' & Hr).
      exists g'. eapply reaches_step; [|exact Hr]. reflexivity.
Qed.

(** *** What a run leaves behind *)

(** A strategy of the library is called in an idle machine, over gremlins
    that are each synchronous or asynchronous, and runs to its end.  Then
    every array that was there before the call is as it was: the array of
    gremlins it was given is not consumed, whatever the strategy.  When the
    run had a repetition to make, or the strategy is not the distribution
    one, the strategy is left not stopped and with no callback to call. *)
Theorem strategy_keeps_arrays (st : State) (s gl : loc) (cfg : Strategy) (us : list User)
    (params : Val) (dn : User) :
  stack st = [] -> timers st = [] ->
  strategies st !! s = Some cfg -> arrays st !! gl = Some (VFun <$> us) ->
  gl < next_loc st ->
  Forall (behaved 0) us -> u_body dn = [] ->
  let n := repetitions params cfg in
  let start := push (Call (VStrategy s) [VArray gl; params; VFun dn]) st in
  exists fuel st',
    (forall m, fuel <= m -> run m start = st') /\ final st' /\
    (forall l : loc, l < next_loc st -> arrays st' !! l = arrays st !! l) /\
    (0 < n \/ kind cfg <> Distributed ->
     strategies st' !! s
     = Some (mkStrategy (kind cfg) (delay cfg) (nb cfg) (distribution cfg) false VUndefined)).
Proof.
  destruct st as [k t sc ar ce sg nx d h sp mg tr].
  cbn [stack timers strategies arrays next_loc]. unfold push. expose.
  intros -> -> Hs Hgl Hlt Hus Hdn. set (n := repetitions params cfg).
  destruct (strategy_resumes s gl cfg us params (VFun dn) [] sc ar ce sg nx d h sp mg tr
              eq_refl Hus (Forall_nil_2 _) Hs Hgl Hlt)
    as (K & sc' & ar' & ce' & sg' & nx' & d' & tr' & HK & Hr & Hkept & Hnx & _ & _ & Hcfg).
  destruct (classic_kind cfg n) as [Hyes|Hno].
  - destruct (Hcfg Hyes) as (k' & -> & Hk' & ->).
    eapply settled.
    + eapply reaches_trans; [exact Hr|].
      advance. rewrite Hdn. cbn [map]. expose.
      advance. rewrite lookup_insert_eq.
      apply inert_unwinds, Hk'.
    + reflexivity.
    + cbn. split; [done|]. intros _. by rewrite lookup_insert_eq.
  - destruct (quiet_unwinds K [] sc' ar' ce' sg' nx' d' h sp mg (tr' ++ [ECall (u_name dn) []]) HK)
      as (g' & Hr').
    eapply settled.
    + eapply reaches_trans; [exact Hr|].
      advance. rewrite Hdn. cbn [map]. expose. exact Hr'.
    + reflexivity.
    + cbn. split; [done|]. intros H. by destruct Hno.
Qed.

Lemma strategy_keeps_arrays_witness :
  let st := arena bySpecies demo_users [] in
  let n := repetitions (VParams (Some 2)) bySpecies in
  let start := push (Call (VStrategy 6) [VArray 5; VParams (Some 2); VFun demo_done]) st in
  exists fuel st',
    (forall m, fuel <= m -> run m start = st') /\ final st' /\
    (forall l : loc, l < next_loc st -> arrays st' !! l = arrays st !! l) /\
    (0 < n \/ kind bySpecies <> Distributed ->
     strategies st' !! 6
     = Some (mkStrategy (kind bySpecies) (delay bySpecies) (nb bySpecies)
               (distribution bySpecies) false VUndefined)).
Proof.
  apply (strategy_keeps_arrays (arena bySpecies demo_users []) 6 5 bySpecies demo_users
           (VParams (Some 2)) demo_done);
    [reflexivity|reflexivity|reflexivity|reflexivity|cbn; lia|exact demo_behaved|reflexivity].
Defined.

(** *** The sequencer above frames that clear a callback *)

Lemma iterator_quiet (len : nat) (copy al : loc) (done : Val) (vs : list Val) (cbs : list Val) :
  copy <> al -> Forall (well_behaved len) cbs -> len = length vs ->
  forall k s a c g n d h sp mg tr,
    quiet k ->
    a !! copy = Some cbs ->
    a !! al = Some (vs ++ [VNext len copy al done]) ->
    exists k' s' g',
      quiet k' /\
      reaches (mkState (Iterate len copy al done :: k) [] s a c g n d h sp mg tr)
              (mkState (Iterate len copy al done :: k') [] s' (<[copy := []]> a) c g' n d
                 h sp mg (tr ++ invocations cbs (vs ++ [VNext len copy al done]))).
Proof.
  intros Hne Hwb Hlen.
  induction Hwb as [|cb cbs [(u & -> & Hu)|[-> Hz]] Hwb IH];
    intros k s a c g n d h sp mg tr Hk Hcopy Hal.
  - exists k, s, g. split; [done|].
    rewrite insert_id by done. cbn. rewrite app_nil_r. apply reaches_refl.
  - set (next := VNext len copy al done) in *.
    assert (Hal' : <[copy := cbs]> a !! al = Some (vs ++ [next]))
      by (by rewrite lookup_insert_ne).
    assert (Hcopy' : <[copy := cbs]> a !! copy = Some cbs)
      by (by rewrite lookup_insert_eq).
    destruct Hu as [[Hl Hb]|[Hl Hb]].
    + destruct (IH k s (<[copy := cbs]> a) c g n d h sp mg
                  (tr ++ [ECall (u_name u) (vs ++ [next])]) Hk Hcopy' Hal')
        as (k' & s' & g' & Hk' & Hr).
      exists k', s', g'. split; [done|].
      eapply reaches_step.
      { cbn. unfold iterator. cbn. rewrite Hcopy. cbn. rewrite Hal'. reflexivity. }
      eapply reaches_step.
      { cbn. rewrite Hb. reflexivity. }
      eapply reaches_step.
      { cbn. rewrite Hl, Nat.eqb_refl. reflexivity. }
      cbn. rewrite insert_insert_eq in Hr. cbn. rewrite <- app_assoc in Hr. exact Hr.
    + assert (Hin : quiet_cmd (SyncTest (VFun u) len copy al done)).
      { left. cbn. rewrite Hl. lia. }
      destruct Hb as [Hb|Hb].
      * destruct (IH (SyncTest (VFun u) len copy al done :: k) s (<[copy := cbs]> a)
                    c g n d h sp mg (tr ++ [ECall (u_name u) (vs ++ [next])]))
          as (k' & s' & g' & Hk' & Hr); [by constructor|done|done|].
        exists k', s', g'. split; [done|].
        eapply reaches_step.
        { cbn. unfold iterator. cbn. rewrite Hcopy. cbn. rewrite Hal'. reflexivity. }
        eapply reaches_step.
        { cbn. rewrite Hb. reflexivity. }
        eapply reaches_step.
        { cbn. rewrite trailing_next by (by rewrite Hl, Hlen). reflexivity. }
        eapply reaches_step.
        { cbn. reflexivity. }
        cbn. rewrite insert_insert_eq in Hr. rewrite <- app_assoc in Hr. exact Hr.
      * destruct (quiet_unwinds (SyncTest (VFun u) len copy al done :: k) [(0, next)] s
                    (<[copy := cbs]> a) c g n d h sp mg
                    (tr ++ [ECall (u_name u) (vs ++ [next])]))
          as (g1 & Hr1); [by constructor|].
        destruct (IH [] (tail s) (<[copy := cbs]> a)
                    c g1 n d h sp mg (tr ++ [ECall (u_name u) (vs ++ [next])]))
          as (k' & s' & g' & Hk' & Hr); [by constructor|done|done|].
        exists k', s', g'. split; [done|].
        eapply reaches_step.
        { cbn. unfold iterator. cbn. rewrite Hcopy. cbn. rewrite Hal'. reflexivity. }
        eapply reaches_step.
        { cbn. rewrite Hb. reflexivity. }
        eapply reaches_step.
        { cbn. rewrite trailing_next by (by rewrite Hl, Hlen). reflexivity. }
        cbn.
        eapply reaches_trans; [exact Hr1|].
        eapply reaches_step; [apply step_single_timer|].
        eapply reaches_step.
        { cbn. reflexivity. }
        cbn. rewrite insert_insert_eq in Hr.
        rewrite <- app_assoc in Hr. exact Hr.
  - set (next := VNext len copy al done) in *.
    destruct (IH k s (<[copy := cbs]> a) c g n d h sp mg tr Hk) as (k' & s' & g' & Hk' & Hr).
    { by rewrite lookup_insert_eq. }
    { by rewrite lookup_insert_ne. }
    exists k', s', g'. split; [done|].
    eapply reaches_step.
    { cbn. unfold iterator. cbn. rewrite Hcopy. cbn.
      rewrite lookup_insert_ne by done. rewrite Hal. reflexivity. }
    eapply reaches_step.
    { cbn. reflexivity. }
    eapply reaches_step.
    { cbn. rewrite Hz. reflexivity. }
    cbn. rewrite insert_insert_eq in Hr. exact Hr.
Qed.

End StrategyFrames.

(** ** A whole run of the horde *)

Module HordeRun.
Import Engine EngineFacts StrategyFacts SequencerEdges HordeFacts StrategyFrames.

Ltac reveal :=
  expose;
  cbn [_gremlins _mogwais _strategies _beforeCallbacks _afterCallbacks from_option];
  unfold id.

Ltac look :=
  repeat first [rewrite lookup_insert_eq | rewrite lookup_insert_ne by (done || lia)].

(** The state when the three defaults of [unleash] are applied. *)
Lemma defaults_state sc ar ce sg (nx : loc) d (g m s b a : loc) sp mg tr gv mv sv bv av :
  NoDup [g; m; s; b; a] -> Forall (fun l => l < nx) [g; m; s; b; a] ->
  ar !! g = Some gv -> ar !! m = Some mv -> ar !! s = Some sv ->
  ar !! b = Some bv -> ar !! a = Some av ->
  exists ar' sg' (nx' : loc),
    defaults (mkState [] [] sc ar ce sg nx d (mkHorde g m s b a) sp mg tr)
    = mkState [] [] sc ar' ce sg' nx' d (mkHorde g m s b a) sp mg tr /\
    nx <= nx' /\
    ar' !! g = Some (or_default gv (VFun <$> sp)) /\
    ar' !! m = Some (or_default mv (VFun <$> mg)) /\
    ar' !! s = Some (or_default sv [VStrategy nx]) /\
    ar' !! b = Some bv /\ ar' !! a = Some av /\
    (sv = [] -> sg' !! nx = Some distributionStrategy) /\
    (sv <> [] -> sg' = sg).
Proof.
  intros Hnd Hlt Hg Hm Hs Hb Ha.
  destruct (horde_ok_inv _ _ _ _ _ _ Hnd Hlt)
    as [(Hgm & Hgs & Hgb & Hga & Hms & Hmb & Hma & Hsb & Hsa & Hba) _].
  unfold defaults, allGremlins, allMogwais, strategy. reveal.
  rewrite Hg. reveal.
  destruct gv as [|g0 gv]; reveal; look; rewrite ?Hm; reveal;
    (destruct mv as [|m0 mv]; reveal; look; rewrite ?Hs; reveal;
     (destruct sv as [|s0 sv]; reveal; look;
      (eexists _, _, _; split; [reflexivity|]; split; [lia|]; look;
       rewrite ?Hg, ?Hm, ?Hs, ?Hb, ?Ha; repeat split; try done;
       intros _; by rewrite lookup_insert_eq))).
Qed.

(** The state when [unleash] has called the sequencer for the first
    phase: the array of the first phase is new, the array of the last one
    is the registry. *)
Lemma unleash_start sc ar ce sg (nx : loc) d (g m s b a : loc) sp mg tr
    (G M SS B A0 : list Val) (params done : Val) (st : State) :
  NoDup [g; m; s; b; a] -> Forall (fun l => l < nx) [g; m; s; b; a] ->
  defaults st = mkState [] [] sc ar ce sg nx d (mkHorde g m s b a) sp mg tr ->
  horde st = mkHorde g m s b a ->
  ar !! g = Some G -> ar !! m = Some M -> ar !! s = Some SS ->
  ar !! b = Some B -> ar !! a = Some A0 ->
  injects ((G ++ M) ++ SS ++ B ++ A0) = true ->
  let attack := VAttack params a done in
  let next := VNext 0 (S (S nx)) (S nx) attack in
  exists inj,
    unleash params done st
    = mkState [Iterate 0 (S (S nx)) (S nx) attack] [] sc
        (<[S nx := [next]]>
           (<[S (S nx) := B ++ M]>
              (<[S nx := []]>
                 (<[a := A0 ++ cleanUps (G ++ M)]> (<[nx := B ++ M]> ar)))))
        ce sg (S (S (S nx))) d (mkHorde g m s b a) sp mg (tr ++ [EInject inj]).
Proof.
  intros Hnd Hlt Hdef Hh Hg Hm Hs Hb Ha Hin attack next.
  destruct (horde_ok_inv _ _ _ _ _ _ Hnd Hlt)
    as [(Hgm & Hgs & Hgb & Hga & Hms & Hmb & Hma & Hsb & Hsa & Hba)
        (Lg & Lm & Ls & Lb & La)].
  assert (Hall : allCallbacks (mkState [] [] sc ar ce sg nx d (mkHorde g m s b a) sp mg tr)
                 = (G ++ M) ++ SS ++ B ++ A0).
  { unfold allCallbacks. reveal. by rewrite Hg, Hm, Hs, Hb, Ha. }
  unfold unleash. cbv zeta. rewrite Hdef, Hh, Hall, Hin.
  unfold phases, executeInSeries. reveal.
  rewrite ?Hg, ?Hm, ?Hb, ?Ha. reveal. look. rewrite ?Ha. reveal. look. reveal.
  eexists. reflexivity.
Qed.

Lemma injects_app (l1 l2 : list Val) : injects (l1 ++ l2) = injects l1 && injects l2.
Proof. apply forallb_app. Qed.

Lemma injects_users (us : list User) : injects (VFun <$> us) = true.
Proof. unfold injects. induction us as [|u us IH]; [done|]. exact IH. Qed.

(** The [cleanUp] functions among those of the user. *)
Definition clean (us : list User) : list User := omap u_cleanUp us.

Lemma cleanUps_users (us : list User) : cleanUps (VFun <$> us) = VFun <$> clean us.
Proof.
  unfold cleanUps, clean. induction us as [|u us IH]; [done|].
  cbn. destruct (u_cleanUp u); cbn; by rewrite IH.
Qed.

Lemma calls_inject (t : list Event) (inj : list Val) : calls (t ++ [EInject inj]) = calls t.
Proof. rewrite calls_app. cbn. by rewrite app_nil_r. Qed.

Lemma steps_inject (s : loc) (t : list Event) (inj : list Val) :
  steps s (t ++ [EInject inj]) = steps s t.
Proof. rewrite steps_app. cbn. by rewrite app_nil_r. Qed.

Lemma steps_call (s : loc) (t : list Event) (name : string) (vs : list Val) :
  steps s (t ++ [ECall name vs]) = steps s t.
Proof. rewrite steps_app. cbn. by rewrite app_nil_r. Qed.

(** The three phases, from the first call of the sequencer on. *)
Lemma phases_run sc ar ce sg (nx : loc) d (g m s b a : loc) sp mg tr
    (pre gus post : list User) (s0 : loc) (cfg : Strategy) (params : Val) (dn : User) :
  NoDup [g; m; s; b; a] -> Forall (fun l => l < nx) [g; m; s; b; a] ->
  ar !! g = Some (VFun <$> gus) -> ar !! s = Some [VStrategy s0] ->
  ar !! a = Some (VFun <$> post) -> sg !! s0 = Some cfg ->
  Forall (behaved 0) pre -> Forall (behaved 0) gus -> Forall (behaved 0) post ->
  u_body dn = [] ->
  let attack := VAttack params a (VFun dn) in
  let next := VNext 0 (S nx) nx attack in
  let n := repetitions params cfg in
  exists st',
    reaches
      (mkState [Iterate 0 (S nx) nx attack] [] sc
         (<[nx := [next]]> (<[S nx := VFun <$> pre]> ar))
         ce sg (S (S nx)) d (mkHorde g m s b a) sp mg tr) st' /\
    final st' /\
    calls (trace st')
      = calls tr ++ (u_name <$> pre) ++ expected_calls cfg n gus d ++ (u_name <$> post)
          ++ [u_name dn] /\
    steps s0 (trace st') = steps s0 tr ++ expected_steps (kind cfg) n gus.
Proof.
  intros Hnd Hlt Hg Hs Ha Hs0 Hpre Hgus Hpost Hdn attack next n.
  destruct (horde_ok_inv _ _ _ _ _ _ Hnd Hlt)
    as [(Hgm & Hgs & Hgb & Hga & Hms & Hmb & Hma & Hsb & Hsa & Hba)
        (Lg & Lm & Ls & Lb & La)].
  (* setup *)
  set (ar0 := <[nx := [next]]> (<[S nx := VFun <$> pre]> ar)).
  destruct (iterator_runs 0 (S nx) nx attack [] (VFun <$> pre) ltac:(lia) eq_refl
              (behaved_well _ _ Hpre) eq_refl [] sc ar0 ce sg (S (S nx)) d
              (mkHorde g m s b a) sp mg tr)
    as (k1 & sc1 & Hk1 & Hr1).
  { constructor. }
  { unfold ar0. look. done. }
  { unfold ar0. look. done. }
  set (ar1 := <[S nx := []]> ar0) in *.
  set (tr1 := tr ++ invocations (VFun <$> pre) ([] ++ [next])) in *.
  (* attack *)
  set (teardown := VTeardown a (VFun dn)).
  set (nA := S (S nx)).
  set (next1 := VNext 2 (S nA) nA teardown).
  set (vs1 := [VArray g; params; next1]).
  set (ar3 := <[S nA := []]> (<[nA := vs1]> (<[S nA := [VStrategy s0]]>
                (<[nA := [VArray g; params]]> ar1)))).
  assert (Hin : inert (SyncTest (VStrategy s0) 2 (S nA) nA teardown :: k1)).
  { constructor; [|done]. cbn. lia. }
  destruct (strategy_resumes s0 g cfg gus params next1
              (SyncTest (VStrategy s0) 2 (S nA) nA teardown :: k1) sc1 ar3 ce sg (S (S nA)) d
              (mkHorde g m s b a) sp mg tr1 eq_refl Hgus Hin Hs0)
    as (K & sc4 & ar4 & ce4 & sg4 & nx4 & d4 & tr4 & HK & Hr4 & Hkept & Hnx4 & Hsteps4 & Hcalls4 & _).
  { unfold ar3, ar1, ar0, nA. look. done. }
  { unfold nA. lia. }
  (* teardown *)
  set (finish := VFinish (VFun dn)).
  set (next2 := VNext 0 (S nx4) nx4 finish).
  set (ar5 := <[nx4 := [next2]]> (<[S nx4 := VFun <$> post]> (<[nx4 := []]> ar4))).
  destruct (iterator_quiet 0 (S nx4) nx4 finish [] (VFun <$> post) ltac:(lia)
              (behaved_well _ _ Hpost) eq_refl K sc4 ar5 ce4 sg4 (S (S nx4)) d4
              (mkHorde g m s b a) sp mg tr4 HK)
    as (K' & sc6 & sg6 & HK' & Hr6).
  { unfold ar5. look. done. }
  { unfold ar5. look. done. }
  destruct (quiet_unwinds K' [] sc6 (<[S nx4 := []]> ar5) ce4 sg6 (S (S nx4)) d4
              (mkHorde g m s b a) sp mg
              ((tr4 ++ invocations (VFun <$> post) ([] ++ [next2])) ++ [ECall (u_name dn) []]) HK')
    as (sg7 & Hr7).
  assert (H1s : ar1 !! s = Some [VStrategy s0]) by (unfold ar1, ar0; look; done).
  assert (H4c : ar4 !! S nA = Some []).
  { rewrite (Hkept (S nA)) by lia. unfold ar3. look. done. }
  assert (H4a : ar4 !! a = Some (VFun <$> post)).
  { rewrite (Hkept a) by (unfold nA; lia). unfold ar3, ar1, ar0, nA. look. done. }
  eexists. split; [|split; [apply final_idle|]].
  - eapply reaches_trans; [exact Hr1|].
    unfold attack. advance. unfold executeInSeries. reveal. look.
    rewrite H1s. reveal.
    advance. unfold iterator. reveal. look. reveal. cbn [falsy]. look. reveal.
    eapply reaches_trans; [exact Hr4|].
    unfold next1. advance.
    advance. unfold iterator. reveal. rewrite H4c. reveal.
    unfold teardown. advance. unfold executeInSeries. reveal. look.
    rewrite H4a. reveal.
    eapply reaches_trans; [exact Hr6|].
    advance. unfold iterator. reveal. look. reveal.
    unfold finish. advance.
    advance. rewrite Hdn. cbn [map]. reveal.
    exact Hr7.
  - cbn [trace]. unfold tr1 in *. split.
    + rewrite !calls_app, Hcalls4, !calls_app, !calls_invocations. cbn.
      rewrite <- !app_assoc. reflexivity.
    + rewrite steps_call, steps_app, steps_invocations, app_nil_r, Hsteps4.
      rewrite steps_app, steps_invocations, app_nil_r. reflexivity.
Qed.

(** [horde.unleash(params, done)] in an idle machine, the callbacks of the
    horde being each synchronous or asynchronous, with one strategy of the
    library registered or none (the distribution strategy is then made).
    The three phases follow each other: first the before callbacks, then
    the mogwais; then the strategy, over the gremlins, for its number of
    repetitions; then the after callbacks and the [cleanUp] of the
    gremlins and of the mogwais that have one; [done] is entered last, and
    once.  An empty registry of gremlins or mogwais stands for the
    catalog. *)
Theorem unleash_runs_three_phases (st : State) (params : Val) (dn : User)
    (gv mv : list Val) (gus mus bs afters : list User) (s0 : loc) (cfg : Strategy) :
  stack st = [] -> timers st = [] -> horde_ok st ->
  arrays st !! _gremlins (horde st) = Some gv ->
  or_default gv (VFun <$> species st) = VFun <$> gus ->
  arrays st !! _mogwais (horde st) = Some mv ->
  or_default mv (VFun <$> mogwais st) = VFun <$> mus ->
  arrays st !! _beforeCallbacks (horde st) = Some (VFun <$> bs) ->
  arrays st !! _afterCallbacks (horde st) = Some (VFun <$> afters) ->
  (arrays st !! _strategies (horde st) = Some [VStrategy s0] /\
     strategies st !! s0 = Some cfg \/
   arrays st !! _strategies (horde st) = Some [] /\
     s0 = next_loc st /\ cfg = distributionStrategy) ->
  Forall (behaved 0) (bs ++ mus) -> Forall (behaved 0) gus ->
  Forall (behaved 0) (afters ++ clean (gus ++ mus)) -> u_body dn = [] ->
  let n := repetitions params cfg in
  exists fuel st',
    (forall m, fuel <= m -> run m (push (Unleash params (VFun dn)) st) = st') /\
    final st' /\
    calls (trace st')
      = calls (trace st) ++ (u_name <$> bs ++ mus) ++ expected_calls cfg n gus (draws st)
          ++ (u_name <$> afters ++ clean (gus ++ mus)) ++ [u_name dn] /\
    steps s0 (trace st') = steps s0 (trace st) ++ expected_steps (kind cfg) n gus.
Proof.
  destruct st as [k t sc ar ce sg nx d [g m s b a] sp mg tr].
  unfold horde_ok, registries.
  cbn [stack timers arrays strategies next_loc horde species mogwais trace draws
       _gremlins _mogwais _strategies _beforeCallbacks _afterCallbacks].
  intros -> -> [Hnd Hlt] Hg HG Hm HM Hb Ha Hstrat Hpre Hgus Hpost Hdn.
  set (n := repetitions params cfg).
  assert (exists sv, ar !! s = Some sv /\ or_default sv [VStrategy nx] = [VStrategy s0] /\
                     (sv <> [] -> sg !! s0 = Some cfg) /\
                     (sv = [] -> s0 = nx /\ cfg = distributionStrategy))
    as (sv & Hs & HS & Hreg & Hnew).
  { destruct Hstrat as [[Hs Hc]|(Hs & -> & ->)].
    - exists [VStrategy s0]. by repeat split.
    - exists []. by repeat split. }
  destruct (defaults_state sc ar ce sg nx d g m s b a sp mg tr gv mv sv (VFun <$> bs)
              (VFun <$> afters) Hnd Hlt Hg Hm Hs Hb Ha)
    as (ar' & sg' & nx' & Hdef & Hle & Hg' & Hm' & Hs' & Hb' & Ha' & Hsg1 & Hsg2).
  rewrite HG in Hg'. rewrite HM in Hm'. rewrite HS in Hs'.
  assert (Hlt' : Forall (fun l : loc => l < nx') [g; m; s; b; a]).
  { eapply Forall_impl; [exact Hlt|]. intros l Hl. cbn in Hl. lia. }
  destruct (unleash_start sc ar' ce sg' nx' d g m s b a sp mg tr
              (VFun <$> gus) (VFun <$> mus) [VStrategy s0] (VFun <$> bs) (VFun <$> afters)
              params (VFun dn) _ Hnd Hlt' Hdef eq_refl Hg' Hm' Hs' Hb' Ha')
    as (inj & Hstart).
  { by rewrite !injects_app, !injects_users. }
  destruct (horde_ok_inv _ _ _ _ _ _ Hnd Hlt')
    as [(Hgm & Hgs & Hgb & Hga & Hms & Hmb & Hma & Hsb & Hsa & Hba)
        (Lg & Lm & Ls & Lb & La)].
  assert (Hcfg : sg' !! s0 = Some cfg).
  { destruct sv as [|x sv].
    - destruct (Hnew eq_refl) as [-> ->]. by apply Hsg1.
    - rewrite Hsg2 by done. by apply Hreg. }
  rewrite <- !fmap_app, cleanUps_users, <- fmap_app in Hstart.
  set (ar_run := <[S nx' := []]>
                   (<[a := VFun <$> afters ++ clean (gus ++ mus)]>
                      (<[nx' := VFun <$> bs ++ mus]> ar'))) in *.
  destruct (phases_run sc ar_run ce sg' (S nx') d g m s b a sp mg (tr ++ [EInject inj])
              (bs ++ mus) gus (afters ++ clean (gus ++ mus)) s0 cfg params dn Hnd)
    as (st' & Hr & Hfin & Hcalls & Hsteps); try done.
  { eapply Forall_impl; [exact Hlt'|]. intros l Hl. cbn in Hl. lia. }
  { unfold ar_run. look. done. }
  { unfold ar_run. look. done. }
  { unfold ar_run. look. done. }
  eapply settled.
  - eapply reaches_step; [reflexivity|].
    change (exec (Unleash params (VFun dn)) _) with
      (unleash params (VFun dn)
         (mkState [] [] sc ar ce sg nx d (mkHorde g m s b a) sp mg tr)).
    rewrite Hstart. exact Hr.
  - exact Hfin.
  - cbn beta. rewrite Hcalls, Hsteps, calls_inject, steps_inject. done.
Qed.

(** A test for callbacks that are synchronous or asynchronous. *)
Definition behaves (len : nat) (u : User) : bool :=
  match u_body u with
  | [] => Nat.eqb (u_length u) len
  | [_] => Nat.eqb (u_length u) (S len)
  | _ => false
  end.

Lemma behaves_behaved (len : nat) (us : list User) :
  forallb (behaves len) us = true -> Forall (behaved len) us.
Proof.
  intros H. apply Forall_forall. intros u Hu.
  rewrite forallb_forall in H. specialize (H u (proj1 (list_elem_of_In _ _) Hu)).
  unfold behaves in H. destruct (u_body u) as [|[] [|]] eqn:Hb; try done.
  - left. split; [by apply Nat.eqb_eq|done].
  - right. split; [by apply Nat.eqb_eq|by left].
  - right. split; [by apply Nat.eqb_eq|by right].
Qed.

Lemma unleash_runs_three_phases_witness :
  let st := initial example_species example_mogwais [0.1%float; 0.5%float; 0.9%float] [] in
  let n := repetitions (VParams (Some 3)) distributionStrategy in
  exists fuel st',
    (forall m, fuel <= m -> run m (push (Unleash (VParams (Some 3)) (VFun demo_done)) st) = st') /\
    final st' /\
    calls (trace st')
      = calls (trace st) ++ (u_name <$> [] ++ example_mogwais)
          ++ expected_calls distributionStrategy n example_species (draws st)
          ++ (u_name <$> [] ++ clean (example_species ++ example_mogwais))
          ++ [u_name demo_done] /\
    steps 5 (trace st') = steps 5 (trace st) ++ expected_steps (kind distributionStrategy) n
                                                  example_species.
Proof.
  apply (unleash_runs_three_phases
           (initial example_species example_mogwais [0.1%float; 0.5%float; 0.9%float] [])
           (VParams (Some 3)) demo_done [] [] example_species example_mogwais [] [] 5
           distributionStrategy);
    [reflexivity|reflexivity|apply initial_ok|reflexivity|reflexivity|reflexivity
    |reflexivity|reflexivity|reflexivity|right; repeat split
    |apply behaves_behaved; reflexivity|apply behaves_behaved; reflexivity
    |apply behaves_behaved; reflexivity|reflexivity].
Defined.

End HordeRun.

(** ** The tries of the clicker *)

Module ClickerFacts.
Import Clicker.

Section Tries.
Context {Element Coord : Type}.
Variable elementFromPoint : Coord -> Coord -> option Element.
Variable config : Config Element Coord.

Lemma seek_gives_up (fuel nbTries : nat) :
  nbTries <= maxNbTries config -> maxNbTries config < nbTries + fuel ->
  (forall j, nbTries <= j < maxNbTries config -> clickable elementFromPoint config j = None) ->
  seek elementFromPoint config fuel nbTries = GaveUp (S (maxNbTries config)).
Proof.
  revert nbTries. induction fuel as [|fuel IH]; intros nbTries Hle Hfuel Hnone; [lia|].
  cbn [seek]. cbv zeta.
  destruct (maxNbTries config <? S nbTries) eqn:E.
  - apply Nat.ltb_lt in E. f_equal. lia.
  - apply Nat.ltb_ge in E.
    assert (Hk := Hnone nbTries ltac:(lia)). unfold clickable in Hk. cbv zeta in Hk.
    destruct (elementFromPoint _ _) as [el|]; [destruct (canClick config el); [done|]|];
      apply IH; try lia; intros j Hj; apply Hnone; lia.
Qed.

Lemma seek_finds (fuel nbTries k : nat) (el : Element) :
  nbTries <= k -> k < maxNbTries config -> k < nbTries + fuel ->
  (forall j, nbTries <= j < k -> clickable elementFromPoint config j = None) ->
  clickable elementFromPoint config k = Some el ->
  seek elementFromPoint config fuel nbTries
  = Found (positionSelector config k).1 (positionSelector config k).2 el (S k).
Proof.
  revert nbTries. induction fuel as [|fuel IH]; intros nbTries Hle Hmax Hfuel Hnone Hk; [lia|].
  cbn [seek]. cbv zeta.
  destruct (maxNbTries config <? S nbTries) eqn:E; [apply Nat.ltb_lt in E; lia|].
  destruct (decide (nbTries = k)) as [->|Hne].
  - unfold clickable in Hk. cbv zeta in Hk.
    destruct (elementFromPoint _ _) as [el'|]; [|done].
    destruct (canClick config el'); [|done]. by injection Hk as ->.
  - assert (Hn := Hnone nbTries ltac:(lia)). unfold clickable in Hn. cbv zeta in Hn.
    destruct (elementFromPoint _ _) as [el'|]; [destruct (canClick config el'); [done|]|];
      apply IH; try lia; try done; intros j Hj; apply Hnone; lia.
Qed.

(** The clicker clicks at the first point, among those of its first
    [maxNbTries] tries, that holds an element [canClick] accepts: one event
    is dispatched, to this element and at this point, and
    [positionSelector] has been called once per try. *)
Theorem clicker_clicks_first_clickable (pick : list string -> string) (k : nat)
    (el : Element) :
  randomizer config = Some pick ->
  k < maxNbTries config ->
  (forall j, j < k -> clickable elementFromPoint config j = None) ->
  clickable elementFromPoint config k = Some el ->
  let posX := (positionSelector config k).1 in
  let posY := (positionSelector config k).2 in
  let clickType := pick (clickTypes config) in
  clickerGremlin elementFromPoint config
  = Some (mkOutcome (Returns None)
            ([Dispatch el clickType posX posY]
               ++ (if showAction config then [Show posX posY clickType] else [])
               ++ (if logger config then [Log clickType posX posY] else []))
            (S k)).
Proof.
  intros Hr Hk Hnone Hel. cbv zeta. unfold clickerGremlin. rewrite Hr.
  rewrite (seek_finds _ 0 k el); try done; try lia.
  intros j Hj. apply Hnone. lia.
Qed.

(** When none of the points of its first [maxNbTries] tries holds an
    element [canClick] accepts, the clicker returns [false] and has
    dispatched nothing; it has asked for one point more than it looked
    at.  With [maxNbTries] at 0 this is always so. *)
Theorem clicker_gives_up (pick : list string -> string) :
  randomizer config = Some pick ->
  (forall j, j < maxNbTries config -> clickable elementFromPoint config j = None) ->
  clickerGremlin elementFromPoint config
  = Some (mkOutcome (Returns (Some false)) [] (S (maxNbTries config))).
Proof.
  intros Hr Hnone. unfold clickerGremlin. rewrite Hr.
  rewrite seek_gives_up; try done; try lia.
  intros j Hj. apply Hnone. lia.
Qed.

End Tries.

(** A page of one button, at the points with [posX = 1]. *)
Definition page (posX posY : nat) : option string :=
  if Nat.eqb posX 1 then Some "button"%string else None.

Definition demo_config (maxNbTries : nat) : Config string nat :=
  mkConfig ["click"; "dblclick"]%string (Some (fun l => default ""%string (head l)))
    (fun k => (Nat.modulo k 2, k)) true (fun _ => true) maxNbTries true.

Lemma clicker_clicks_first_clickable_witness :
  clickerGremlin page (demo_config 10)
  = Some (mkOutcome (Returns None)
            [Dispatch "button" "click" 1 1; Show 1 1 "click"; Log "click" 1 1]%string 2).
Proof.
  apply (clicker_clicks_first_clickable page (demo_config 10)
           (fun l => default ""%string (head l)) 1 "button"%string);
    [reflexivity|cbn; lia| |reflexivity].
  intros j Hj. destruct j; [reflexivity|lia].
Defined.

Lemma clicker_gives_up_witness :
  clickerGremlin page (demo_config 1)
  = Some (mkOutcome (Returns (Some false)) [] 2).
Proof.
  apply (clicker_gives_up page (demo_config 1) (fun l => default ""%string (head l)));
    [reflexivity|].
  intros j Hj. destruct j; [reflexivity|cbn in Hj; lia].
Defined.

End ClickerFacts.

(** ** The errors the gizmo counts *)

Module GizmoFacts.
Import Gizmo.

(** The page before the mogwai runs: [window.onerror] holds nothing or a
    function of the page, [console.error] the function of the browser. *)
Definition plain_handler (h : Handler) : Prop :=
  h = Nothing \/ exists name, h = Native name.

(** What an error enters of the functions that were there before. *)
Definition passes (h0 : Handler) (c0 : string) (r : Report) : list string :=
  match r with
  | Uncaught => match h0 with Native name => [name] | _ => [] end
  | Logged => [c0]
  end.

Lemma omap_entered (l : list string) :
  omap (fun e => match e with Entered name => Some name | _ => None end) (Entered <$> l) = l.
Proof. induction l as [|x l IH]; [done|]. cbn. by f_equal. Qed.

Section Counting.
Variable w0 : World.
Variable c0 : string.
Hypothesis page_onerror : plain_handler (onerror w0).
Hypothesis page_console : console_error w0 = Native c0.

(** The world when the run of the mogwai has counted [j] errors. *)
Definition counted (j : nat) (evs : list Event) : World :=
  mkWorld (maxErrors w0) (logger w0) (onerror w0) (console_error w0)
    (nbErrors w0 ++ [j]) (OnErrorOf (length (nbErrors w0)))
    (ConsoleErrorOf (length (nbErrors w0))) evs.

(** What error number [S j] adds to the events before it is passed on. *)
Definition alarm (j : nat) : list Event :=
  if maxErrors w0 <=? S j then Stop :: (if logger w0 then [WarnLater] else []) else [].

Lemma gizmoMogwai_counted : gizmoMogwai w0 = counted 0 (events w0).
Proof. reflexivity. Qed.

Lemma increment_counted (j : nat) (evs : list Event) :
  incrementNbErrors (length (nbErrors w0)) (counted j evs) = counted (S j) (evs ++ alarm j).
Proof.
  unfold incrementNbErrors, counted, alarm. cbn.
  rewrite lookup_app_r, Nat.sub_diag by done. cbn.
  assert (Hins : <[length (nbErrors w0) := S j]> (nbErrors w0 ++ [j]) = nbErrors w0 ++ [S j]).
  { rewrite insert_app_r_alt, Nat.sub_diag by done. reflexivity. }
  destruct (maxErrors w0 <=? S j); cbn.
  - destruct (logger w0); cbn; unfold emit; cbn; rewrite Hins, <- ?app_assoc; reflexivity.
  - by rewrite Hins, app_nil_r.
Qed.

Lemma report_counted (fuel : nat) (r : Report) (j : nat) (evs : list Event) :
  2 <= fuel ->
  report fuel r (counted j evs)
  = Some (counted (S j) (evs ++ alarm j ++ (Entered <$> passes (onerror w0) c0 r))).
Proof.
  intros Hfuel. destruct fuel as [|[|fuel]]; try lia.
  destruct r; cbn [report onerror console_error counted call].
  - rewrite increment_counted. cbn [realOnError counted].
    destruct page_onerror as [H|[name H]]; rewrite H; cbn.
    + by rewrite app_nil_r.
    + unfold emit. cbn. by rewrite <- app_assoc.
  - rewrite increment_counted. cbn [realLoggerError counted]. rewrite page_console. cbn.
    unfold emit. cbn. by rewrite <- app_assoc.
Qed.

Lemma reports_counted (fuel : nat) (rs : list Report) :
  2 <= fuel ->
  forall j evs, exists evs',
    reports fuel rs (counted j evs) = Some (counted (j + length rs) evs') /\
    stops (counted (j + length rs) evs')
    = stops (counted j evs) + ((j + length rs) - Nat.max j (maxErrors w0 - 1)) /\
    entered (counted (j + length rs) evs')
    = entered (counted j evs) ++ flat_map (passes (onerror w0) c0) rs.
Proof.
  intros Hfuel. induction rs as [|r rs IH]; intros j evs.
  - exists evs. cbn. rewrite Nat.add_0_r, app_nil_r. repeat split. lia.
  - destruct (IH (S j) (evs ++ alarm j ++ (Entered <$> passes (onerror w0) c0 r)))
      as (evs' & Hrun & Hstops & Hent).
    exists evs'. cbn [reports length]. rewrite report_counted by done.
    replace (j + S (length rs)) with (S j + length rs) by lia.
    split; [done|]. split.
    + rewrite Hstops. unfold stops. cbn [events counted].
      rewrite !List.filter_app, !length_app.
      assert (Hpass : List.filter (fun e => match e with Stop => true | _ => false end)
                        (Entered <$> passes (onerror w0) c0 r) = []).
      { destruct r; cbn; [by destruct (onerror w0)|done]. }
      rewrite Hpass. cbn [length]. unfold alarm.
      destruct (maxErrors w0 <=? S j) eqn:E.
      * apply Nat.leb_le in E. destruct (logger w0); cbn; lia.
      * apply Nat.leb_gt in E. cbn. lia.
    + rewrite Hent. unfold entered. cbn [events counted flat_map].
      rewrite !omap_app. rewrite <- !app_assoc. f_equal.
      assert (Halarm : omap (fun e => match e with Entered name => Some name | _ => None end)
                         (alarm j) = []).
      { unfold alarm. destruct (maxErrors w0 <=? S j); [|done]. by destruct (logger w0). }
      rewrite Halarm. cbn [app]. f_equal. apply omap_entered.
Qed.

(** After [cleanUp] the errors are passed on and no longer counted. *)
Lemma reports_cleaned (fuel : nat) (rs : list Report) (j : nat) :
  2 <= fuel ->
  forall evs, exists evs',
    reports fuel rs (cleanUp (counted j evs))
    = Some (mkWorld (maxErrors w0) (logger w0) (onerror w0) (console_error w0)
              (nbErrors w0 ++ [j]) (onerror w0) (Bound (console_error w0)) evs') /\
    List.filter (fun e => match e with Stop => true | _ => false end) evs'
    = List.filter (fun e => match e with Stop => true | _ => false end) evs /\
    omap (fun e => match e with Entered name => Some name | _ => None end) evs'
    = omap (fun e => match e with Entered name => Some name | _ => None end) evs
        ++ flat_map (passes (onerror w0) c0) rs.
Proof.
  intros Hfuel. unfold cleanUp, counted. cbn. rewrite page_console.
  induction rs as [|r rs IH]; intros evs.
  - exists evs. cbn. by rewrite app_nil_r.
  - destruct fuel as [|[|fuel]]; try lia.
    destruct (IH (evs ++ (Entered <$> passes (onerror w0) c0 r))) as (evs' & Hrun & Hs & He).
    exists evs'. split; [|split].
    + rewrite <- Hrun. cbn [reports]. destruct r; cbn.
      * destruct page_onerror as [H|[name H]]; rewrite H; cbn; [by rewrite app_nil_r|done].
      * done.
    + rewrite Hs, List.filter_app.
      destruct r; cbn; [destruct (onerror w0); cbn|]; by rewrite ?app_nil_r.
    + rewrite He, omap_app, omap_entered. cbn [flat_map]. by rewrite <- app_assoc.
Qed.

End Counting.

(** The gizmo runs in a page whose [window.onerror] holds nothing or a
    function of the page and whose [console.error] is the function of the
    browser.  Of the errors that follow, uncaught or logged, it lets the
    first [maxErrors - 1] pass and asks the horde to stop at each one from
    error number [maxErrors] on: once per error, not once in all (with
    [maxErrors] at 0 or 1, at every error).  Every error is passed on to
    the function that was there before. *)
Theorem gizmo_stops_from_maxErrors_on (w0 : World) (c0 : string) (rs : list Report)
    (fuel : nat) :
  plain_handler (onerror w0) -> console_error w0 = Native c0 -> 2 <= fuel ->
  exists w',
    reports fuel rs (gizmoMogwai w0) = Some w' /\
    stops w' = stops w0 + (length rs - (maxErrors w0 - 1)) /\
    entered w' = entered w0 ++ flat_map (passes (onerror w0) c0) rs.
Proof.
  intros Hh Hc Hfuel.
  destruct (reports_counted w0 c0 Hh Hc fuel rs Hfuel 0 (events w0)) as (evs' & Hrun & Hs & He).
  rewrite gizmoMogwai_counted. eexists. split; [exact Hrun|]. split.
  - rewrite Hs. cbn. unfold stops at 1. cbn [events counted]. fold (stops w0). lia.
  - rewrite He. reflexivity.
Qed.

(** [cleanUp] after the run gives [window.onerror] back what it held, and
    [console.error] the function of the browser, bound to the console: the
    errors that follow are passed on as before, and the horde is asked to
    stop for none of them. *)
Theorem gizmo_cleanUp_restores (w0 : World) (c0 : string) (rs rs' : list Report)
    (fuel : nat) :
  plain_handler (onerror w0) -> console_error w0 = Native c0 -> 2 <= fuel ->
  exists w1 w2,
    reports fuel rs (gizmoMogwai w0) = Some w1 /\
    onerror (cleanUp w1) = onerror w0 /\
    console_error (cleanUp w1) = Bound (console_error w0) /\
    reports fuel rs' (cleanUp w1) = Some w2 /\
    stops w2 = stops w1 /\
    entered w2 = entered w1 ++ flat_map (passes (onerror w0) c0) rs'.
Proof.
  intros Hh Hc Hfuel.
  destruct (reports_counted w0 c0 Hh Hc fuel rs Hfuel 0 (events w0)) as (evs1 & Hrun & _).
  destruct (reports_cleaned w0 c0 Hh Hc fuel rs' (0 + length rs) Hfuel evs1)
    as (evs2 & Hrun2 & Hs & He).
  rewrite gizmoMogwai_counted. eexists _, _. split; [exact Hrun|].
  split; [|split; [|split; [exact Hrun2|split]]].
  - unfold cleanUp, counted. cbn. by rewrite Hc.
  - unfold cleanUp, counted. cbn. by rewrite Hc.
  - unfold stops. cbn [events counted]. by rewrite Hs.
  - unfold entered. cbn [events counted]. exact He.
Qed.

Definition demo_page : World :=
  mkWorld 2 true Nothing Nothing [] (Native "page.onerror") (Native "console.error") [].

Lemma demo_page_plain : plain_handler (onerror demo_page).
Proof. right. by exists "page.onerror"%string. Defined.

Lemma gizmo_stops_from_maxErrors_on_witness :
  exists w',
    reports 2 [Uncaught; Logged; Logged] (gizmoMogwai demo_page) = Some w' /\
    stops w' = stops demo_page + (length [Uncaught; Logged; Logged] - (maxErrors demo_page - 1)) /\
    entered w' = entered demo_page
                   ++ flat_map (passes (onerror demo_page) "console.error")
                        [Uncaught; Logged; Logged].
Proof.
  apply (gizmo_stops_from_maxErrors_on demo_page "console.error" [Uncaught; Logged; Logged] 2);
    [exact demo_page_plain|reflexivity|lia].
Defined.

Lemma gizmo_cleanUp_restores_witness :
  exists w1 w2,
    reports 2 [Uncaught; Logged] (gizmoMogwai demo_page) = Some w1 /\
    onerror (cleanUp w1) = onerror demo_page /\
    console_error (cleanUp w1) = Bound (console_error demo_page) /\
    reports 2 [Logged; Uncaught] (cleanUp w1) = Some w2 /\
    stops w2 = stops w1 /\
    entered w2 = entered w1
                   ++ flat_map (passes (onerror demo_page) "console.error") [Logged; Uncaught].
Proof.
  apply (gizmo_cleanUp_restores demo_page "console.error" [Uncaught; Logged] [Logged; Uncaught] 2);
    [exact demo_page_plain|reflexivity|lia].
Defined.

(** The run above, computed: two errors pass, the third one is the second
    to ask for a stop. *)
Example gizmo_three_errors :
  (events <$> reports 2 [Uncaught; Logged; Logged] (gizmoMogwai demo_page))
  = Some [Entered "page.onerror"; Stop; WarnLater; Entered "console.error";
          Stop; WarnLater; Entered "console.error"]%string.
Proof. reflexivity. Qed.

(** *** Two runs with no [cleanUp] between them *)

Lemma increment_realOnError (run : nat) (w : World) :
  realOnError (incrementNbErrors run w) = realOnError w /\
  realLoggerError (incrementNbErrors run w) = realLoggerError w.
Proof.
  unfold incrementNbErrors. cbn.
  destruct (maxErrors w <=? _); [destruct (logger w)|]; done.
Qed.

Lemma call_itself (fuel run : nat) (w : World) :
  (realOnError w = OnErrorOf run -> call fuel (OnErrorOf run) w = None) /\
  (realLoggerError w = ConsoleErrorOf run -> call fuel (ConsoleErrorOf run) w = None).
Proof.
  revert w. induction fuel as [|fuel IH]; intros w; [done|].
  destruct (increment_realOnError run w) as [H1 H2].
  split; intros H; cbn [call].
  - rewrite H1, H. apply IH. by rewrite H1.
  - rewrite H2, H. apply IH. by rewrite H2.
Qed.

(** When the mogwai runs a second time before [cleanUp] was called, the
    functions it puts in [window.onerror] and [console.error] come to call
    the ones of its first run, and these call themselves: whatever the
    depth of calls allowed, the call for an error does not return. *)
Theorem gizmo_twice_never_returns (w0 : World) (r : Report) (fuel : nat) :
  report fuel r (gizmoMogwai (gizmoMogwai w0)) = None.
Proof.
  destruct fuel as [|fuel]; [by destruct r|].
  destruct r; cbn [report gizmoMogwai onerror console_error call].
  - match goal with |- context [incrementNbErrors ?r ?w] =>
      destruct (increment_realOnError r w) as [H1 _]; rewrite H1 end.
    cbn [realOnError]. apply call_itself.
    match goal with |- context [incrementNbErrors ?r ?w] =>
      destruct (increment_realOnError r w) as [H1' _]; rewrite H1' end.
    reflexivity.
  - match goal with |- context [incrementNbErrors ?r ?w] =>
      destruct (increment_realOnError r w) as [_ H2]; rewrite H2 end.
    cbn [realLoggerError]. apply call_itself.
    match goal with |- context [incrementNbErrors ?r ?w] =>
      destruct (increment_realOnError r w) as [_ H2']; rewrite H2' end.
    reflexivity.
Qed.

End GizmoFacts.

(** ** The touches of the toucher *)

Module ToucherFacts.
Import Toucher.

(** The types of the events dispatched, in order *)
Definition kinds {Element : Type} (evs : list (Event Element)) : list Kind :=
  omap (fun e => match e with Dispatch type _ _ _ _ => Some type | _ => None end) evs.

(** An event of a touch: something is dispatched or shown. *)
Definition touching {Element : Type} (e : Event Element) : bool :=
  match e with Dispatch _ _ _ _ _ | ShowAction _ => true | _ => false end.


(** Every event dispatched carries [n] changed touches. *)
Definition changes {Element : Type} (n : nat) (e : Event Element) : Prop :=
  match e with Dispatch _ _ _ _ changedTouches => length changedTouches = n | _ => True end.

Lemma kinds_app {Element : Type} (a b : list (Event Element)) : kinds (a ++ b) = kinds a ++ kinds b.
Proof. apply omap_app. Qed.

Section Page.
Context {Element : Type}.
Variables cos sin round : float -> float.
Variable PI : float.
Variable elementFromPoint : float -> float -> option Element.
Variables clientWidth clientHeight : Z.
Variable inherited : string -> option bool.
Variable config : Config Element.

Local Abbreviation run := (Toucher.run cos sin round PI config).
Local Abbreviation fire := (Toucher.fire cos sin round PI config).
Local Abbreviation gestureLoop := (Toucher.gestureLoop cos sin round PI config).
Local Abbreviation triggerGesture := (Toucher.triggerGesture cos sin round PI config).
Local Abbreviation triggerTouch := (Toucher.triggerTouch round config).
Local Abbreviation toucherGremlin :=
  (Toucher.toucherGremlin cos sin round PI elementFromPoint clientWidth clientHeight inherited
     config).
Local Abbreviation seek := (Toucher.seek elementFromPoint clientWidth clientHeight config).
Local Abbreviation touch := (Toucher.touch cos sin round PI inherited config).
Local Abbreviation select := (Toucher.select clientWidth clientHeight config).
Local Abbreviation position := (Toucher.position clientWidth clientHeight config).
Local Abbreviation tried := (Toucher.tried elementFromPoint clientWidth clientHeight config).
Local Abbreviation asked := (Toucher.asked config).
Local Abbreviation invoke := (Toucher.invoke config).


Lemma run_fire (m : nat) (w : World Element) (due : Z) (task : Task Element) :
  timers w = [(due, task)] ->
  run (S m) w = run m (outcome (fire task (mkWorld (events w) (drawn w) due []))).
Proof. intros H. change (run (S m) w) with
  (match pop (timers w) with
   | None => w
   | Some ((due, task), rest) => run m (outcome (fire task (mkWorld (events w) (drawn w) due rest)))
   end). by rewrite H. Qed.

Lemma getTouches_length (center : float * float) (n : nat) (radius rotation : option float) :
  length (getTouches cos sin PI center (Z.of_nat n) radius rotation) = n.
Proof.
  unfold getTouches. cbv zeta. destruct (Z.eqb_spec (Z.of_nat n) 1) as [E|E].
  - cbn. lia.
  - rewrite length_fmap, length_seq. lia.
Qed.

Lemma touchlist_length (touches : list Touch) (element : Element) :
  length (touchlist round touches element) = length touches.
Proof. unfold touchlist. by rewrite length_imap. Qed.

(** One call of [gestureLoop] that is neither the first nor the last *)
Lemma gestureLoop_moves (element : Element) (startPos : float * float) (startTouches : list Touch)
    (gesture : Gesture) (done : Callback Element) (loop : Z) (w : World Element) :
  showAction config = true -> loop <> 1%Z -> loop <> ceil_loops (duration gesture) ->
  exists evs,
    gestureLoop element startPos startTouches gesture done loop w
    = Returned (mkWorld (events w ++ evs) (drawn w) (now w)
        (timers w ++ [((now w + interval)%Z,
                        GestureLoop element startPos startTouches gesture done (loop + 1))])) /\
    kinds evs = [touchmove] /\ forallb touching evs = true /\
    Forall (changes (length startTouches)) evs.
Proof.
  intros Hshow H1 Hl. unfold Toucher.gestureLoop. cbv zeta.
  destruct (Z.eqb_spec loop 1) as [|_]; [done|].
  destruct (Z.eqb_spec loop (ceil_loops (duration gesture))) as [|_]; [done|].
  unfold Toucher.triggerTouch. cbv zeta. rewrite Hshow. cbn [andThen].
  eexists [_; _]. split; [|split; [|split]].
  - unfold setTimeout, emit. cbn [events drawn now timers]. rewrite <- app_assoc. reflexivity.
  - reflexivity.
  - reflexivity.
  - repeat constructor. cbn. by rewrite touchlist_length, getTouches_length.
Qed.

(** The first call *)
Lemma gestureLoop_starts (element : Element) (startPos : float * float) (startTouches : list Touch)
    (gesture : Gesture) (done : Callback Element) (w : World Element) :
  showAction config = true ->
  exists evs,
    gestureLoop element startPos startTouches gesture done 1 w
    = Returned (mkWorld (events w ++ evs) (drawn w) (now w)
        (timers w ++ [((now w + interval)%Z,
                        GestureLoop element startPos startTouches gesture done 2)])) /\
    kinds evs = [touchstart] /\ forallb touching evs = true /\
    Forall (changes (length startTouches)) evs.
Proof.
  intros Hshow. unfold Toucher.gestureLoop. cbv zeta.
  change (1 =? 1)%Z with true. cbv iota.
  unfold Toucher.triggerTouch. cbv zeta. rewrite Hshow. cbn [andThen].
  eexists [_; _]. split; [|split; [|split]].
  - unfold setTimeout, emit. cbn [events drawn now timers]. rewrite <- app_assoc. reflexivity.
  - reflexivity.
  - reflexivity.
  - repeat constructor. cbn. by rewrite touchlist_length, getTouches_length.
Qed.



Lemma run_split (a b : nat) (w : World Element) : run (a + b) w = run b (run a w).
Proof.
  revert w. induction a as [|a IH]; intros w; [done|].
  change (S a + b) with (S (a + b)).
  destruct (pop (timers w)) as [[[due task] rest]|] eqn:E.
  - change (run (S (a + b)) w) with
      (match pop (timers w) with
       | None => w
       | Some ((due, task), rest) =>
           run (a + b) (outcome (fire task (mkWorld (events w) (drawn w) due rest)))
       end).
    change (run (S a) w) with
      (match pop (timers w) with
       | None => w
       | Some ((due, task), rest) =>
           run a (outcome (fire task (mkWorld (events w) (drawn w) due rest)))
       end).
    rewrite E. apply IH.
  - assert (Hs : forall n, run n w = w).
    { intros [|n]; [done|]. cbn [Toucher.run]. by rewrite E. }
    by rewrite !Hs.
Qed.




(** A gesture that lasts 10 ms or less never ends: after its [touchstart]
    it dispatches a [touchmove] every 10 ms, for ever; no [touchend] is
    dispatched, [done] is not called, and a timer is always pending. *)
Theorem short_gesture_never_ends (element : Element) (startPos : float * float)
    (startTouches : list Touch) (gesture : Gesture) (done : Callback Element)
    (w : World Element) (m : nat) :
  showAction config = true -> timers w = [] -> (duration gesture <= 10)%Z ->
  exists evs,
    run m (outcome (triggerGesture element startPos startTouches gesture done w))
    = mkWorld (events w ++ evs) (drawn w) (now w + interval * Z.of_nat m)%Z
        [((now w + interval * (Z.of_nat m + 1))%Z,
          GestureLoop element startPos startTouches gesture done (Z.of_nat m + 2))] /\
    kinds evs = touchstart :: repeat touchmove m /\
    forallb touching evs = true.
Proof.
  intros Hshow Hw Hd.
  assert (Hl : (ceil_loops (duration gesture) <= 1)%Z).
  { unfold ceil_loops, interval. apply Z.lt_succ_r. apply Z.div_lt_upper_bound; lia. }
  induction m as [|m IH].
  - cbn [Toucher.run]. unfold Toucher.triggerGesture.
    destruct (gestureLoop_starts element startPos startTouches gesture done w Hshow)
      as (evs & -> & Hk1 & Hk2 & _).
    exists evs. rewrite Hw. cbn [outcome app]. split; [|done].
    replace (now w + interval * (Z.of_nat 0 + 1))%Z with (now w + interval)%Z
      by (unfold interval; lia).
    replace (now w + interval * Z.of_nat 0)%Z with (now w) by lia.
    reflexivity.
  - destruct IH as (evs & Hrun & Hk1 & Hk2).
    replace (S m) with (m + 1) by lia. rewrite run_split, Hrun.
    erewrite (run_fire 0); [|reflexivity]. cbn [Toucher.run Toucher.fire events drawn].
    destruct (gestureLoop_moves element startPos startTouches gesture done (Z.of_nat m + 2)
                (mkWorld (events w ++ evs) (drawn w) (now w + interval * (Z.of_nat m + 1))%Z [])
                Hshow ltac:(lia) ltac:(lia))
      as (evs' & -> & Hk1' & Hk2' & _).
    exists (evs ++ evs'). cbn [outcome events drawn now timers app].
    split; [|split].
    + replace (Z.of_nat (m + 1) + 2)%Z with (Z.of_nat m + 2 + 1)%Z by lia.
      replace (now w + interval * (Z.of_nat (m + 1) + 1))%Z
        with (now w + interval * (Z.of_nat m + 1) + interval)%Z by (unfold interval; lia).
      replace (now w + interval * Z.of_nat (m + 1))%Z
        with (now w + interval * (Z.of_nat m + 1))%Z by (unfold interval; lia).
      by rewrite app_assoc.
    + rewrite kinds_app, Hk1, Hk1'. cbn [app]. f_equal.
      replace (m + 1) with (S m) by lia. cbn [repeat]. by rewrite repeat_cons.
    + rewrite forallb_app, Hk2, Hk2'. reflexivity.
Qed.


(** *** The randomizer and the loop of the tries *)

Lemma draw_value {A : Type} (r : Randomizer) (f : Randomizer -> nat -> option A) (otherwise a : A)
    (w : World Element) :
  randomizer config = Some r -> f r (drawn w) = Some a ->
  draw config f otherwise w = Value a (mkWorld (events w) (S (drawn w)) (now w) (timers w)).
Proof. intros Hr Hf. unfold draw. by rewrite Hr, Hf. Qed.

Lemma draw_raised {A : Type} (r : Randomizer) (f : Randomizer -> nat -> option A) (otherwise : A)
    (w : World Element) :
  randomizer config = Some r -> f r (drawn w) = None ->
  draw config f otherwise w
  = Raised (mkWorld (events w ++ [Throw OfTheRandomizer]) (S (drawn w)) (now w) (timers w)).
Proof. intros Hr Hf. unfold draw. by rewrite Hr, Hf. Qed.

Lemma asked_S (r : Randomizer) (k : nat) :
  randomizer config = Some r ->
  asked (S k) = match positionSelector config with
                | DefaultPositionSelector => S (S (asked k))
                | OfThePage _ => 0
                end.
Proof. intros Hr. unfold Toucher.asked. rewrite Hr. destruct (positionSelector config); [lia|done]. Qed.

(** Call number [k] of the selector, in a run that started in [w0] *)
Lemma select_position (r : Randomizer) (w0 w : World Element) (k : nat) (p : float * float) :
  randomizer config = Some r -> drawn w = drawn w0 + asked k ->
  position w0 k = Some p ->
  select k w = Value p (mkWorld (events w) (drawn w0 + asked (S k)) (now w) (timers w)).
Proof.
  intros Hr Hw Hp. rewrite (asked_S r) by done.
  unfold Toucher.select, Toucher.position, Toucher.asked in *. rewrite Hr in *.
  destruct (positionSelector config) as [|f].
  - unfold defaultPositionSelector. rewrite Hr.
    replace (drawn w0 + 2 * k) with (drawn w) in Hp by lia.
    destruct (natural r (drawn w) None (clientWidth - 1)) as [x|] eqn:Hx; [|done].
    destruct (natural r (S (drawn w)) None (clientHeight - 1)) as [y|] eqn:Hy; [|done].
    injection Hp as <-.
    rewrite (draw_value r _ _ x) by done.
    rewrite (draw_value r _ _ y) by done.
    cbn [events drawn now timers]. do 2 f_equal. lia.
  - injection Hp as <-. destruct w. cbn in *. do 2 f_equal. lia.
Qed.

Lemma tried_position (w0 : World Element) (k : nat) (found : option Element) :
  tried w0 k = Some found ->
  exists p, position w0 k = Some p /\
    found = match elementFromPoint p.1 p.2 with
            | Some el => if canTouch config el then Some el else None
            | None => None
            end.
Proof.
  unfold Toucher.tried. destruct (position w0 k) as [p|]; [|done].
  intros [= <-]. by exists p.
Qed.

Lemma toucher_seek_gives_up (r : Randomizer) (found : float -> float -> Element -> World Element -> Res Element)
    (w0 : World Element) (fuel nbTries : nat) (w : World Element) :
  randomizer config = Some r ->
  nbTries <= maxNbTries config -> maxNbTries config < nbTries + fuel ->
  drawn w = drawn w0 + asked nbTries ->
  (forall j, nbTries <= j < maxNbTries config -> tried w0 j = Some None) ->
  is_Some (position w0 (maxNbTries config)) ->
  seek found fuel nbTries w
  = Some (Returned (mkWorld (events w) (drawn w0 + asked (S (maxNbTries config))) (now w)
                      (timers w))).
Proof.
  intros Hr. revert nbTries w.
  induction fuel as [|fuel IH]; intros nbTries w Hle Hfuel Hw Hnone Hlast; [lia|].
  cbn [Toucher.seek].
  destruct (decide (nbTries = maxNbTries config)) as [->|Hne].
  - destruct Hlast as [p Hp]. rewrite (select_position r w0 w _ p) by done. cbv zeta.
    destruct (maxNbTries config <? S (maxNbTries config)) eqn:E; [done|].
    apply Nat.ltb_ge in E. lia.
  - destruct (tried_position w0 nbTries None (Hnone nbTries ltac:(lia))) as (p & Hp & Hel).
    rewrite (select_position r w0 w _ p) by done. cbv zeta.
    destruct (maxNbTries config <? S nbTries) eqn:E; [apply Nat.ltb_lt in E; lia|].
    destruct (elementFromPoint p.1 p.2) as [el|]; [destruct (canTouch config el); [done|]|];
      (rewrite IH; [done|lia|lia|done| |done]); intros j Hj; apply Hnone; lia.
Qed.

Lemma toucher_seek_finds (r : Randomizer) (found : float -> float -> Element -> World Element -> Res Element)
    (w0 : World Element) (k : nat) (el : Element) (fuel nbTries : nat) (w : World Element) :
  randomizer config = Some r ->
  nbTries <= k -> k < maxNbTries config -> k < nbTries + fuel ->
  drawn w = drawn w0 + asked nbTries ->
  (forall j, nbTries <= j < k -> tried w0 j = Some None) ->
  tried w0 k = Some (Some el) ->
  exists p, position w0 k = Some p /\
    seek found fuel nbTries w
    = Some (found p.1 p.2 el
              (mkWorld (events w) (drawn w0 + asked (S k)) (now w) (timers w))).
Proof.
  intros Hr. revert nbTries w.
  induction fuel as [|fuel IH]; intros nbTries w Hle Hmax Hfuel Hw Hnone Hk; [lia|].
  cbn [Toucher.seek].
  destruct (decide (nbTries = k)) as [->|Hne].
  - destruct (tried_position w0 k _ Hk) as (p & Hp & Hel). exists p. split; [done|].
    rewrite (select_position r w0 w _ p) by done. cbv zeta.
    destruct (maxNbTries config <? S k) eqn:E; [apply Nat.ltb_lt in E; lia|].
    destruct (elementFromPoint p.1 p.2) as [el'|]; [|done].
    destruct (canTouch config el'); [|done]. by injection Hel as ->.
  - destruct (tried_position w0 nbTries None (Hnone nbTries ltac:(lia))) as (p & Hp & Hel).
    rewrite (select_position r w0 w _ p) by done. cbv zeta.
    destruct (maxNbTries config <? S nbTries) eqn:E; [apply Nat.ltb_lt in E; lia|].
    assert (Hrec : exists p',
              position w0 k = Some p' /\
              seek found fuel (S nbTries)
                (mkWorld (events w) (drawn w0 + asked (S nbTries)) (now w) (timers w))
              = Some (found p'.1 p'.2 el
                        (mkWorld (events w) (drawn w0 + asked (S k)) (now w) (timers w)))).
    { apply (IH (S nbTries) (mkWorld (events w) (drawn w0 + asked (S nbTries)) (now w) (timers w)));
        [lia|lia|lia|done| |done].
      intros j Hj. apply Hnone. lia. }
    by destruct (elementFromPoint p.1 p.2) as [el'|]; [destruct (canTouch config el'); [done|]|].
Qed.

(** When none of the points of its first [maxNbTries] tries holds an
    element [canTouch] accepts, the toucher returns and has done nothing
    to the page: no event is dispatched, no timer is set and [done] is
    not called.  The randomizer was asked by [positionSelector] only:
    twice for each of the [maxNbTries + 1] points by the default one, not
    at all by one of the page. *)
Theorem toucher_gives_up_without_done (r : Randomizer) (done : bool) (w : World Element) :
  randomizer config = Some r ->
  (forall j, j < maxNbTries config -> tried w j = Some None) ->
  is_Some (position w (maxNbTries config)) ->
  toucherGremlin done w
  = Some (Returned (mkWorld (events w) (drawn w + asked (S (maxNbTries config))) (now w)
                      (timers w))).
Proof.
  intros Hr Hnone Hlast. unfold Toucher.toucherGremlin. rewrite Hr.
  apply (toucher_seek_gives_up r); try done; try lia.
  - unfold Toucher.asked. rewrite Hr. destruct (positionSelector config); lia.
  - intros j Hj. apply Hnone. lia.
Qed.

(** The toucher that finds its element at try [k] *)
Lemma toucher_finds (r : Randomizer) (k : nat) (el : Element) (done : bool) (w : World Element) :
  randomizer config = Some r ->
  k < maxNbTries config -> (forall j, j < k -> tried w j = Some None) ->
  tried w k = Some (Some el) ->
  exists p,
    toucherGremlin done w
    = Some (touch r done p.1 p.2 el
              (mkWorld (events w) (drawn w + asked (S k)) (now w) (timers w))).
Proof.
  intros Hr Hk Hnone Hel. unfold Toucher.toucherGremlin. rewrite Hr.
  destruct (toucher_seek_finds r (touch r done) w k el (S (maxNbTries config)) 0 w)
    as (p & _ & Hseek); try done; try lia.
  - unfold Toucher.asked. rewrite Hr. destruct (positionSelector config); lia.
  - intros j Hj. apply Hnone. lia.
  - by exists p.
Qed.


Lemma triggerTouch_throws (touches : list Touch) (element : Element) (type : Kind)
    (w : World Element) :
  showAction config = false ->
  triggerTouch touches element type w
  = Thrown (mkWorld (events w ++ [Dispatch type element
                                      (match type with touchend => [] | _ => touchlist round touches element end)
                                      (match type with touchend => [] | _ => touchlist round touches element end)
                                      (touchlist round touches element);
                                  Throw NotAFunction])
                (drawn w) (now w) (timers w)).
Proof.
  intros Hshow. unfold Toucher.triggerTouch. cbv zeta. rewrite Hshow.
  unfold emit. cbn [events drawn now timers]. by rewrite <- app_assoc.
Qed.

(** A randomizer whose [integer] returns, and keeps to the bounds it is
    given *)
Definition honest (r : Randomizer) : Prop :=
  forall n min max, (min <= max)%Z ->
    exists z, integer r n min max = Some z /\ (min <= z <= max)%Z.

(** The touch types that ask the randomizer for integers only *)
Definition one_finger (touchType : string) : bool :=
  String.eqb touchType "tap" || String.eqb touchType "doubletap"
  || String.eqb touchType "gesture".

(** Each of these starts with a call of [triggerTouch] for a
    [touchstart], after some calls to the randomizer. *)
Lemma touch_type_starts (r : Randomizer) (touchType : string) (position : float * float)
    (element : Element) (done : Callback Element) (w : World Element) :
  randomizer config = Some r -> honest r -> one_finger touchType = true ->
  exists touches n (next : World Element -> Res Element),
    (if String.eqb touchType "tap" then Toucher.tap cos sin round PI config position element done w
     else if String.eqb touchType "doubletap" then Toucher.doubletap cos sin round PI config position element done w
     else Toucher.gesture cos sin round PI config position element done w)
    = andThen (triggerTouch touches element touchstart
                 (mkWorld (events w) (n + drawn w) (now w) (timers w))) next.
Proof.
  intros Hr Hhonest Hknown.
  destruct (String.eqb touchType "tap"); [|destruct (String.eqb touchType "doubletap")].
  - unfold Toucher.tap.
    destruct (Hhonest (drawn w) 20 700 ltac:(lia))%Z as (d & Hd & _).
    rewrite (draw_value r _ _ d) by done. cbn [bind]. by eexists _, 1, _.
  - unfold Toucher.doubletap, Toucher.tap.
    destruct (Hhonest (drawn w) 20 700 ltac:(lia))%Z as (d & Hd & _).
    rewrite (draw_value r _ _ d) by done. cbn [bind]. by eexists _, 1, _.
  - unfold Toucher.gesture.
    destruct (Hhonest (drawn w) (-100) 200 ltac:(lia))%Z as (dx & Hdx & _).
    rewrite (draw_value r _ _ dx) by done. cbn [bind].
    destruct (Hhonest (S (drawn w)) (-100) 200 ltac:(lia))%Z as (dy & Hdy & _).
    rewrite (draw_value r _ _ dy) by done. cbn [bind].
    destruct (Hhonest (S (S (drawn w))) 20 500 ltac:(lia))%Z as (d & Hd & _).
    rewrite (draw_value r _ _ d) by done. cbn [bind].
    unfold Toucher.triggerGesture, Toucher.gestureLoop.
    cbn [drawn events now timers]. cbv zeta. change (1 =? 1)%Z with true. cbv iota.
    by eexists _, 3, _.
Qed.

(** With a [showAction] that is no function and a randomizer whose
    [integer] keeps to its bounds, the toucher that has found an element
    and picked a tap, a double tap or a gesture dispatches the
    [touchstart] of its touch and throws: no [touchend] follows, no timer
    is set and [done] is not called. *)
Theorem toucher_needs_showAction (r : Randomizer) (k : nat) (el : Element) (done : bool)
    (w : World Element) (touchType : string) :
  randomizer config = Some r -> honest r -> showAction config = false ->
  k < maxNbTries config -> (forall j, j < k -> tried w j = Some None) ->
  tried w k = Some (Some el) ->
  pick r (drawn w + asked (S k)) (touchTypes config) = Some touchType ->
  one_finger touchType = true ->
  exists touches n,
    toucherGremlin done w
    = Some (Thrown (mkWorld
                      (events w ++ [Dispatch touchstart el (touchlist round touches el)
                                      (touchlist round touches el) (touchlist round touches el);
                                    Throw NotAFunction])
                      (n + drawn w) (now w) (timers w))).
Proof.
  intros Hr Hhonest Hshow Hk Hnone Hel Hpick Hknown.
  destruct (toucher_finds r k el done w Hr Hk Hnone Hel) as (p & ->).
  unfold Toucher.touch. cbn [events drawn now timers]. rewrite Hpick. cbv zeta.
  set (lg := LogGremlin _ _ _ _). set (w1 := mkWorld _ _ _ _).
  destruct (touch_type_starts r touchType (p.1, p.2) el lg w1 Hr Hhonest Hknown)
    as (touches & n & next & Hstart).
  exists touches, (n + S (asked (S k))).
  unfold one_finger in Hknown.
  destruct (String.eqb touchType "tap") eqn:E1; [|destruct (String.eqb touchType "doubletap") eqn:E2;
    [|destruct (String.eqb touchType "gesture") eqn:E3; [|done]]];
    rewrite Hstart, triggerTouch_throws by done; cbn [andThen events drawn now timers];
    unfold w1; cbn [events drawn now timers]; do 3 f_equal; lia.
Qed.

(** A randomizer whose [natural] rejects a lower bound below zero *)
Definition rejects_negative (r : Randomizer) : Prop :=
  forall n min max, (min < 0)%Z -> natural r n (Some min) max = None.

(** [multitouch] asks for [natural({ min: -100, max: 100 })].  With a
    randomizer whose [natural] rejects a lower bound below zero, the
    toucher that has found an element and picked a multitouch throws in
    the randomizer: nothing is dispatched, no timer is set and [done] is
    not called. *)
Theorem multitouch_throws_in_the_randomizer (r : Randomizer) (k : nat) (el : Element)
    (done : bool) (w : World Element) :
  randomizer config = Some r -> rejects_negative r ->
  k < maxNbTries config -> (forall j, j < k -> tried w j = Some None) ->
  tried w k = Some (Some el) ->
  pick r (drawn w + asked (S k)) (touchTypes config) = Some "multitouch"%string ->
  exists n,
    toucherGremlin done w
    = Some (Thrown (mkWorld (events w ++ [Throw OfTheRandomizer]) (n + drawn w) (now w)
                      (timers w))).
Proof.
  intros Hr Hrej Hk Hnone Hel Hpick.
  destruct (toucher_finds r k el done w Hr Hk Hnone Hel) as (p & ->).
  unfold Toucher.touch. cbn [events drawn now timers]. rewrite Hpick. cbv zeta.
  change (String.eqb "multitouch" "tap") with false.
  change (String.eqb "multitouch" "doubletap") with false.
  change (String.eqb "multitouch" "gesture") with false.
  change (String.eqb "multitouch" "multitouch") with true. cbv iota.
  unfold Toucher.multitouch. cbn [drawn events now timers].
  set (n0 := S (drawn w + asked (S k))).
  destruct (integer r n0 2 (maxTouches config)) as [points|] eqn:Hpoints.
  2: { rewrite (draw_raised r) by done. cbn [bind events drawn now timers].
       exists (S (S (asked (S k)))). do 3 f_equal. unfold n0. lia. }
  rewrite (draw_value r _ _ points) by done. cbn [bind events drawn now timers].
  destruct (floating r (S n0) 0 2) as [s|] eqn:Hs.
  2: { rewrite (draw_raised r) by done. cbn [bind events drawn now timers].
       exists (S (S (S (asked (S k))))). do 3 f_equal. unfold n0. lia. }
  rewrite (draw_value r _ _ s) by done. cbn [bind events drawn now timers].
  rewrite (draw_raised r) by (try done; apply Hrej; lia).
  cbn [bind events drawn now timers].
  exists (S (S (S (S (asked (S k)))))). do 3 f_equal. unfold n0. lia.
Qed.







End Page.

(** A page of one button, at the points with [posX = 1]; the points of a
    touch all lie in the direction of the first. *)
Definition touch_page (posX posY : float) : option string :=
  if PrimFloat.eqb posX 1 then Some "button"%string else None.

Definition demo_cos (angle : float) : float := 1%float.
Definition demo_sin (angle : float) : float := 0%float.
Definition demo_round (n : float) : float := n.
Definition demo_PI : float := 3.141592653589793%float.
Definition nothing_inherited (name : string) : option bool := None.

(** A randomizer that answers 15 above the lower bound, or the upper bound
    if that is less, and picks the last of a list; its [natural] takes 0
    for a lower bound that is not given and rejects one below zero, as the
    one of the Chance library does. *)
Definition demo_randomizer : Randomizer :=
  mkRandomizer (fun _ min max => Some (Z.min max (min + 15)))
    (fun _ min max =>
       match min with
       | None => Some (Z.min max 1)
       | Some min => if (min <? 0)%Z then None else Some (Z.min max (min + 15))
       end)
    (fun _ _ _ => Some 1%float) (fun _ l => last l).

Lemma demo_randomizer_honest : honest demo_randomizer.
Proof. intros n min max H. eexists. split; [reflexivity|]. lia. Qed.

Lemma demo_randomizer_rejects : rejects_negative demo_randomizer.
Proof. intros n min max H. cbn. by apply Z.ltb_lt in H as ->. Qed.

(** A selector of the page that looks beside the button first, and the
    configuration of the factory with it or with its own selector. *)
Definition beside_first : Selector :=
  OfThePage (fun k => if Nat.even k then (0, 0)%float else (1, 7)%float).

Definition touch_config (selector : Selector) (touchTypes : list string) (showAction : bool)
    (maxNbTries : nat) : Config string :=
  mkConfig touchTypes selector showAction (fun _ => true) true maxNbTries 2
    (Some demo_randomizer).

Definition blank : World string := mkWorld [] 0 0 [].

Definition flick : Gesture := mkGesture (Some 30%float) None 10 None None None.

(** The toucher on this page, in a window of 2 by 2 and in one of 1 by
    1 *)
Definition toucher (width : Z) (config : Config string) (done : bool) : option (Res string) :=
  Toucher.toucherGremlin demo_cos demo_sin demo_round demo_PI touch_page width width
    nothing_inherited config done blank.

Definition demo_run (config : Config string) (fuel : nat) (r : option (Res string)) : World string :=
  Toucher.run demo_cos demo_sin demo_round demo_PI config fuel
    (outcome (default (Returned blank) r)).


Lemma short_gesture_never_ends_witness :
  exists evs,
    Toucher.run demo_cos demo_sin demo_round demo_PI
      (touch_config beside_first ["gesture"%string] true 10) 5
      (outcome (Toucher.triggerGesture demo_cos demo_sin demo_round demo_PI
                  (touch_config beside_first ["gesture"%string] true 10) "button"%string
                  (1, 7)%float [mkTouch 1 7] flick (LogGremlin "gesture" 1 7 true) blank))
    = mkWorld ([] ++ evs) 0 50
        [(60%Z, GestureLoop "button"%string (1, 7)%float [mkTouch 1 7] flick
                  (LogGremlin "gesture" 1 7 true) 7)] /\
    kinds evs = [touchstart; touchmove; touchmove; touchmove; touchmove; touchmove] /\
    forallb touching evs = true.
Proof.
  apply (short_gesture_never_ends demo_cos demo_sin demo_round demo_PI
           (touch_config beside_first ["gesture"%string] true 10) "button"%string (1, 7)%float
           [mkTouch 1 7] flick (LogGremlin "gesture" 1 7 true) blank 5);
    [reflexivity|reflexivity|cbn; lia].
Defined.

(** In a window of 1 by 1 the default selector finds the point (0, 0)
    only, where the button is not: the toucher gives up after 2 tries and
    4 calls to the randomizer. *)
Lemma toucher_gives_up_without_done_witness :
  toucher 1 (touch_config DefaultPositionSelector ["tap"%string] true 1) true
  = Some (Returned (mkWorld [] (0 + 4) 0 [])).
Proof.
  apply (toucher_gives_up_without_done demo_cos demo_sin demo_round demo_PI touch_page 1 1
           nothing_inherited (touch_config DefaultPositionSelector ["tap"%string] true 1)
           demo_randomizer true blank);
    [reflexivity| |by eexists].
  intros j Hj. destruct j; [reflexivity|cbn in Hj; lia].
Defined.

Lemma toucher_needs_showAction_witness :
  exists touches n,
    toucher 2 (touch_config beside_first ["tap"; "gesture"]%string false 10) true
    = Some (Thrown (mkWorld
                      ([] ++ [Dispatch touchstart "button"%string
                                (touchlist demo_round touches "button"%string)
                                (touchlist demo_round touches "button"%string)
                                (touchlist demo_round touches "button"%string);
                              Throw NotAFunction])
                      (n + 0) 0 [])).
Proof.
  apply (toucher_needs_showAction demo_cos demo_sin demo_round demo_PI touch_page 2 2
           nothing_inherited (touch_config beside_first ["tap"; "gesture"]%string false 10)
           demo_randomizer 1 "button"%string true blank "gesture"%string);
    [reflexivity|exact demo_randomizer_honest|reflexivity|cbn; lia| |reflexivity
    |reflexivity|reflexivity].
  intros j Hj. destruct j; [reflexivity|lia].
Defined.

Lemma multitouch_throws_in_the_randomizer_witness :
  exists n,
    toucher 2 (touch_config DefaultPositionSelector ["tap"; "multitouch"]%string true 10) true
    = Some (Thrown (mkWorld ([] ++ [Throw OfTheRandomizer]) (n + 0) 0 [])).
Proof.
  apply (multitouch_throws_in_the_randomizer demo_cos demo_sin demo_round demo_PI touch_page
           2 2 nothing_inherited
           (touch_config DefaultPositionSelector ["tap"; "multitouch"]%string true 10)
           demo_randomizer 0 "button"%string true blank);
    [reflexivity|exact demo_randomizer_rejects|cbn; lia| |reflexivity|reflexivity].
  intros j Hj. lia.
Defined.


(** A double tap of the toucher, run to the end; and a multitouch with a
    randomizer that answers 15 to [natural({ min: -100, max: 100 })]. *)
Example toucher_doubletap :
  let config := touch_config beside_first ["doubletap"%string] true 10 in
  let w := demo_run config 10 (toucher 2 config true) in
  kinds (events w) = [touchstart; touchend; touchstart; touchend] /\
  last (events w) = Some Done /\ timers w = [] /\ drawn w = 3 /\ now w = (35 + 30 + 35)%Z.
Proof. vm_compute. done. Qed.

Definition lenient_randomizer : Randomizer :=
  mkRandomizer (integer demo_randomizer) (fun _ _ _ => Some 15%Z)
    (floating demo_randomizer) (pick demo_randomizer).

Example toucher_multitouch :
  let config :=
    mkConfig ["multitouch"%string] DefaultPositionSelector true (fun _ => true) true 10 2
      (Some lenient_randomizer) in
  let w := demo_run config 20
             (Toucher.toucherGremlin demo_cos demo_sin demo_round demo_PI
                (fun _ _ => Some "body"%string) 2 2 nothing_inherited config true blank) in
  kinds (events w) = touchstart :: repeat touchmove 10 ++ [touchend] /\
  last (events w) = Some Done /\ timers w = [] /\ drawn w = 10 /\
  Forall (changes 2) (events w).
Proof. vm_compute. split; [done|]. split; [done|]. split; [done|]. split; [done|].
  repeat constructor. Qed.

End ToucherFacts.
